(** * Crossword grid synthesis: placement engine and grid compiler

    A shallow embedding of [build_oscars_crossword.js].  The two functions of
    interest are [buildGrid] (placement of every answer on an unbounded
    integer grid) and [buildJson] (compilation of the sparse grid to a dense,
    numbered puzzle with across and down clue lists).  The steps of [main],
    the string keys, [findClueForCell] of the player in [app.js] and the
    earlier builder kept in [app.js] are embedded as well.

    Modelling conventions.
    - JavaScript numbers that hold integers are [Z]; array indices are [nat].
    - A JavaScript [Map] is an association list in insertion order
      ([JsMap]); setting an existing key keeps its position.
    - The string key ["r,c"] built by [key] is in bijection with the pair
      [(r, c)], so grid keys are pairs; likewise ["r,c,dir"] is a triple.
    - Strings are [string]; one character is an [ascii].
    - A thrown exception is the left injection of a sum, carrying the data
      from which the message is built. *)

From Stdlib Require Import ZArith List String Ascii Bool Lia Arith.
From Stdlib Require Import Permutation Sorted.
From Stdlib Require Import Decimal DecimalString DecimalZ DecimalPos.
Import ListNotations.

Open Scope Z_scope.

(** ** Data model *)

Inductive Direction : Type := across | down.

Definition Direction_eqb (a b : Direction) : bool :=
  match a, b with
  | across, across => true
  | down, down => true
  | _, _ => false
  end.

Record Entry : Type := mkEntry {
  answer : string;
  clue : string;
  rawAnswer : option string
}.

Definition Coord : Type := (Z * Z)%type.

Definition Coord_eqb (a b : Coord) : bool :=
  (fst a =? fst b) && (snd a =? snd b).

Definition StartKey : Type := (Z * Z * Direction)%type.

Definition StartKey_eqb (a b : StartKey) : bool :=
  Coord_eqb (fst a) (fst b) && Direction_eqb (snd a) (snd b).

(** ** JavaScript [Map] and [Set], in insertion order *)

Module JsMap.
Section Defs.
Context {K V : Type}.
Variable eqb : K -> K -> bool.

Fixpoint get (k : K) (m : list (K * V)) : option V :=
  match m with
  | [] => None
  | (k', v) :: rest => if eqb k k' then Some v else get k rest
  end.

Definition has (k : K) (m : list (K * V)) : bool :=
  match get k m with Some _ => true | None => false end.

(** [m.set(k, v)]: an existing key keeps its place, a new one goes last. *)
Fixpoint set (k : K) (v : V) (m : list (K * V)) : list (K * V) :=
  match m with
  | [] => [(k, v)]
  | (k', v') :: rest =>
      if eqb k k' then (k', v) :: rest else (k', v') :: set k v rest
  end.
End Defs.
End JsMap.

Module JsSet.
Definition has (n : nat) (s : list nat) : bool := existsb (Nat.eqb n) s.
Definition add (n : nat) (s : list nat) : list nat :=
  if has n s then s else s ++ [n].
End JsSet.

(** ** Errors thrown by the build *)

Inductive BuildError : Type :=
| TypeError
    (* a property read on [undefined] *)
| InvalidPlacement (a : string)
    (* "Invalid placement attempted for " + answer *)
| DuplicateStart (k : StartKey)
    (* "Duplicate start placement at " + k *)
| MissingEntry (k : StartKey)
    (* "Missing across entry for start " + k, or the down one *)
| NotAllUsed (missing : list string)
    (* "Not all CSV entries were used as clues. Missing: " + missing *).

Definition Result (A : Type) : Type := (BuildError + A)%type.

(** ** State of the [buildGrid] closure *)

Record Placed : Type := mkPlaced {
  index : nat;
  row : Z;
  col : Z;
  dir : Direction;
  p_answer : string
}.

Record GridState : Type := mkState {
  grid : list (Coord * ascii);
  placed : list Placed;
  minRow : Z;
  maxRow : Z;
  minCol : Z;
  maxCol : Z
}.

Definition initState : GridState := mkState [] [] 0 0 0 0.

(** The inner functions of [buildGrid] read and write the variables of the
    enclosing call; they are computations in a state and error monad. *)
Definition M (A : Type) : Type := GridState -> Result (A * GridState).

Definition ret {A} (a : A) : M A := fun s => inr (a, s).

Definition bind {A B} (m : M A) (f : A -> M B) : M B :=
  fun s => match m s with
           | inl e => inl e
           | inr (a, s') => f a s'
           end.

Definition throw {A} (e : BuildError) : M A := fun _ => inl e.

Declare Scope m_scope.
Delimit Scope m_scope with M.
Notation "x <- m ;; k" := (bind m (fun x => k))
  (at level 61, m at next level, right associativity) : m_scope.
Notation "m ;;; k" := (bind m (fun _ => k))
  (at level 61, right associativity) : m_scope.
Open Scope m_scope.

Definition readState : M GridState := fun s => inr (s, s).

Definition gridHas (g : list (Coord * ascii)) (r c : Z) : bool :=
  JsMap.has Coord_eqb (r, c) g.

Definition gridGet (g : list (Coord * ascii)) (r c : Z) : option ascii :=
  JsMap.get Coord_eqb (r, c) g.

Definition has (r c : Z) : M bool :=
  fun s => inr (gridHas (grid s) r c, s).

Definition get (r c : Z) : M (option ascii) :=
  fun s => inr (gridGet (grid s) r c, s).

Definition gridSize : M Z :=
  fun s => inr (Z.of_nat (List.length (grid s)), s).

Definition letters (a : string) : list ascii := list_ascii_of_string a.

Definition strlen (a : string) : Z := Z.of_nat (String.length a).

(** Coordinate of position [i] of a word that starts at [(row, col)]. *)
Definition cellOf (d : Direction) (row col i : Z) : Coord :=
  match d with
  | across => (row, col + i)
  | down => (row + i, col)
  end.

(** ** [canPlace] *)

Record Bounds : Type := mkBounds {
  newMinRow : Z;
  newMaxRow : Z;
  newMinCol : Z;
  newMaxCol : Z
}.

Record Check : Type := mkCheck {
  intersections : Z;
  score : Z;
  bounds : Bounds
}.

Definition widen (b : Bounds) (r c : Z) : Bounds :=
  let b1 := if r <? newMinRow b
            then mkBounds r (newMaxRow b) (newMinCol b) (newMaxCol b) else b in
  let b2 := if r >? newMaxRow b1
            then mkBounds (newMinRow b1) r (newMinCol b1) (newMaxCol b1) else b1 in
  let b3 := if c <? newMinCol b2
            then mkBounds (newMinRow b2) (newMaxRow b2) c (newMaxCol b2) else b2 in
  if c >? newMaxCol b3
  then mkBounds (newMinRow b3) (newMaxRow b3) (newMinCol b3) c else b3.

(** The [for] loop of [canPlace]; [None] is the early [return null]. *)
Fixpoint canPlaceLoop (d : Direction) (row col : Z) (chars : list ascii)
    (i : Z) (inter : Z) (b : Bounds) : M (option (Z * Bounds)) :=
  match chars with
  | [] => ret (Some (inter, b))
  | ch :: rest =>
      let r := fst (cellOf d row col i) in
      let c := snd (cellOf d row col i) in
      existing <- get r c ;;
      match existing with
      | Some e =>
          if negb (Ascii.eqb e ch) then ret None
          else canPlaceLoop d row col rest (i + 1) (inter + 1) (widen b r c)
      | None =>
          match d with
          | across =>
              up <- has (r - 1) c ;;
              if up then ret None else
              dn <- has (r + 1) c ;;
              if dn then ret None
              else canPlaceLoop d row col rest (i + 1) inter (widen b r c)
          | down =>
              lf <- has r (c - 1) ;;
              if lf then ret None else
              rt <- has r (c + 1) ;;
              if rt then ret None
              else canPlaceLoop d row col rest (i + 1) inter (widen b r c)
          end
      end
  end.

Definition scoreOf (inter : Z) (b : Bounds) : Z :=
  let height := newMaxRow b - newMinRow b + 1 in
  let width := newMaxCol b - newMinCol b + 1 in
  let area := height * width in
  let aspectPenalty := Z.abs (width - height) in
  inter * 1000 - area - aspectPenalty * 5.

Definition canPlace (a : string) (row col : Z) (d : Direction)
    : M (option Check) :=
  let len := strlen a in
  before <- (match d with
             | across => has row (col - 1)
             | down => has (row - 1) col
             end) ;;
  if before then ret None else
  after <- (match d with
            | across => has row (col + len)
            | down => has (row + len) col
            end) ;;
  if after then ret None else
  s <- readState ;;
  res <- canPlaceLoop d row col (letters a) 0 0
           (mkBounds (minRow s) (maxRow s) (minCol s) (maxCol s)) ;;
  match res with
  | None => ret None
  | Some (inter, b) =>
      size <- gridSize ;;
      if (size >? 0) && (inter =? 0) then ret None
      else ret (Some (mkCheck inter (scoreOf inter b) b))
  end.

(** ** [placeWordAt] *)

Definition setCell (r c : Z) (ch : ascii) : M unit :=
  fun s =>
    let g := JsMap.set Coord_eqb (r, c) ch (grid s) in
    let mnR := if r <? minRow s then r else minRow s in
    let mxR := if r >? maxRow s then r else maxRow s in
    let mnC := if c <? minCol s then c else minCol s in
    let mxC := if c >? maxCol s then c else maxCol s in
    inr (tt, mkState g (placed s) mnR mxR mnC mxC).

Fixpoint placeLoop (d : Direction) (row col : Z) (chars : list ascii) (i : Z)
    : M unit :=
  match chars with
  | [] => ret tt
  | ch :: rest =>
      let r := fst (cellOf d row col i) in
      let c := snd (cellOf d row col i) in
      setCell r c ch ;;;
      placeLoop d row col rest (i + 1)
  end.

Definition pushPlaced (p : Placed) : M unit :=
  fun s => inr (tt, mkState (grid s) (placed s ++ [p])
                      (minRow s) (maxRow s) (minCol s) (maxCol s)).

Definition placeWordAt (idx : nat) (a : string) (row col : Z) (d : Direction)
    : M unit :=
  chk <- canPlace a row col d ;;
  size <- gridSize ;;
  let ok := match chk with
            | Some _ => true
            | None => size =? 0
            end in
  if negb ok && (size >? 0) then throw (InvalidPlacement a)
  else
    placeLoop d row col (letters a) 0 ;;;
    pushPlaced (mkPlaced idx row col d a).

(** ** [bestPlacement] *)

Record Best : Type := mkBest {
  b_row : Z;
  b_col : Z;
  b_dir : Direction;
  b_score : Z
}.

Definition better (chk : option Check) (best : option Best) : bool :=
  match chk with
  | None => false
  | Some k =>
      match best with
      | None => true
      | Some b => score k >? b_score b
      end
  end.

(** One pass of the inner loop body: the existing cell [(gr, gc)] holds the
    letter at position [i] of the answer. *)
Definition tryCell (a : string) (i gr gc : Z) (best : option Best)
    : M (option Best) :=
  chkA <- canPlace a gr (gc - i) across ;;
  let best1 := if better chkA best
               then match chkA with
                    | Some k => Some (mkBest gr (gc - i) across (score k))
                    | None => best
                    end
               else best in
  chkD <- canPlace a (gr - i) gc down ;;
  ret (if better chkD best1
       then match chkD with
            | Some k => Some (mkBest (gr - i) gc down (score k))
            | None => best1
            end
       else best1).

Fixpoint cellsLoop (a : string) (i : Z) (ch : ascii)
    (cells : list (Coord * ascii)) (best : option Best) : M (option Best) :=
  match cells with
  | [] => ret best
  | ((gr, gc), cellCh) :: rest =>
      if negb (Ascii.eqb cellCh ch) then cellsLoop a i ch rest best
      else
        best' <- tryCell a i gr gc best ;;
        cellsLoop a i ch rest best'
  end.

Fixpoint charsLoop (a : string) (chars : list ascii) (i : Z)
    (cells : list (Coord * ascii)) (best : option Best) : M (option Best) :=
  match chars with
  | [] => ret best
  | ch :: rest =>
      best' <- cellsLoop a i ch cells best ;;
      charsLoop a rest (i + 1) cells best'
  end.

Definition bestPlacement (a : string) : M (option Best) :=
  s <- readState ;;
  let existingCells := grid s in
  if (List.length existingCells =? 0)%nat then ret None
  else charsLoop a (letters a) 0 existingCells None.

(** ** [buildGrid] *)

Record OrderItem : Type := mkItem { idx : nat; len : Z }.

Fixpoint indexed (n : nat) (es : list Entry) : list OrderItem :=
  match es with
  | [] => []
  | e :: rest => mkItem n (strlen (answer e)) :: indexed (S n) rest
  end.

(** [Array.prototype.sort] is stable; with the comparator
    [(a, b) => b.len - a.len] it orders by length, longest first, and keeps
    the input order among equal lengths.  Insertion from the right computes
    that unique result. *)
Fixpoint insertItem (x : OrderItem) (l : list OrderItem) : list OrderItem :=
  match l with
  | [] => [x]
  | y :: rest =>
      if len y - len x <=? 0 then x :: y :: rest
      else y :: insertItem x rest
  end.

Definition sortOrder (l : list OrderItem) : list OrderItem :=
  fold_right insertItem [] l.

Definition answerAt (entries : list Entry) (i : nat) : M string :=
  match nth_error entries i with
  | Some e => ret (answer e)
  | None => throw TypeError
  end.

Definition placeItem (entries : list Entry) (item : OrderItem) : M unit :=
  a <- answerAt entries (idx item) ;;
  placement <- bestPlacement a ;;
  match placement with
  | Some p => placeWordAt (idx item) a (b_row p) (b_col p) (b_dir p)
  | None =>
      s <- readState ;;
      let tryRow := maxRow s + 2 in
      let tryCol := minCol s in
      placeWordAt (idx item) a tryRow tryCol across
  end.

Fixpoint forEach {A} (f : A -> M unit) (l : list A) : M unit :=
  match l with
  | [] => ret tt
  | x :: rest => f x ;;; forEach f rest
  end.

(** The body of [buildGrid] once [order] is known. *)
Definition buildGridFrom (entries : list Entry) (order : list OrderItem)
    : Result GridState :=
  match order with
  | [] => inl TypeError
  | first :: rest =>
      match (a <- answerAt entries (idx first) ;;
             placeWordAt (idx first) a 0 0 across ;;;
             forEach (placeItem entries) rest) initState with
      | inl e => inl e
      | inr (_, s) => inr s
      end
  end.

Definition buildGrid (entries : list Entry) : Result GridState :=
  buildGridFrom entries (sortOrder (indexed 0 entries)).

(** ** [buildJson] *)

Record Cell : Type := mkCell {
  c_row : Z;
  c_col : Z;
  solution : option ascii;
  isBlock : bool;
  number : option Z
}.

Record Clue : Type := mkClue {
  cl_number : Z;
  text : string;
  cells : list Coord
}.

Record Puzzle : Type := mkPuzzle {
  title : string;
  rows : Z;
  cols : Z;
  pgrid : list (list Cell);
  cluesAcross : list Clue;
  cluesDown : list Clue
}.

Record Mapped : Type := mkMapped {
  m_index : nat;
  m_entry : option Entry   (* [entries[p.index]], possibly [undefined] *)
}.

Record ScanState : Type := mkScan {
  clueNumber : Z;
  numbered : list (Coord * Z);
  acrossClues : list Clue;
  downClues : list Clue;
  usedEntries : list nat;
  gridJson : list (list Cell)
}.

Definition bindR {A B} (m : Result A) (f : A -> Result B) : Result B :=
  match m with
  | inl e => inl e
  | inr a => f a
  end.

Declare Scope r_scope.
Delimit Scope r_scope with R.
Notation "x <- m ;; k" := (bindR m (fun x => k))
  (at level 61, m at next level, right associativity) : r_scope.

(** [for (let i = 0; i < n; i++)]: the values taken by [i]. *)
Definition zrange (n : Z) : list Z := map Z.of_nat (seq 0 (Z.to_nat n)).

Fixpoint forEachR {A S} (f : A -> S -> Result S) (l : list A) (s : S)
    : Result S :=
  match l with
  | [] => inr s
  | x :: rest =>
      match f x s with
      | inl e => inl e
      | inr s' => forEachR f rest s'
      end
  end.

Definition normalize (mnR mnC : Z) (g : list (Coord * ascii))
    : list (Coord * ascii) :=
  fold_left
    (fun m kv => JsMap.set Coord_eqb (fst (fst kv) - mnR, snd (fst kv) - mnC)
                   (snd kv) m)
    g [].

Definition denseCell (letterAt : list (Coord * ascii)) (r c : Z) : Cell :=
  match JsMap.get Coord_eqb (r, c) letterAt with
  | Some ch => mkCell r c (Some ch) false None
  | None => mkCell r c None true None
  end.

Definition denseGrid (letterAt : list (Coord * ascii)) (nrows ncols : Z)
    : list (list Cell) :=
  map (fun r => map (fun c => denseCell letterAt r c) (zrange ncols))
      (zrange nrows).

Fixpoint indexPlacements (entries : list Entry) (mnR mnC : Z)
    (ps : list Placed) (m : list (StartKey * Mapped))
    : Result (list (StartKey * Mapped)) :=
  match ps with
  | [] => inr m
  | p :: rest =>
      let k := (row p - mnR, col p - mnC, dir p) in
      if JsMap.has StartKey_eqb k m then inl (DuplicateStart k)
      else indexPlacements entries mnR mnC rest
             (JsMap.set StartKey_eqb k
                (mkMapped (index p) (nth_error entries (index p))) m)
  end.

(** [a[i] = f(a[i])] on a list; [None] when [a[i]] is [undefined]. *)
Fixpoint updateNth {A} (n : nat) (f : A -> A) (l : list A) : option (list A) :=
  match l, n with
  | [], _ => None
  | x :: rest, O => Some (f x :: rest)
  | x :: rest, S n' =>
      match updateNth n' f rest with
      | Some rest' => Some (x :: rest')
      | None => None
      end
  end.

Definition setNumber (r c : Z) (num : Z) (g : list (list Cell))
    : option (list (list Cell)) :=
  if (r <? 0) || (c <? 0) then None else
  match nth_error g (Z.to_nat r) with
  | None => None
  | Some rowArr =>
      match updateNth (Z.to_nat c)
              (fun x => mkCell (c_row x) (c_col x) (solution x) (isBlock x)
                          (Some num)) rowArr with
      | None => None
      | Some rowArr' => updateNth (Z.to_nat r) (fun _ => rowArr') g
      end
  end.

Section Compile.
Variable letterAt : list (Coord * ascii).
Variables nrows ncols : Z.
Variable startToEntry : list (StartKey * Mapped).

Definition hasLetter (r c : Z) : bool :=
  JsMap.has Coord_eqb (r, c) letterAt.

Definition assignNumber (r c : Z) (s : ScanState) : Result (Z * ScanState) :=
  match JsMap.get Coord_eqb (r, c) (numbered s) with
  | Some n => inr (n, s)
  | None =>
      let num := clueNumber s in
      match setNumber r c num (gridJson s) with
      | None => inl TypeError
      | Some g =>
          inr (num,
               mkScan (num + 1)
                      (JsMap.set Coord_eqb (r, c) num (numbered s))
                      (acrossClues s) (downClues s) (usedEntries s) g)
      end
  end.

Definition inRun (rr cc : Z) : bool :=
  (rr >=? 0) && (cc >=? 0) && (rr <? nrows) && (cc <? ncols)
  && hasLetter rr cc.

(** The [while] loop of [takeRun].  Each turn moves one step towards the
    far edge of the grid, so the distance to that edge bounds the number
    of turns. *)
Fixpoint takeRunLoop (fuel : nat) (rr cc : Z) (d : Direction) : list Coord :=
  match fuel with
  | O => []
  | S fuel' =>
      if inRun rr cc
      then (rr, cc) :: match d with
                       | across => takeRunLoop fuel' rr (cc + 1) d
                       | down => takeRunLoop fuel' (rr + 1) cc d
                       end
      else []
  end.

Definition takeRun (r c : Z) (d : Direction) : list Coord :=
  takeRunLoop (Z.to_nat (match d with
                         | across => ncols - c
                         | down => nrows - r
                         end)) r c d.

Definition pushClue (d : Direction) (cl : Clue) (used : list nat)
    (s : ScanState) : ScanState :=
  match d with
  | across =>
      mkScan (clueNumber s) (numbered s) (acrossClues s ++ [cl])
             (downClues s) used (gridJson s)
  | down =>
      mkScan (clueNumber s) (numbered s) (acrossClues s)
             (downClues s ++ [cl]) used (gridJson s)
  end.

Definition emitClue (r c : Z) (d : Direction) (num : Z) (s : ScanState)
    : Result ScanState :=
  let run := takeRun r c d in
  match JsMap.get StartKey_eqb (r, c, d) startToEntry with
  | None => inl (MissingEntry (r, c, d))
  | Some mapped =>
      let used := JsSet.add (m_index mapped) (usedEntries s) in
      match m_entry mapped with
      | None => inl TypeError
      | Some e => inr (pushClue d (mkClue num (clue e) run) used s)
      end
  end.

Definition startsAcross (r c : Z) : bool :=
  negb (hasLetter r (c - 1)) && hasLetter r (c + 1).

Definition startsDown (r c : Z) : bool :=
  negb (hasLetter (r - 1) c) && hasLetter (r + 1) c.

Definition scanCell (r c : Z) (s : ScanState) : Result ScanState :=
  if negb (hasLetter r c) then inr s else
  if negb (startsAcross r c) && negb (startsDown r c) then inr s else
  (ns <- assignNumber r c s ;;
   s2 <- (if startsAcross r c
          then emitClue r c across (fst ns) (snd ns)
          else inr (snd ns)) ;;
   if startsDown r c then emitClue r c down (fst ns) s2 else inr s2)%R.

Definition scan (s : ScanState) : Result ScanState :=
  forEachR (fun r => forEachR (scanCell r) (zrange ncols)) (zrange nrows) s.
End Compile.

Definition rawOrAnswer (e : Entry) : string :=
  match rawAnswer e with
  | Some (String ch rest) => String ch rest
  | _ => answer e
  end.

Fixpoint missingFrom (used : list nat) (i : nat) (es : list Entry)
    : list string :=
  match es with
  | [] => []
  | e :: rest =>
      if negb (JsSet.has i used)
      then rawOrAnswer e :: missingFrom used (S i) rest
      else missingFrom used (S i) rest
  end.

Definition buildJson (entries : list Entry) (gi : GridState) : Result Puzzle :=
  let nrows := maxRow gi - minRow gi + 1 in
  let ncols := maxCol gi - minCol gi + 1 in
  let letterAt := normalize (minRow gi) (minCol gi) (grid gi) in
  let gridJson0 := denseGrid letterAt nrows ncols in
  (startToEntry <- indexPlacements entries (minRow gi) (minCol gi)
                     (placed gi) [] ;;
   s <- scan letterAt nrows ncols startToEntry
          (mkScan 1 [] [] [] [] gridJson0) ;;
   if negb (List.length (usedEntries s) =? List.length entries)%nat
   then inl (NotAllUsed (missingFrom (usedEntries s) 0 entries))
   else inr (mkPuzzle "Oscars Crossword" nrows ncols (gridJson s)
               (acrossClues s) (downClues s)))%R.

(** [main] after [readCsv]: place every entry, then compile. *)
Definition build (entries : list Entry) : Result Puzzle :=
  (gi <- buildGrid entries ;; buildJson entries gi)%R.

(** ** [main]

    What a run of the script ends in, once [readCsv] has returned the
    entries: the exit with status 1, an uncaught exception of the two
    stages, an uncaught exception of [fs.writeFileSync], or the puzzle
    written to the output file.  Whether the write returns is the file
    system's affair: [writeFileSync] says, for the puzzle it is given,
    whether the call returns ([true]) or throws ([false]). *)
Inductive Outcome : Type :=
| Exit1
    (* "No entries parsed from CSV." *)
| Thrown (e : BuildError)
| WriteThrew (puzzle : Puzzle)
    (* the error [fs.writeFileSync] threw, uncaught *)
| Wrote (puzzle : Puzzle).

Definition main (writeFileSync : Puzzle -> bool) (entries : list Entry)
    : Outcome :=
  if (List.length entries =? 0)%nat then Exit1
  else
    match buildGrid entries with
    | inl e => Thrown e
    | inr gridInfo =>
        match buildJson entries gridInfo with
        | inl e => Thrown e
        | inr puzzle =>
            if writeFileSync puzzle then Wrote puzzle else WriteThrew puzzle
        end
    end.


(** ** The string keys

    The maps of the source are keyed by strings.  [numberToString] is the
    string JavaScript gives an integer that it holds exactly and prints in
    full, as the coordinates of a grid are: its decimal digits, after a minus
    sign when it is negative. *)
Definition numberToString (z : Z) : string :=
  NilZero.string_of_int (Z.to_int z).

Definition key (r c : Z) : string :=
  ((numberToString r ++ ",") ++ numberToString c)%string.

Definition dirName (d : Direction) : string :=
  match d with
  | across => "across"
  | down => "down"
  end.

Definition startKey (r c : Z) (d : Direction) : string :=
  ((((numberToString r ++ ",") ++ numberToString c) ++ ",")
   ++ dirName d)%string.

(** ** The player: [findClueForCell] of [app.js]

    [puzzle] is [null] until a puzzle is loaded. *)
Definition findClueForCell (puzzle : option Puzzle) (row col : Z)
    (direction : Direction) : option Clue :=
  match puzzle with
  | None => None
  | Some pz =>
      let list := match direction with
                  | across => cluesAcross pz
                  | down => cluesDown pz
                  end in
      find (fun clue =>
              existsb (fun p => (fst p =? row) && (snd p =? col)) (cells clue))
           list
  end.


(** ** The earlier builder kept in [app.js]

    [app.js] carries an earlier version of the build script.  Its [buildGrid]
    takes the entries in input order, checks a placement only for letters that
    disagree, and places below the grid what crosses nothing. *)
Module AppJs.

Inductive Error : Type :=
| Conflict
    (* "Conflict in forced placement" *)
| TypeErr
    (* a property read on [undefined] *).

(** The first loop of [placeWordAt]: does a cell hold another letter? *)
Fixpoint conflictLoop (g : list (Coord * ascii)) (d : Direction) (row col : Z)
    (chars : list ascii) (i : Z) : bool :=
  match chars with
  | [] => false
  | ch :: rest =>
      let r := fst (cellOf d row col i) in
      let c := snd (cellOf d row col i) in
      match gridGet g r c with
      | Some existing =>
          if negb (Ascii.eqb existing ch) then true
          else conflictLoop g d row col rest (i + 1)
      | None => conflictLoop g d row col rest (i + 1)
      end
  end.

Definition setCell (r c : Z) (ch : ascii) (s : GridState) : GridState :=
  let g := JsMap.set Coord_eqb (r, c) ch (grid s) in
  let mnR := if r <? minRow s then r else minRow s in
  let mxR := if r >? maxRow s then r else maxRow s in
  let mnC := if c <? minCol s then c else minCol s in
  let mxC := if c >? maxCol s then c else maxCol s in
  mkState g (placed s) mnR mxR mnC mxC.

(** The second loop of [placeWordAt]. *)
Fixpoint writeLoop (d : Direction) (row col : Z) (chars : list ascii) (i : Z)
    (s : GridState) : GridState :=
  match chars with
  | [] => s
  | ch :: rest =>
      let r := fst (cellOf d row col i) in
      let c := snd (cellOf d row col i) in
      writeLoop d row col rest (i + 1) (setCell r c ch s)
  end.

Definition placeWordAt (idx : nat) (a : string) (row col : Z) (d : Direction)
    (s : GridState) : Error + GridState :=
  if conflictLoop (grid s) d row col (letters a) 0 then inl Conflict
  else
    let s1 := writeLoop d row col (letters a) 0 s in
    inr (mkState (grid s1) (placed s1 ++ [mkPlaced idx row col d a])
           (minRow s1) (maxRow s1) (minCol s1) (maxCol s1)).

(** The loop over [j] that looks for a conflict and counts the touches;
    [None] is the [break] on a conflict. *)
Fixpoint touchLoop (g : list (Coord * ascii)) (d : Direction) (row col : Z)
    (chars : list ascii) (j touches : Z) : option Z :=
  match chars with
  | [] => Some touches
  | ch :: rest =>
      let r := fst (cellOf d row col j) in
      let c := snd (cellOf d row col j) in
      match gridGet g r c with
      | Some existing =>
          if negb (Ascii.eqb existing ch) then None
          else touchLoop g d row col rest (j + 1) (touches + 1)
      | None => touchLoop g d row col rest (j + 1) touches
      end
  end.

(** The loop over [j] that widens the bounds. *)
Fixpoint boundsLoop (d : Direction) (row col : Z) (chars : list ascii) (j : Z)
    (b : Bounds) : Bounds :=
  match chars with
  | [] => b
  | _ :: rest =>
      let r := fst (cellOf d row col j) in
      let c := snd (cellOf d row col j) in
      boundsLoop d row col rest (j + 1) (widen b r c)
  end.

(** The body of the loop over [dirs]. *)
Definition tryDir (s : GridState) (a : string) (i gr gc : Z)
    (best : option Best) (d : Direction) : option Best :=
  let row := match d with across => gr | down => gr - i end in
  let col := match d with across => gc - i | down => gc end in
  match touchLoop (grid s) d row col (letters a) 0 0 with
  | None => best
  | Some touches =>
      if touches =? 0 then best
      else
        let b := boundsLoop d row col (letters a) 0
                   (mkBounds (minRow s) (maxRow s) (minCol s) (maxCol s)) in
        let height := newMaxRow b - newMinRow b + 1 in
        let width := newMaxCol b - newMinCol b + 1 in
        let area := height * width in
        let score := touches * 1000 - area in
        match best with
        | None => Some (mkBest row col d score)
        | Some b0 =>
            if score >? b_score b0 then Some (mkBest row col d score)
            else best
        end
  end.

Definition dirsOf (preferDir : Direction) : list Direction :=
  match preferDir with
  | down => [down; across]
  | across => [across; down]
  end.

Fixpoint cellsLoop (s : GridState) (a : string) (preferDir : Direction)
    (i : Z) (ch : ascii) (existingCells : list (Coord * ascii))
    (best : option Best) : option Best :=
  match existingCells with
  | [] => best
  | ((gr, gc), cellCh) :: rest =>
      if negb (Ascii.eqb cellCh ch)
      then cellsLoop s a preferDir i ch rest best
      else cellsLoop s a preferDir i ch rest
             (fold_left (tryDir s a i gr gc) (dirsOf preferDir) best)
  end.

Fixpoint charsLoop (s : GridState) (a : string) (preferDir : Direction)
    (chars : list ascii) (i : Z) (best : option Best) : option Best :=
  match chars with
  | [] => best
  | ch :: rest =>
      charsLoop s a preferDir rest (i + 1)
        (cellsLoop s a preferDir i ch (grid s) best)
  end.

Definition findPlacement (s : GridState) (a : string) (preferDir : Direction)
    : option Best :=
  if (List.length (grid s) =? 0)%nat then None
  else charsLoop s a preferDir (letters a) 0 None.

(** The callback of [entries.forEach]. *)
Definition placeEntry (idx : nat) (entry : Entry) (s : GridState)
    : Error + GridState :=
  let a := answer entry in
  if (idx =? 0)%nat then placeWordAt idx a 0 0 across s
  else
    let preferDir := if (idx mod 2 =? 0)%nat then down else across in
    match findPlacement s a preferDir with
    | Some p => placeWordAt idx a (b_row p) (b_col p) (b_dir p) s
    | None => placeWordAt idx a (maxRow s + 2) 0 across s
    end.

Fixpoint forEachFrom (idx : nat) (entries : list Entry) (s : GridState)
    : Error + GridState :=
  match entries with
  | [] => inr s
  | e :: rest =>
      match placeEntry idx e s with
      | inl err => inl err
      | inr s' => forEachFrom (S idx) rest s'
      end
  end.

Definition buildGrid (entries : list Entry) : Error + GridState :=
  forEachFrom 0 entries initState.

(** The variables of the earlier [buildJson] that its loop over the
    placements updates. *)
Record Scan : Type := mkScan {
  clueNumber : Z;
  cellNumber : list (Coord * Z);
  acrossClues : list Clue;
  downClues : list Clue;
  gridJson : list (list Cell)
}.

Definition assignNumber (r c : Z) (s : Scan) : Error + (Z * Scan) :=
  match JsMap.get Coord_eqb (r, c) (cellNumber s) with
  | Some n => inr (n, s)
  | None =>
      let num := clueNumber s in
      match setNumber r c num (gridJson s) with
      | None => inl TypeErr
      | Some g =>
          inr (num,
               mkScan (num + 1)
                      (JsMap.set Coord_eqb (r, c) num (cellNumber s))
                      (acrossClues s) (downClues s) g)
      end
  end.

(** Does a letter sit just before the start [(sr, sc)] of the word? *)
Definition notAStart (letterAt : list (Coord * ascii)) (d : Direction)
    (sr sc : Z) : bool :=
  match d with
  | across => (sc - 1 >=? 0) && JsMap.has Coord_eqb (sr, sc - 1) letterAt
  | down => (sr - 1 >=? 0) && JsMap.has Coord_eqb (sr - 1, sc) letterAt
  end.

Definition pushClue (d : Direction) (cl : Clue) (s : Scan) : Scan :=
  match d with
  | across =>
      mkScan (clueNumber s) (cellNumber s) (acrossClues s ++ [cl])
             (downClues s) (gridJson s)
  | down =>
      mkScan (clueNumber s) (cellNumber s) (acrossClues s)
             (downClues s ++ [cl]) (gridJson s)
  end.

(** The body of the loop over [placed]. *)
Definition clueOf (entries : list Entry) (letterAt : list (Coord * ascii))
    (mnR mnC : Z) (p : Placed) (s : Scan) : Error + Scan :=
  let entry := nth_error entries (index p) in
  let sr := row p - mnR in
  let sc := col p - mnC in
  if notAStart letterAt (dir p) sr sc then inr s
  else
    match assignNumber sr sc s with
    | inl err => inl err
    | inr (num, s1) =>
        let cells := map (cellOf (dir p) sr sc) (zrange (strlen (p_answer p))) in
        match entry with
        | None => inl TypeErr
        | Some e => inr (pushClue (dir p) (mkClue num (clue e) cells) s1)
        end
    end.

Fixpoint cluesLoop (entries : list Entry) (letterAt : list (Coord * ascii))
    (mnR mnC : Z) (ps : list Placed) (s : Scan) : Error + Scan :=
  match ps with
  | [] => inr s
  | p :: rest =>
      match clueOf entries letterAt mnR mnC p s with
      | inl err => inl err
      | inr s' => cluesLoop entries letterAt mnR mnC rest s'
      end
  end.

(** The earlier [buildJson].  The map [placedByStart] it fills is never
    read, and filling it cannot fail; it is left out. *)
Definition buildJson (entries : list Entry) (gi : GridState)
    : Error + Puzzle :=
  let nrows := maxRow gi - minRow gi + 1 in
  let ncols := maxCol gi - minCol gi + 1 in
  let letterAt := normalize (minRow gi) (minCol gi) (grid gi) in
  let gridJson0 := denseGrid letterAt nrows ncols in
  match cluesLoop entries letterAt (minRow gi) (minCol gi) (placed gi)
          (mkScan 1 [] [] [] gridJson0) with
  | inl err => inl err
  | inr s =>
      inr (mkPuzzle "Oscars Crossword" nrows ncols (gridJson s)
             (acrossClues s) (downClues s))
  end.

Definition build (entries : list Entry) : Error + Puzzle :=
  match buildGrid entries with
  | inl err => inl err
  | inr gi => buildJson entries gi
  end.

End AppJs.

(** * Specification-level definitions *)

(** ** Reading [canPlace] without the monad

    [canPlace] only reads the closure's variables.  [loopPure] and
    [canPlacePure] compute its result from a given state; [canPlace_run]
    below shows that the monadic function returns that result and hands the
    state back untouched. *)

Fixpoint loopPure (g : list (Coord * ascii)) (d : Direction) (row col : Z)
    (chars : list ascii) (i inter : Z) (b : Bounds) : option (Z * Bounds) :=
  match chars with
  | [] => Some (inter, b)
  | ch :: rest =>
      let r := fst (cellOf d row col i) in
      let c := snd (cellOf d row col i) in
      match gridGet g r c with
      | Some e =>
          if negb (Ascii.eqb e ch) then None
          else loopPure g d row col rest (i + 1) (inter + 1) (widen b r c)
      | None =>
          let side :=
            match d with
            | across => gridHas g (r - 1) c || gridHas g (r + 1) c
            | down => gridHas g r (c - 1) || gridHas g r (c + 1)
            end in
          if side then None
          else loopPure g d row col rest (i + 1) inter (widen b r c)
      end
  end.

Definition stateBounds (s : GridState) : Bounds :=
  mkBounds (minRow s) (maxRow s) (minCol s) (maxCol s).

Definition canPlacePure (s : GridState) (a : string) (row col : Z)
    (d : Direction) : option Check :=
  let g := grid s in
  let before := match d with
                | across => gridHas g row (col - 1)
                | down => gridHas g (row - 1) col
                end in
  let after := match d with
               | across => gridHas g row (col + strlen a)
               | down => gridHas g (row + strlen a) col
               end in
  if before then None else
  if after then None else
  match loopPure g d row col (letters a) 0 0 (stateBounds s) with
  | None => None
  | Some (inter, b) =>
      if (Z.of_nat (List.length g) >? 0) && (inter =? 0) then None
      else Some (mkCheck inter (scoreOf inter b) b)
  end.

(** ** The rejection conditions of [canPlace], as the specification words
    them *)

Definition occupied (g : list (Coord * ascii)) (rc : Coord) : Prop :=
  gridHas g (fst rc) (snd rc) = true.

Definition letterAtCoord (g : list (Coord * ascii)) (rc : Coord)
    : option ascii :=
  gridGet g (fst rc) (snd rc).

(** The two neighbours of a cell across the placement axis. *)
Definition sideCells (d : Direction) (rc : Coord) : Coord * Coord :=
  match d with
  | across => ((fst rc - 1, snd rc), (fst rc + 1, snd rc))
  | down => ((fst rc, snd rc - 1), (fst rc, snd rc + 1))
  end.

Definition endTouch (g : list (Coord * ascii)) (a : string) (row col : Z)
    (d : Direction) : Prop :=
  occupied g (cellOf d row col (-1)) \/ occupied g (cellOf d row col (strlen a)).

Definition letterConflict (g : list (Coord * ascii)) (a : string)
    (row col : Z) (d : Direction) : Prop :=
  exists (i : nat) (ch e : ascii),
    nth_error (letters a) i = Some ch /\
    letterAtCoord g (cellOf d row col (Z.of_nat i)) = Some e /\
    e <> ch.

Definition sideTouch (g : list (Coord * ascii)) (a : string) (row col : Z)
    (d : Direction) : Prop :=
  exists (i : nat) (ch : ascii),
    nth_error (letters a) i = Some ch /\
    letterAtCoord g (cellOf d row col (Z.of_nat i)) = None /\
    (occupied g (fst (sideCells d (cellOf d row col (Z.of_nat i)))) \/
     occupied g (snd (sideCells d (cellOf d row col (Z.of_nat i))))).

Definition noIntersection (g : list (Coord * ascii)) (a : string)
    (row col : Z) (d : Direction) : Prop :=
  forall (i : nat) (ch : ascii),
    nth_error (letters a) i = Some ch ->
    letterAtCoord g (cellOf d row col (Z.of_nat i)) <> Some ch.

Definition rejected (s : GridState) (a : string) (row col : Z)
    (d : Direction) : Prop :=
  endTouch (grid s) a row col d \/
  letterConflict (grid s) a row col d \/
  sideTouch (grid s) a row col d \/
  (grid s <> [] /\ noIntersection (grid s) a row col d).

(** ** The score, as the specification words it *)

(** The cells a placement covers, in order. *)
Definition placementCells (a : string) (row col : Z) (d : Direction)
    : list Coord :=
  map (cellOf d row col) (zrange (strlen a)).

(** The bounding box after the cells [cs] join the box [b]. *)
Definition spec_box (b : Bounds) (cs : list Coord) : Bounds :=
  mkBounds (fold_left Z.min (map fst cs) (newMinRow b))
           (fold_left Z.max (map fst cs) (newMaxRow b))
           (fold_left Z.min (map snd cs) (newMinCol b))
           (fold_left Z.max (map snd cs) (newMaxCol b)).

(** The number of cells of [cs] that already hold a letter. *)
Definition spec_intersections (g : list (Coord * ascii)) (cs : list Coord)
    : Z :=
  Z.of_nat (List.length
              (filter (fun rc => gridHas g (fst rc) (snd rc)) cs)).

Definition spec_score (inter : Z) (b : Bounds) : Z :=
  let width := newMaxCol b - newMinCol b + 1 in
  let height := newMaxRow b - newMinRow b + 1 in
  let area := width * height in
  inter * 1000 - area - Z.abs (width - height) * 5.

(** A cell the loop of [canPlace] accepts for the letter [ch]: it holds
    [ch] already, or it is empty with both side neighbours empty. *)
Definition cellFine (g : list (Coord * ascii)) (d : Direction) (rc : Coord)
    (ch : ascii) : Prop :=
  match letterAtCoord g rc with
  | Some e => e = ch
  | None => ~ occupied g (fst (sideCells d rc)) /\
            ~ occupied g (snd (sideCells d rc))
  end.

(** The cells of positions [i], [i + 1], ... ([n] of them). *)
Definition cellsFrom (d : Direction) (row col i : Z) (n : nat) : list Coord :=
  map (fun j => cellOf d row col (i + Z.of_nat j)) (seq 0 n).

(** The grid after the letters [chars] are written at positions [i], ... *)
Fixpoint writeCells (d : Direction) (row col : Z) (chars : list ascii) (i : Z)
    (g : list (Coord * ascii)) : list (Coord * ascii) :=
  match chars with
  | [] => g
  | ch :: rest =>
      writeCells d row col rest (i + 1)
        (JsMap.set Coord_eqb (cellOf d row col i) ch g)
  end.

(** ** Invariants of the placement loop *)

Definition wordCell (p : Placed) (i : Z) : Coord :=
  cellOf (dir p) (row p) (col p) i.

Definition startOf (p : Placed) : StartKey := (row p, col p, dir p).

(** Every letter of the placed word is in the grid, at its cell. *)
Definition lettersInGrid (g : list (Coord * ascii)) (p : Placed) : Prop :=
  forall j ch, nth_error (letters (p_answer p)) j = Some ch ->
               letterAtCoord g (wordCell p (Z.of_nat j)) = Some ch.

(** The cells just before and just after a placed word hold no letter. *)
Definition endsFree (g : list (Coord * ascii)) (p : Placed) : Prop :=
  0 < strlen (p_answer p) ->
  ~ occupied g (wordCell p (-1)) /\
  ~ occupied g (wordCell p (strlen (p_answer p))).

(** The bounds contain the origin and every letter of the grid. *)
Definition inBounds (s : GridState) : Prop :=
  minRow s <= 0 <= maxRow s /\ minCol s <= 0 <= maxCol s /\
  forall rc ch, In (rc, ch) (grid s) ->
                minRow s <= fst rc <= maxRow s /\
                minCol s <= snd rc <= maxCol s.

(** A placement records the answer of the entry it was made for. *)
Definition fromEntry (entries : list Entry) (p : Placed) : Prop :=
  exists e, nth_error entries (index p) = Some e /\ p_answer p = answer e.

(** Two placements at one start and direction carry the same answer. *)
Definition sameStartSameAnswer (ps : list Placed) : Prop :=
  forall p q, In p ps -> In q ps ->
              startOf p = startOf q -> p_answer p = p_answer q.

Record GridInv (entries : list Entry) (s : GridState) : Prop := mkGridInv {
  inv_letters : Forall (lettersInGrid (grid s)) (placed s);
  inv_ends : Forall (endsFree (grid s)) (placed s);
  inv_bounds : inBounds s;
  inv_entries : Forall (fromEntry entries) (placed s);
  inv_starts : sameStartSameAnswer (placed s);
  inv_keys : NoDup (map fst (grid s));
  inv_nonempty : grid s <> [] ->
                 Forall (fun p => 0 < strlen (p_answer p)) (placed s)
}.

(** What [placeWordAt] has checked before it writes: the ends are free and
    every position is fine.  It holds of every placement [canPlace] accepts
    and of any placement on an empty grid. *)
Definition Accepted (g : list (Coord * ascii)) (a : string) (row col : Z)
    (d : Direction) : Prop :=
  ~ occupied g (cellOf d row col (-1)) /\
  ~ occupied g (cellOf d row col (strlen a)) /\
  forall j ch, nth_error (letters a) j = Some ch ->
               cellFine g d (cellOf d row col (Z.of_nat j)) ch.

(** An item of [order] names an entry and records the length of its
    answer. *)
Definition itemOK (entries : list Entry) (it : OrderItem) : Prop :=
  exists e, nth_error entries (idx it) = Some e /\ len it = strlen (answer e).

(** Longest first. *)
Definition lenDesc (x y : OrderItem) : Prop := len y <= len x.

(** The key under which [buildJson] indexes a placement. *)
Definition normKey (mnR mnC : Z) (p : Placed) : StartKey :=
  (row p - mnR, col p - mnC, dir p).

Definition mappedOf (entries : list Entry) (p : Placed) : Mapped :=
  mkMapped (index p) (nth_error entries (index p)).

(** ** Reading the compiled puzzle *)

(** The first cell of a clue; with its direction, the key under which the
    clue's entry was indexed. *)
Definition clueStart (cl : Clue) : Coord := hd (0, 0) (cells cl).

(** The index of the entry a clue was emitted for. *)
Definition clueRef (ste : list (StartKey * Mapped)) (d : Direction)
    (cl : Clue) : option nat :=
  option_map m_index (JsMap.get StartKey_eqb (clueStart cl, d) ste).

Definition cluesOf (d : Direction) (s : ScanState) : list Clue :=
  match d with
  | across => acrossClues s
  | down => downClues s
  end.

Definition puzzleClues (d : Direction) (pz : Puzzle) : list Clue :=
  match d with
  | across => cluesAcross pz
  | down => cluesDown pz
  end.

(** [grid[r][c].solution], when there is such a cell and it has one. *)
Definition solutionAt (g : list (list Cell)) (rc : Coord) : option ascii :=
  match nth_error g (Z.to_nat (fst rc)) with
  | Some rowArr =>
      match nth_error rowArr (Z.to_nat (snd rc)) with
      | Some cell => solution cell
      | None => None
      end
  | None => None
  end.

Definition startsIn (letterAt : list (Coord * ascii)) (d : Direction)
    (r c : Z) : bool :=
  match d with
  | across => startsAcross letterAt r c
  | down => startsDown letterAt r c
  end.

(** Row-major order of the scan: [rc] comes before [(r, c)]. *)
Definition before (rc : Coord) (r c : Z) : Prop :=
  fst rc < r \/ (fst rc = r /\ snd rc < c).

(** What the scan guarantees of each clue it has emitted. *)
Definition ClueOK (letterAt : list (Coord * ascii)) (nrows ncols : Z)
    (ste : list (StartKey * Mapped)) (used : list nat) (d : Direction)
    (cl : Clue) : Prop :=
  exists mp e,
    0 <= fst (clueStart cl) < nrows /\ 0 <= snd (clueStart cl) < ncols /\
    hasLetter letterAt (fst (clueStart cl)) (snd (clueStart cl)) = true /\
    startsIn letterAt d (fst (clueStart cl)) (snd (clueStart cl)) = true /\
    cells cl = takeRun letterAt nrows ncols
                 (fst (clueStart cl)) (snd (clueStart cl)) d /\
    JsMap.get StartKey_eqb (clueStart cl, d) ste = Some mp /\
    m_entry mp = Some e /\
    text cl = clue e /\
    In (m_index mp) used.

(** The clues of one direction were emitted in row-major order, each at a
    start of its own, all before [(r, c)]. *)
Definition PosL (r c : Z) (l : list Clue) : Prop :=
  NoDup (map clueStart l) /\
  Forall (fun cl => before (clueStart cl) r c) l.

Record ScanInv (letterAt : list (Coord * ascii)) (nrows ncols : Z)
    (ste : list (StartKey * Mapped)) (g0 : list (list Cell))
    (s : ScanState) : Prop := mkScanInv {
  si_clues : forall d, Forall (ClueOK letterAt nrows ncols ste (usedEntries s) d)
                         (cluesOf d s);
  si_used : forall i, In i (usedEntries s) ->
                      exists d cl, In cl (cluesOf d s) /\
                                   clueRef ste d cl = Some i;
  si_used_nodup : NoDup (usedEntries s);
  si_grid : forall rc, solutionAt (gridJson s) rc = solutionAt g0 rc
}.

(** The invariant of the scan when it reaches cell [(r, c)]. *)
Definition ScanAt (letterAt : list (Coord * ascii)) (nrows ncols : Z)
    (ste : list (StartKey * Mapped)) (g0 : list (list Cell))
    (r c : Z) (s : ScanState) : Prop :=
  ScanInv letterAt nrows ncols ste g0 s /\
  forall d, PosL r c (cluesOf d s).

(** Entry [i] is matched when some emitted clue was emitted for it. *)
Definition matched (ste : list (StartKey * Mapped)) (s : ScanState)
    (i : nat) : Prop :=
  exists d cl, In cl (cluesOf d s) /\ clueRef ste d cl = Some i.

(** The entry indices the clues refer to, across clues first. *)
Definition clueRefs (ste : list (StartKey * Mapped)) (acr dwn : list Clue)
    : list (option nat) :=
  map (clueRef ste across) acr ++ map (clueRef ste down) dwn.



(** The initial state of the scan in [buildJson]. *)
Definition scanStart (gi : GridState) : ScanState :=
  mkScan 1 [] [] [] []
    (denseGrid (normalize (minRow gi) (minCol gi) (grid gi))
       (maxRow gi - minRow gi + 1) (maxCol gi - minCol gi + 1)).

(** The scan of [buildJson] on the result of [buildGrid]. *)
Definition scanOf (gi : GridState) (ste : list (StartKey * Mapped))
    : Result ScanState :=
  scan (normalize (minRow gi) (minCol gi) (grid gi))
       (maxRow gi - minRow gi + 1) (maxCol gi - minCol gi + 1) ste
       (scanStart gi).

(** ** The sorted order

    The only step of the build whose result the code leaves to the engine is
    [Array.prototype.sort].  The language fixes its result: a permutation of
    the array, in the order of the comparator, equal elements keeping their
    input order.  [indexed] lists the items by ascending [idx], so among
    equal lengths input order is ascending [idx]. *)

Definition lexOrder (x y : OrderItem) : Prop :=
  len y < len x \/ (len y = len x /\ (idx x < idx y)%nat).

Definition JsSorted (entries : list Entry) (order : list OrderItem) : Prop :=
  Permutation order (indexed 0 entries) /\ StronglySorted lexOrder order.

(** ** Worked examples *)

(** The state once [CAT] is seeded across at the origin. *)
Definition afterCAT : GridState :=
  mkState [((0, 0), "C"%char); ((0, 1), "A"%char); ((0, 2), "T"%char)]
          [mkPlaced 0 0 0 across "CAT"] 0 0 0 2.

Definition catAce : list Entry :=
  [mkEntry "CAT" "Feline pet" None; mkEntry "ACE" "Top card" None].

Definition letterCell (r c : Z) (ch : ascii) (n : option Z) : Cell :=
  mkCell r c (Some ch) false n.

Definition blockCell (r c : Z) : Cell := mkCell r c None true None.

Definition catCat : list Entry :=
  [mkEntry "CAT" "Feline pet" None; mkEntry "CAT" "Tom, for one" None].

Definition catCatGrid : GridState :=
  mkState [((0, 0), "C"%char); ((0, 1), "A"%char); ((0, 2), "T"%char)]
          [mkPlaced 0 0 0 across "CAT"; mkPlaced 1 0 0 across "CAT"] 0 0 0 2.

Definition catAcePuzzle : Puzzle :=
  mkPuzzle "Oscars Crossword" 3 3
    [[letterCell 0 0 "C" (Some 1); letterCell 0 1 "A" (Some 2);
      letterCell 0 2 "T" None];
     [blockCell 1 0; letterCell 1 1 "C" None; blockCell 1 2];
     [blockCell 2 0; letterCell 2 1 "E" None; blockCell 2 2]]
    [mkClue 1 "Feline pet" [(0, 0); (0, 1); (0, 2)]]
    [mkClue 2 "Top card" [(0, 1); (1, 1); (2, 1)]].

Definition catAceGrid : GridState :=
  mkState
    [((0, 0), "C"%char); ((0, 1), "A"%char); ((0, 2), "T"%char);
     ((1, 1), "C"%char); ((2, 1), "E"%char)]
    [mkPlaced 0 0 0 across "CAT"; mkPlaced 1 0 1 down "ACE"]
    0 2 0 2.



(** [CAT] and the one-letter answer [A], entered raw as "a!". *)
Definition catA : list Entry :=
  [mkEntry "CAT" "Feline pet" None; mkEntry "A" "First letter" (Some "a!"%string)].




Definition catDog : list Entry :=
  [mkEntry "CAT" "Feline pet" None; mkEntry "DOG" "Canine pet" None].

Definition catC : list Entry :=
  [mkEntry "CAT" "Feline pet" None; mkEntry "C" "Third letter" None].

(** Every letter of the grid lies on a row no lower than [maxRow]. *)
Definition rowsBelowMax (s : GridState) : Prop :=
  forall rc ch, In (rc, ch) (grid s) -> fst rc <= maxRow s.

(** ** Further invariants of the placement loop *)

(** One step along a direction. *)
Definition stepCell (d : Direction) (rc : Coord) : Coord :=
  match d with
  | across => (fst rc, snd rc + 1)
  | down => (fst rc + 1, snd rc)
  end.

(** The placed word [p] has the letter [ch] at the cell [rc]. *)
Definition inWord (p : Placed) (rc : Coord) (ch : ascii) : Prop :=
  exists j, nth_error (letters (p_answer p)) j = Some ch /\
            wordCell p (Z.of_nat j) = rc.

(** The cell [rc] is one of the cells of the placed word [p]. *)
Definition covers (p : Placed) (rc : Coord) : Prop :=
  exists k, 0 <= k < strlen (p_answer p) /\ wordCell p k = rc.

(** Every letter of the grid was written by a placed word. *)
Definition gridCovered (s : GridState) : Prop :=
  forall rc ch, letterAtCoord (grid s) rc = Some ch ->
                exists p, In p (placed s) /\ inWord p rc ch.

(** Two letters next to each other along a direction lie in one word of
    that direction. *)
Definition adjacentJoined (s : GridState) : Prop :=
  forall d rc,
    occupied (grid s) rc -> occupied (grid s) (stepCell d rc) ->
    exists p, In p (placed s) /\ dir p = d /\
              covers p rc /\ covers p (stepCell d rc).

(** The bounds are those of an empty grid, or each is met by a letter and
    the origin holds one. *)
Definition boundsTight (s : GridState) : Prop :=
  (grid s = [] -> stateBounds s = mkBounds 0 0 0 0) /\
  (grid s <> [] ->
   occupied (grid s) (0, 0) /\
   (exists rc, occupied (grid s) rc /\ fst rc = minRow s) /\
   (exists rc, occupied (grid s) rc /\ fst rc = maxRow s) /\
   (exists rc, occupied (grid s) rc /\ snd rc = minCol s) /\
   (exists rc, occupied (grid s) rc /\ snd rc = maxCol s)).

Definition sharesCell (p q : Placed) : Prop :=
  exists rc, covers p rc /\ covers q rc.

(** Every placement but the first shares a cell with an earlier one. *)
Definition eachCrossesEarlier (ps : list Placed) : Prop :=
  forall i p, nth_error ps i = Some p -> (0 < i)%nat ->
              exists j q, (j < i)%nat /\ nth_error ps j = Some q /\
                          sharesCell p q.

Record GridInv2 (s : GridState) : Prop := mkGridInv2 {
  inv_covered : gridCovered s;
  inv_joined : adjacentJoined s;
  inv_tight : boundsTight s;
  inv_crossing : grid s <> [] -> eachCrossesEarlier (placed s);
  inv_seed : forall p, nth_error (placed s) 0 = Some p ->
                       startOf p = (0, 0, across)
}.

(** The order in which [buildGrid] places: longer answers first, and among
    equal lengths the entry that comes first in the input. *)
Definition placedBefore (p q : Placed) : Prop :=
  strlen (p_answer q) < strlen (p_answer p) \/
  (strlen (p_answer q) = strlen (p_answer p) /\ (index p < index q)%nat).

Definition itemOfPlaced (p : Placed) : OrderItem :=
  mkItem (index p) (strlen (p_answer p)).

(** ** The search of [bestPlacement], as a list of candidates

    [bestPlacement] tries, for each position [i] of the answer and each cell
    of the grid that holds the letter at [i], the across start and then the
    down start that put position [i] on that cell.  [candidates] lists
    these starts in the order of the two loops; [consider] is the update of
    [best] for one of them. *)

Definition cellCandidates (i : Z) (ch : ascii) (cells : list (Coord * ascii))
    : list StartKey :=
  flat_map
    (fun kv =>
       if Ascii.eqb (snd kv) ch
       then [(fst (fst kv), snd (fst kv) - i, across);
             (fst (fst kv) - i, snd (fst kv), down)]
       else [])
    cells.

Fixpoint candidatesFrom (chars : list ascii) (i : Z)
    (cells : list (Coord * ascii)) : list StartKey :=
  match chars with
  | [] => []
  | ch :: rest => cellCandidates i ch cells ++ candidatesFrom rest (i + 1) cells
  end.

Definition candidates (a : string) (g : list (Coord * ascii)) : list StartKey :=
  candidatesFrom (letters a) 0 g.

Definition checkAt (s : GridState) (a : string) (c : StartKey) : option Check :=
  canPlacePure s a (fst (fst c)) (snd (fst c)) (snd c).

Definition consider (s : GridState) (a : string) (best : option Best)
    (c : StartKey) : option Best :=
  if better (checkAt s a c) best
  then match checkAt s a c with
       | Some k => Some (mkBest (fst (fst c)) (snd (fst c)) (snd c) (score k))
       | None => best
       end
  else best.

Definition bestKey (b : Best) : StartKey := (b_row b, b_col b, b_dir b).

(** What the search returns: nothing when no candidate is accepted, and
    otherwise the first candidate, in the order of the search, whose score no
    accepted candidate exceeds. *)
Definition firstBest (s : GridState) (a : string) (cands : list StartKey)
    (b : Best) : Prop :=
  exists pre post k,
    cands = pre ++ bestKey b :: post /\
    checkAt s a (bestKey b) = Some k /\ score k = b_score b /\
    (forall c k', In c pre -> checkAt s a c = Some k' ->
                  score k' < b_score b) /\
    (forall c k', In c post -> checkAt s a c = Some k' ->
                  score k' <= b_score b).

(** ** The numbering of the compiled puzzle *)

(** [grid[i][j]], when there is such a cell. *)
Definition cell2 (g : list (list Cell)) (i j : nat) : option Cell :=
  match nth_error g i with
  | Some rowArr => nth_error rowArr j
  | None => None
  end.

(** The cell [x] once it carries the number [n], if any. *)
Definition withNumber (n : option Z) (x : Cell) : Cell :=
  match n with
  | Some num => mkCell (c_row x) (c_col x) (solution x) (isBlock x) (Some num)
  | None => x
  end.

Definition numLt (a b : Clue) : Prop := cl_number a < cl_number b.

(** [numbered.get(key(r, c))]. *)
Definition numberAt (s : ScanState) (rc : Coord) : option Z :=
  JsMap.get Coord_eqb rc (numbered s).

(** What the scan guarantees of the numbers when it reaches cell [(r, c)]:
    the numbers given so far are [1], ..., [clueNumber - 1], each to one cell
    before [(r, c)], in row-major order; a cell has a number exactly when a
    clue starts there, and the clue carries that number; the grid shows these
    numbers and is otherwise the initial grid [g0]; and every start before
    [(r, c)] has its clue. *)
Record NumInv (letterAt : list (Coord * ascii)) (nrows ncols : Z)
    (g0 : list (list Cell)) (r c : Z) (s : ScanState) : Prop := mkNumInv {
  ni_pos : 1 <= clueNumber s;
  ni_range : forall k n, numberAt s k = Some n ->
                         1 <= n < clueNumber s /\ before k r c;
  ni_onto : forall n, 1 <= n < clueNumber s ->
                      exists k, numberAt s k = Some n;
  ni_mono : forall k1 k2 n1 n2,
      numberAt s k1 = Some n1 -> numberAt s k2 = Some n2 ->
      before k1 (fst k2) (snd k2) -> n1 < n2;
  ni_clue : forall d cl, In cl (cluesOf d s) ->
                         numberAt s (clueStart cl) = Some (cl_number cl);
  ni_start : forall k n, numberAt s k = Some n ->
                         exists d cl, In cl (cluesOf d s) /\ clueStart cl = k;
  ni_asc : forall d, StronglySorted numLt (cluesOf d s);
  ni_grid : forall i j,
      cell2 (gridJson s) i j
      = option_map (withNumber (numberAt s (Z.of_nat i, Z.of_nat j)))
          (cell2 g0 i j);
  ni_complete : forall d r' c',
      0 <= r' < nrows -> 0 <= c' < ncols -> before (r', c') r c ->
      hasLetter letterAt r' c' = true ->
      startsIn letterAt d r' c' = true ->
      exists cl, In cl (cluesOf d s) /\ clueStart cl = (r', c')
}.

(** ** The string keys and the earlier builder *)

(** No comma occurs in the string. *)
Definition commaFree (s : string) : Prop := ~ In ","%char (letters s).

(** The placement a search has kept so far conflicts with no letter. *)
Definition kept (s : GridState) (a : string) (best : option Best) : Prop :=
  forall b, best = Some b ->
            AppJs.conflictLoop (grid s) (b_dir b) (b_row b) (b_col b)
              (letters a) 0 = false.

(** What holds of the state before entry number [k] is taken. *)
Definition oldInv (k : nat) (s : GridState) : Prop :=
  rowsBelowMax s /\
  Forall (lettersInGrid (grid s)) (placed s) /\
  map index (placed s) = seq 0 k /\
  (k = 0%nat -> grid s = []).

(** No four letters fill a square of two by two cells. *)
Definition noSquare (g : list (Coord * ascii)) : Prop :=
  forall r c,
    ~ (occupied g (r, c) /\ occupied g (r, c + 1) /\
       occupied g (r + 1, c) /\ occupied g (r + 1, c + 1)).

(** What the earlier [buildJson] needs of the grid it is given. *)
Definition oldGrid (entries : list Entry) (s : GridState) : Prop :=
  inBounds s /\ NoDup (map fst (grid s)) /\
  Forall (lettersInGrid (grid s)) (placed s) /\
  Forall (fromEntry entries) (placed s).

Definition oldCluesOf (d : Direction) (s : AppJs.Scan) : list Clue :=
  match d with
  | across => AppJs.acrossClues s
  | down => AppJs.downClues s
  end.

(** The clue was made for a placed word of its direction: it has the text
    of the word's entry and the cells of the word. *)
Definition oldClueGood (entries : list Entry) (gi : GridState)
    (d : Direction) (cl : Clue) : Prop :=
  exists p e,
    In p (placed gi) /\ dir p = d /\
    nth_error entries (index p) = Some e /\ p_answer p = answer e /\
    text cl = clue e /\
    cells cl = placementCells (answer e)
                 (row p - minRow gi) (col p - minCol gi) d.

Definition oldScanInv (entries : list Entry) (gi : GridState)
    (g0 : list (list Cell)) (s : AppJs.Scan) : Prop :=
  (forall i j, cell2 (AppJs.gridJson s) i j = None <-> cell2 g0 i j = None) /\
  (forall rc, solutionAt (AppJs.gridJson s) rc = solutionAt g0 rc) /\
  forall d cl, In cl (oldCluesOf d s) -> oldClueGood entries gi d cl.

(** * Properties *)

(** ** Keys *)

Lemma Coord_eqb_iff (a b : Coord) : Coord_eqb a b = true <-> a = b.
Proof.
  unfold Coord_eqb. destruct a as [a1 a2], b as [b1 b2]; simpl.
  rewrite andb_true_iff, !Z.eqb_eq. split.
  - intros [-> ->]; reflexivity.
  - intros H; inversion H; auto.
Qed.

Lemma Direction_eqb_iff (a b : Direction) : Direction_eqb a b = true <-> a = b.
Proof. destruct a, b; simpl; split; congruence. Qed.

Lemma StartKey_eqb_iff (a b : StartKey) : StartKey_eqb a b = true <-> a = b.
Proof.
  unfold StartKey_eqb. destruct a as [a1 a2], b as [b1 b2]; simpl.
  rewrite andb_true_iff, Coord_eqb_iff, Direction_eqb_iff. split.
  - intros [-> ->]; reflexivity.
  - intros H; inversion H; auto.
Qed.

Lemma Coord_eqb_refl (a : Coord) : Coord_eqb a a = true.
Proof. apply Coord_eqb_iff; reflexivity. Qed.

(** ** Maps in insertion order *)

Section JsMapFacts.
Context {K V : Type}.
Variable eqb : K -> K -> bool.
Hypothesis eqb_iff : forall a b, eqb a b = true <-> a = b.

Lemma eqb_same (k : K) : eqb k k = true.
Proof. apply eqb_iff; reflexivity. Qed.

Lemma eqb_diff (k k' : K) : k <> k' -> eqb k k' = false.
Proof.
  intros H. destruct (eqb k k') eqn:E; auto.
  apply eqb_iff in E. contradiction.
Qed.

Lemma get_set_same (k : K) (v : V) (m : list (K * V)) :
  JsMap.get eqb k (JsMap.set eqb k v m) = Some v.
Proof.
  induction m as [|[k' v'] m IH]; simpl.
  - rewrite eqb_same; reflexivity.
  - destruct (eqb k k') eqn:E; simpl; rewrite E; auto.
Qed.

Lemma get_set_other (k k' : K) (v : V) (m : list (K * V)) :
  k' <> k ->
  JsMap.get eqb k' (JsMap.set eqb k v m) = JsMap.get eqb k' m.
Proof.
  intros Hne. induction m as [|[k0 v0] m IH]; simpl.
  - rewrite eqb_diff; auto.
  - destruct (eqb k k0) eqn:E; simpl.
    + apply eqb_iff in E; subst k0.
      rewrite eqb_diff; auto.
    + destruct (eqb k' k0); auto.
Qed.

Lemma has_set (k k' : K) (v : V) (m : list (K * V)) :
  JsMap.has eqb k' (JsMap.set eqb k v m) = eqb k' k || JsMap.has eqb k' m.
Proof.
  unfold JsMap.has. destruct (eqb k' k) eqn:E; simpl.
  - apply eqb_iff in E; subst. rewrite get_set_same; reflexivity.
  - rewrite get_set_other; auto.
    intros ->. rewrite eqb_same in E; discriminate.
Qed.

Lemma get_In (k : K) (v : V) (m : list (K * V)) :
  JsMap.get eqb k m = Some v -> In (k, v) m.
Proof.
  induction m as [|[k' v'] m IH]; simpl; try discriminate.
  destruct (eqb k k') eqn:E.
  - apply eqb_iff in E; subst. intros H; inversion H; auto.
  - auto.
Qed.

Lemma In_set (k : K) (v : V) (m : list (K * V)) (kv : K * V) :
  In kv (JsMap.set eqb k v m) -> kv = (k, v) \/ In kv m.
Proof.
  induction m as [|[k' v'] m IH]; simpl.
  - intros [H|[]]; auto.
  - destruct (eqb k k') eqn:E; simpl.
    + apply eqb_iff in E; subst. intros [H|H]; auto.
    + intros [H|H]; auto. destruct (IH H); auto.
Qed.

Lemma get_None_keys (k : K) (m : list (K * V)) :
  JsMap.get eqb k m = None <-> ~ In k (map fst m).
Proof.
  induction m as [|[k' v'] m IH]; simpl.
  - tauto.
  - destruct (eqb k k') eqn:E.
    + apply eqb_iff in E. subst. split; [discriminate | tauto].
    + rewrite IH. split; [|tauto]. intros H [->|Hin]; auto.
      rewrite eqb_same in E. discriminate.
Qed.

Lemma set_keys (k : K) (v : V) (m : list (K * V)) :
  map fst (JsMap.set eqb k v m)
  = if JsMap.has eqb k m then map fst m else map fst m ++ [k].
Proof.
  unfold JsMap.has. induction m as [|[k' v'] m IH]; simpl; auto.
  destruct (eqb k k') eqn:E; simpl; auto.
  rewrite IH. destruct (JsMap.get eqb k m); reflexivity.
Qed.

Lemma set_keys_NoDup (k : K) (v : V) (m : list (K * V)) :
  NoDup (map fst m) -> NoDup (map fst (JsMap.set eqb k v m)).
Proof.
  intros H. rewrite set_keys. unfold JsMap.has.
  destruct (JsMap.get eqb k m) eqn:E; auto.
  apply get_None_keys in E.
  apply NoDup_app; auto.
  - constructor; [intros [] | constructor].
  - intros x Hx Hx'. destruct Hx' as [<-|[]]. contradiction.
Qed.

Lemma set_nonempty (k : K) (v : V) (m : list (K * V)) :
  JsMap.set eqb k v m <> [].
Proof. destruct m as [|[k' v'] m]; simpl; [|destruct (eqb k k')]; discriminate. Qed.

End JsMapFacts.

Lemma gridHas_get (g : list (Coord * ascii)) (r c : Z) :
  gridHas g r c = true <-> exists ch, gridGet g r c = Some ch.
Proof.
  unfold gridHas, gridGet, JsMap.has.
  destruct (JsMap.get Coord_eqb (r, c) g); split; intros H;
    try discriminate; eauto.
  destruct H; discriminate.
Qed.

Lemma gridHas_false (g : list (Coord * ascii)) (r c : Z) :
  gridHas g r c = false <-> gridGet g r c = None.
Proof.
  unfold gridHas, gridGet, JsMap.has.
  destruct (JsMap.get Coord_eqb (r, c) g); split; intros H;
    try discriminate; auto.
Qed.

(** ** [canPlace] reads, and never writes *)

Lemma canPlaceLoop_run (d : Direction) (row col : Z) (chars : list ascii) :
  forall (i inter : Z) (b : Bounds) (s : GridState),
    canPlaceLoop d row col chars i inter b s
    = inr (loopPure (grid s) d row col chars i inter b, s).
Proof.
  induction chars as [|ch rest IH]; intros i inter b s; simpl.
  - reflexivity.
  - unfold bind, get, has, ret.
    destruct (gridGet (grid s) (fst (cellOf d row col i))
                (snd (cellOf d row col i))) as [e|].
    + destruct (negb (Ascii.eqb e ch)); [reflexivity | apply IH].
    + destruct d; simpl;
        repeat match goal with
               | |- context [gridHas ?g ?r ?c] => destruct (gridHas g r c); simpl
               end; try reflexivity; apply IH.
Qed.

Lemma canPlace_run (a : string) (row col : Z) (d : Direction) (s : GridState) :
  canPlace a row col d s = inr (canPlacePure s a row col d, s).
Proof.
  unfold canPlace, canPlacePure, bind, has, ret, readState, gridSize, stateBounds.
  destruct d; simpl;
    repeat match goal with
           | |- context [gridHas ?g ?r ?c] => destruct (gridHas g r c); simpl
           end; try reflexivity;
    rewrite canPlaceLoop_run;
    destruct (loopPure _ _ _ _ _ _ _ _) as [[inter b]|]; try reflexivity;
    destruct ((_ >? 0) && (inter =? 0)); reflexivity.
Qed.

(** C10.  [canPlace] leaves the closure's variables as it found them: for
    every answer, start and direction it returns a result, never throws,
    and the grid mapping, the list of placements and the four bounds after
    the call are those before it. *)
Theorem canPlace_frame (a : string) (row col : Z) (d : Direction)
    (s : GridState) :
  exists (res : option Check) (s' : GridState),
    canPlace a row col d s = inr (res, s') /\
    grid s' = grid s /\
    placed s' = placed s /\
    minRow s' = minRow s /\ maxRow s' = maxRow s /\
    minCol s' = minCol s /\ maxCol s' = maxCol s.
Proof.
  exists (canPlacePure s a row col d), s.
  rewrite canPlace_run. repeat split.
Qed.

(** ** What the loop of [canPlace] computes *)

Lemma widen_min_max (b : Bounds) (r c : Z) :
  widen b r c = mkBounds (Z.min (newMinRow b) r) (Z.max (newMaxRow b) r)
                         (Z.min (newMinCol b) c) (Z.max (newMaxCol b) c).
Proof.
  unfold widen. destruct b as [a1 a2 a3 a4]; simpl.
  destruct (Z.ltb_spec r a1); simpl;
    destruct (Z.gtb_spec r a2); simpl;
    destruct (Z.ltb_spec c a3); simpl;
    destruct (Z.gtb_spec c a4); simpl;
    f_equal; lia.
Qed.

Lemma cellsFrom_S (d : Direction) (row col i : Z) (n : nat) :
  cellsFrom d row col i (S n)
  = cellOf d row col i :: cellsFrom d row col (i + 1) n.
Proof.
  unfold cellsFrom. simpl. rewrite Z.add_0_r. f_equal.
  rewrite <- seq_shift, map_map.
  apply map_ext. intros j. f_equal. lia.
Qed.

Lemma cellsFrom_length (d : Direction) (row col i : Z) (n : nat) :
  List.length (cellsFrom d row col i n) = n.
Proof. unfold cellsFrom. rewrite length_map, length_seq. reflexivity. Qed.

Lemma cellsFrom_nth (d : Direction) (row col i : Z) (n j : nat) :
  (j < n)%nat ->
  nth_error (cellsFrom d row col i n) j = Some (cellOf d row col (i + Z.of_nat j)).
Proof.
  intros H. unfold cellsFrom.
  rewrite nth_error_map, nth_error_seq.
  destruct (Nat.ltb_spec j n); [reflexivity | lia].
Qed.

Lemma In_cellsFrom (d : Direction) (row col i : Z) (n : nat) (rc : Coord) :
  In rc (cellsFrom d row col i n) <->
  exists j, (j < n)%nat /\ rc = cellOf d row col (i + Z.of_nat j).
Proof.
  unfold cellsFrom. rewrite in_map_iff. split.
  - intros (j & <- & Hj). apply in_seq in Hj. exists j. split; [lia | auto].
  - intros (j & Hj & ->). exists j. split; auto. apply in_seq. lia.
Qed.

Lemma letters_length (a : string) :
  List.length (letters a) = String.length a.
Proof.
  unfold letters. induction a; simpl; auto.
Qed.

Lemma placementCells_cellsFrom (a : string) (row col : Z) (d : Direction) :
  placementCells a row col d
  = cellsFrom d row col 0 (List.length (letters a)).
Proof.
  unfold placementCells, cellsFrom, zrange, strlen.
  rewrite Nat2Z.id, letters_length, map_map. reflexivity.
Qed.

Lemma spec_box_cons (b : Bounds) (rc : Coord) (cs : list Coord) :
  spec_box b (rc :: cs) = spec_box (widen b (fst rc) (snd rc)) cs.
Proof. rewrite widen_min_max. reflexivity. Qed.

Lemma spec_intersections_cons (g : list (Coord * ascii)) (rc : Coord)
    (cs : list Coord) :
  spec_intersections g (rc :: cs)
  = (if gridHas g (fst rc) (snd rc) then 1 else 0) + spec_intersections g cs.
Proof.
  unfold spec_intersections. simpl.
  destruct (gridHas g (fst rc) (snd rc)); simpl List.length; lia.
Qed.

Lemma spec_intersections_nonneg (g : list (Coord * ascii)) (cs : list Coord) :
  0 <= spec_intersections g cs.
Proof. unfold spec_intersections. lia. Qed.

Lemma spec_intersections_zero (g : list (Coord * ascii)) (cs : list Coord) :
  spec_intersections g cs = 0 <->
  forall rc, In rc cs -> gridHas g (fst rc) (snd rc) = false.
Proof.
  induction cs as [|rc cs IH].
  - split; [intros _ rc [] | reflexivity].
  - rewrite spec_intersections_cons.
    pose proof (spec_intersections_nonneg g cs) as Hnn.
    destruct (gridHas g (fst rc) (snd rc)) eqn:E; split.
    + lia.
    + intros H. rewrite (H rc) in E; [discriminate | left; reflexivity].
    + intros H rc' [<-|Hin]; [exact E | apply IH; [lia | exact Hin]].
    + intros H. simpl. apply IH. intros rc' Hin. apply H. right; auto.
Qed.

Lemma sideCells_has (g : list (Coord * ascii)) (d : Direction) (rc : Coord) :
  (match d with
   | across => gridHas g (fst rc - 1) (snd rc) || gridHas g (fst rc + 1) (snd rc)
   | down => gridHas g (fst rc) (snd rc - 1) || gridHas g (fst rc) (snd rc + 1)
   end) = true
  <-> occupied g (fst (sideCells d rc)) \/ occupied g (snd (sideCells d rc)).
Proof.
  unfold occupied, sideCells. destruct d; simpl; apply orb_true_iff.
Qed.

Lemma loopPure_Some_inv (g : list (Coord * ascii)) (d : Direction)
    (row col : Z) (chars : list ascii) :
  forall (i inter : Z) (b : Bounds) (n : Z) (b' : Bounds),
    loopPure g d row col chars i inter b = Some (n, b') ->
    (forall j ch, nth_error chars j = Some ch ->
                  cellFine g d (cellOf d row col (i + Z.of_nat j)) ch) /\
    n = inter + spec_intersections g (cellsFrom d row col i (List.length chars)) /\
    b' = spec_box b (cellsFrom d row col i (List.length chars)).
Proof.
  induction chars as [|ch rest IH]; intros i inter b n b' H.
  - simpl in H. inversion H; subst. repeat split.
    + intros [|j] ch' Hj; discriminate.
    + unfold spec_intersections; simpl. lia.
    + destruct b'; reflexivity.
  - simpl in H. simpl List.length.
    rewrite cellsFrom_S, spec_box_cons, spec_intersections_cons.
    set (rc := cellOf d row col i) in *.
    destruct (gridGet g (fst rc) (snd rc)) as [e|] eqn:Eg.
    + destruct (Ascii.eqb e ch) eqn:Ee; simpl in H; try discriminate.
      apply Ascii.eqb_eq in Ee. subst e.
      apply IH in H. destruct H as (Hf & Hn & Hb).
      assert (Hh : gridHas g (fst rc) (snd rc) = true)
        by (apply gridHas_get; eauto).
      rewrite Hh. repeat split; auto; try lia.
      intros [|j] ch' Hj; simpl in Hj.
      * inversion Hj; subst. rewrite Z.add_0_r. fold rc.
        unfold cellFine, letterAtCoord. rewrite Eg. reflexivity.
      * replace (i + Z.of_nat (S j)) with (i + 1 + Z.of_nat j) by lia.
        apply Hf; auto.
    + match type of H with
      | (if ?side then _ else _) = _ => destruct side eqn:Es
      end; try discriminate.
      apply IH in H. destruct H as (Hf & Hn & Hb).
      assert (Hh : gridHas g (fst rc) (snd rc) = false)
        by (apply gridHas_false; auto).
      rewrite Hh. repeat split; auto; try lia.
      intros [|j] ch' Hj; simpl in Hj.
      * inversion Hj; subst. rewrite Z.add_0_r. fold rc.
        unfold cellFine, letterAtCoord. rewrite Eg.
        pose proof (sideCells_has g d rc) as Hs. rewrite Es in Hs.
        split; intros Ho; [assert (false = true) by (apply Hs; left; auto)
                          | assert (false = true) by (apply Hs; right; auto)];
          discriminate.
      * replace (i + Z.of_nat (S j)) with (i + 1 + Z.of_nat j) by lia.
        apply Hf; auto.
Qed.

Lemma loopPure_None_inv (g : list (Coord * ascii)) (d : Direction)
    (row col : Z) (chars : list ascii) :
  forall (i inter : Z) (b : Bounds),
    loopPure g d row col chars i inter b = None ->
    exists j ch,
      nth_error chars j = Some ch /\
      ((exists e, letterAtCoord g (cellOf d row col (i + Z.of_nat j)) = Some e
                  /\ e <> ch) \/
       (letterAtCoord g (cellOf d row col (i + Z.of_nat j)) = None /\
        (occupied g (fst (sideCells d (cellOf d row col (i + Z.of_nat j)))) \/
         occupied g (snd (sideCells d (cellOf d row col (i + Z.of_nat j))))))).
Proof.
  induction chars as [|ch rest IH]; intros i inter b H.
  - discriminate.
  - simpl in H.
    set (rc := cellOf d row col i) in *.
    assert (Hnext : forall inter' b',
               loopPure g d row col rest (i + 1) inter' b' = None ->
               exists j ch0,
                 nth_error (ch :: rest) j = Some ch0 /\
                 ((exists e, letterAtCoord g (cellOf d row col (i + Z.of_nat j)) = Some e
                             /\ e <> ch0) \/
                  (letterAtCoord g (cellOf d row col (i + Z.of_nat j)) = None /\
                   (occupied g (fst (sideCells d (cellOf d row col (i + Z.of_nat j)))) \/
                    occupied g (snd (sideCells d (cellOf d row col (i + Z.of_nat j)))))))).
    { intros inter' b' H'. apply IH in H'. destruct H' as (j & ch0 & Hj & Hbad).
      exists (S j), ch0. split; auto.
      replace (i + Z.of_nat (S j)) with (i + 1 + Z.of_nat j) by lia. auto. }
    destruct (gridGet g (fst rc) (snd rc)) as [e|] eqn:Eg.
    + destruct (Ascii.eqb e ch) eqn:Ee; simpl in H.
      * eapply Hnext; eauto.
      * exists 0%nat, ch. split; auto. left. exists e.
        rewrite Z.add_0_r. fold rc. split; auto.
        intros ->. rewrite Ascii.eqb_refl in Ee. discriminate.
    + match type of H with
      | (if ?side then _ else _) = _ => destruct side eqn:Es
      end.
      * exists 0%nat, ch. split; auto. right.
        rewrite Z.add_0_r. fold rc. split; auto.
        apply sideCells_has; auto.
      * eapply Hnext; eauto.
Qed.

Lemma cellFine_not_bad (g : list (Coord * ascii)) (d : Direction)
    (rc : Coord) (ch : ascii) :
  cellFine g d rc ch ->
  ~ ((exists e, letterAtCoord g rc = Some e /\ e <> ch) \/
     (letterAtCoord g rc = None /\
      (occupied g (fst (sideCells d rc)) \/ occupied g (snd (sideCells d rc))))).
Proof.
  unfold cellFine. intros Hf [(e & He & Hne) | (Hn & Ho)].
  - rewrite He in Hf. contradiction.
  - rewrite Hn in Hf. tauto.
Qed.

(** ** What [canPlace] accepts and what it rejects *)

Lemma before_cell (g : list (Coord * ascii)) (d : Direction) (row col : Z) :
  match d with
  | across => gridHas g row (col - 1)
  | down => gridHas g (row - 1) col
  end = gridHas g (fst (cellOf d row col (-1))) (snd (cellOf d row col (-1))).
Proof. destruct d; simpl; f_equal; lia. Qed.

Lemma after_cell (g : list (Coord * ascii)) (d : Direction) (row col n : Z) :
  match d with
  | across => gridHas g row (col + n)
  | down => gridHas g (row + n) col
  end = gridHas g (fst (cellOf d row col n)) (snd (cellOf d row col n)).
Proof. destruct d; reflexivity. Qed.

Lemma gridSize_pos (g : list (Coord * ascii)) :
  (Z.of_nat (List.length g) >? 0) = true <-> g <> [].
Proof.
  destruct g; simpl; split; intros H; try discriminate; try congruence.
  reflexivity.
Qed.

Lemma canPlacePure_Some_inv (s : GridState) (a : string) (row col : Z)
    (d : Direction) (chk : Check) :
  canPlacePure s a row col d = Some chk ->
  ~ occupied (grid s) (cellOf d row col (-1)) /\
  ~ occupied (grid s) (cellOf d row col (strlen a)) /\
  (forall j ch, nth_error (letters a) j = Some ch ->
                cellFine (grid s) d (cellOf d row col (Z.of_nat j)) ch) /\
  intersections chk = spec_intersections (grid s) (placementCells a row col d) /\
  bounds chk = spec_box (stateBounds s) (placementCells a row col d) /\
  score chk = scoreOf (intersections chk) (bounds chk) /\
  (grid s = [] \/ intersections chk <> 0).
Proof.
  unfold canPlacePure. rewrite before_cell, after_cell. unfold occupied.
  destruct (gridHas _ (fst (cellOf d row col (-1))) _) eqn:Eb; try discriminate.
  destruct (gridHas _ (fst (cellOf d row col (strlen a))) _) eqn:Ea;
    try discriminate.
  destruct (loopPure _ _ _ _ _ _ _ _) as [[n b]|] eqn:El; try discriminate.
  destruct ((_ >? 0) && (n =? 0)) eqn:Eg; try discriminate.
  intros H; inversion H; subst chk; clear H. simpl.
  apply loopPure_Some_inv in El. destruct El as (Hf & Hn & Hb).
  rewrite placementCells_cellsFrom.
  repeat split; try congruence.
  - intros j ch Hj. specialize (Hf j ch Hj). exact Hf.
  - lia.
  - apply andb_false_iff in Eg. destruct Eg as [Eg|Eg].
    + left. destruct (grid s); auto. discriminate.
    + right. apply Z.eqb_neq in Eg. auto.
Qed.

Lemma canPlacePure_None_inv (s : GridState) (a : string) (row col : Z)
    (d : Direction) :
  canPlacePure s a row col d = None -> rejected s a row col d.
Proof.
  unfold canPlacePure, rejected, endTouch. rewrite before_cell, after_cell.
  unfold occupied.
  destruct (gridHas _ (fst (cellOf d row col (-1))) _) eqn:Eb; auto.
  destruct (gridHas _ (fst (cellOf d row col (strlen a))) _) eqn:Ea; auto.
  destruct (loopPure _ _ _ _ _ _ _ _) as [[n b]|] eqn:El.
  - destruct ((_ >? 0) && (n =? 0)) eqn:Eg; try discriminate.
    intros _. right; right; right.
    apply andb_true_iff in Eg. destruct Eg as [Eg En].
    apply gridSize_pos in Eg. apply Z.eqb_eq in En. split; auto.
    apply loopPure_Some_inv in El. destruct El as (Hf & Hn & _).
    assert (Hz : spec_intersections (grid s)
                   (cellsFrom d row col 0 (List.length (letters a))) = 0)
      by lia.
    rewrite spec_intersections_zero in Hz.
    intros i ch Hi Hget.
    assert (Hlt : (i < List.length (letters a))%nat)
      by (apply nth_error_Some; congruence).
    specialize (Hz (cellOf d row col (Z.of_nat i))).
    rewrite In_cellsFrom in Hz.
    assert (Hh : gridHas (grid s) (fst (cellOf d row col (Z.of_nat i)))
                   (snd (cellOf d row col (Z.of_nat i))) = false)
      by (apply Hz; exists i; split; auto).
    apply gridHas_false in Hh. unfold letterAtCoord in Hget. congruence.
  - intros _. apply loopPure_None_inv in El.
    destruct El as (j & ch & Hj & [Hbad|Hbad]).
    + right; left. destruct Hbad as (e & He & Hne). exists j, ch, e. auto.
    + right; right; left. exists j, ch. auto.
Qed.

Lemma canPlacePure_rejected (s : GridState) (a : string) (row col : Z)
    (d : Direction) :
  rejected s a row col d -> canPlacePure s a row col d = None.
Proof.
  intros Hrej.
  destruct (canPlacePure s a row col d) as [chk|] eqn:E; auto.
  exfalso. apply canPlacePure_Some_inv in E.
  destruct E as (Hb & Ha & Hf & Hi & _ & _ & Hne).
  destruct Hrej as [[H|H] | [H | [H | [Hg Hno]]]]; try tauto.
  - destruct H as (i & ch & e & Hi' & He & Hne').
    apply (cellFine_not_bad _ _ _ _ (Hf i ch Hi')). left. eauto.
  - destruct H as (i & ch & Hi' & Hn & Ho).
    apply (cellFine_not_bad _ _ _ _ (Hf i ch Hi')). right. auto.
  - destruct Hne as [Hne|Hne]; [contradiction|].
    apply Hne. rewrite Hi. apply spec_intersections_zero.
    intros rc Hin. rewrite placementCells_cellsFrom in Hin.
    apply In_cellsFrom in Hin. destruct Hin as (j & Hj & ->). simpl in *.
    destruct (nth_error (letters a) j) as [ch|] eqn:Ej;
      [| apply nth_error_None in Ej; lia].
    specialize (Hf j ch Ej). specialize (Hno j ch Ej).
    unfold cellFine in Hf. apply gridHas_false.
    unfold letterAtCoord in *.
    destruct (gridGet (grid s) (fst (cellOf d row col (Z.of_nat j)))
                (snd (cellOf d row col (Z.of_nat j)))) as [e|]; auto.
    subst e. congruence.
Qed.

(** C4.  [canPlace] returns the failure sentinel exactly when the placement
    touches a letter at either end along its axis, or some position holds a
    letter other than the answer's, or some empty position has a letter on
    one of its two side neighbours, or the grid is non-empty and no position
    meets a letter; in every other case it returns a success result. *)
Theorem canPlace_null_iff (s : GridState) (a : string) (row col : Z)
    (d : Direction) :
  (canPlace a row col d s = inr (None, s) <-> rejected s a row col d) /\
  (~ rejected s a row col d ->
   exists chk, canPlace a row col d s = inr (Some chk, s)).
Proof.
  rewrite canPlace_run. split; [split|].
  - intros H. apply canPlacePure_None_inv. congruence.
  - intros H. rewrite canPlacePure_rejected; auto.
  - intros Hno.
    destruct (canPlacePure s a row col d) as [chk|] eqn:E; eauto.
    exfalso. apply Hno. apply canPlacePure_None_inv; auto.
Qed.

(** ** The score *)

Lemma scoreOf_spec (inter : Z) (b : Bounds) : scoreOf inter b = spec_score inter b.
Proof. unfold scoreOf, spec_score. lia. Qed.

Lemma setCell_run (r c : Z) (ch : ascii) (s : GridState) :
  exists s', setCell r c ch s = inr (tt, s') /\
             grid s' = JsMap.set Coord_eqb (r, c) ch (grid s) /\
             placed s' = placed s /\
             stateBounds s' = widen (stateBounds s) r c.
Proof.
  eexists. split; [reflexivity|]. simpl. repeat split.
  rewrite widen_min_max. unfold stateBounds; simpl.
  destruct (Z.ltb_spec r (minRow s)); destruct (Z.gtb_spec r (maxRow s));
    destruct (Z.ltb_spec c (minCol s)); destruct (Z.gtb_spec c (maxCol s));
    f_equal; lia.
Qed.

Lemma placeLoop_run (d : Direction) (row col : Z) (chars : list ascii) :
  forall (i : Z) (s : GridState),
  exists s', placeLoop d row col chars i s = inr (tt, s') /\
             grid s' = writeCells d row col chars i (grid s) /\
             placed s' = placed s /\
             stateBounds s'
             = spec_box (stateBounds s) (cellsFrom d row col i (List.length chars)).
Proof.
  induction chars as [|ch rest IH]; intros i s.
  - exists s. simpl. repeat split.
  - simpl placeLoop. unfold bind.
    destruct (setCell_run (fst (cellOf d row col i)) (snd (cellOf d row col i))
                ch s) as (s1 & -> & Hg & Hp & Hb).
    destruct (IH (i + 1) s1) as (s2 & -> & Hg2 & Hp2 & Hb2).
    exists s2. split; auto. simpl List.length.
    rewrite cellsFrom_S, spec_box_cons, <- Hb, Hb2, Hg2, Hg, Hp2, Hp.
    rewrite <- surjective_pairing. auto.
Qed.

(** ** [placeWordAt]: when it throws and what it commits *)

Lemma placeWordAt_throws (idx : nat) (a : string) (row col : Z)
    (d : Direction) (s : GridState) :
  canPlacePure s a row col d = None -> grid s <> [] ->
  placeWordAt idx a row col d s = inl (InvalidPlacement a).
Proof.
  intros Hc Hg. unfold placeWordAt, bind. rewrite canPlace_run, Hc.
  unfold gridSize. destruct (grid s) as [|kv g]; [contradiction|].
  reflexivity.
Qed.

Lemma placeWordAt_commits (idx : nat) (a : string) (row col : Z)
    (d : Direction) (s : GridState) :
  canPlacePure s a row col d <> None \/ grid s = [] ->
  exists s',
    placeWordAt idx a row col d s = inr (tt, s') /\
    grid s' = writeCells d row col (letters a) 0 (grid s) /\
    placed s' = placed s ++ [mkPlaced idx row col d a] /\
    stateBounds s' = spec_box (stateBounds s) (placementCells a row col d).
Proof.
  intros Hok. unfold placeWordAt, bind. rewrite canPlace_run.
  unfold gridSize.
  assert (Hgo : negb (match canPlacePure s a row col d with
                      | Some _ => true
                      | None => Z.of_nat (List.length (grid s)) =? 0
                      end) && (Z.of_nat (List.length (grid s)) >? 0) = false).
  { destruct (canPlacePure s a row col d); [reflexivity|].
    destruct Hok as [Hok|Hok]; [congruence|]. rewrite Hok. reflexivity. }
  rewrite Hgo.
  destruct (placeLoop_run d row col (letters a) 0 s) as (s1 & -> & Hg & Hp & Hb).
  eexists. split; [reflexivity|]. simpl.
  rewrite placementCells_cellsFrom, <- Hb, Hg, Hp. repeat split.
Qed.

Lemma placeWordAt_inv (idx : nat) (a : string) (row col : Z)
    (d : Direction) (s s' : GridState) (u : unit) :
  placeWordAt idx a row col d s = inr (u, s') ->
  (canPlacePure s a row col d <> None \/ grid s = []) /\
  grid s' = writeCells d row col (letters a) 0 (grid s) /\
  placed s' = placed s ++ [mkPlaced idx row col d a] /\
  stateBounds s' = spec_box (stateBounds s) (placementCells a row col d).
Proof.
  intros H.
  assert (Hok : canPlacePure s a row col d <> None \/ grid s = []).
  { destruct (canPlacePure s a row col d) eqn:Ec; [left; discriminate|].
    destruct (grid s) eqn:Eg; [right; reflexivity|].
    rewrite placeWordAt_throws in H; try discriminate; auto.
    rewrite Eg. discriminate. }
  split; auto.
  destruct (placeWordAt_commits idx a row col d s Hok) as (s2 & H2 & Hrest).
  rewrite H in H2. inversion H2; subst. exact Hrest.
Qed.

(** C7.  Every check [canPlace] accepts carries the score
    [intersections * 1000 - area - |width - height| * 5] over the integers,
    where the intersections are the covered cells that already hold a letter
    and width, height and area are those of the current bounds widened by
    the cells of the placement; that box is the one [placeWordAt] commits. *)
Theorem canPlace_score (s s' : GridState) (a : string) (row col : Z)
    (d : Direction) (chk : Check) :
  canPlace a row col d s = inr (Some chk, s') ->
  let cs := placementCells a row col d in
  let box := spec_box (stateBounds s) cs in
  let width := newMaxCol box - newMinCol box + 1 in
  let height := newMaxRow box - newMinRow box + 1 in
  let area := width * height in
  intersections chk = spec_intersections (grid s) cs /\
  bounds chk = box /\
  score chk = intersections chk * 1000 - area - Z.abs (width - height) * 5 /\
  (forall idx s2, placeWordAt idx a row col d s = inr (tt, s2) ->
                  stateBounds s2 = box).
Proof.
  rewrite canPlace_run. intros H. inversion H; subst s'; clear H.
  rename H1 into H. apply canPlacePure_Some_inv in H.
  destruct H as (_ & _ & _ & Hi & Hb & Hs & _).
  cbv zeta. repeat split; auto.
  - rewrite Hs, scoreOf_spec, Hb. reflexivity.
  - intros idx s2 Hp. apply placeWordAt_inv in Hp. tauto.
Qed.

Lemma canPlace_score_witness :
  canPlace "ACE" 0 1 down afterCAT
  = inr (Some (mkCheck 1 991 (mkBounds 0 2 0 2)), afterCAT) /\
  score (mkCheck 1 991 (mkBounds 0 2 0 2)) = 1 * 1000 - 3 * 3 - Z.abs (3 - 3) * 5.
Proof.
  split; [reflexivity|].
  exact (proj1 (proj2 (proj2
    (canPlace_score afterCAT afterCAT "ACE" 0 1 down
       (mkCheck 1 991 (mkBounds 0 2 0 2)) eq_refl)))).
Defined.

(** ** The worked example of the specification *)

(** C2.  For [CAT] then [ACE]: [CAT] goes across at (0,0); [ACE] goes down
    at (0,1), the first candidate found, and the later down candidate at
    (-1,0) has the same score 991 and, not being strictly better, does not
    replace it; the puzzle is the
    3 by 3 grid C A T / . C . / . E . with number 1 at (0,0) and 2 at (0,1),
    one across clue and one down clue with the stated numbers, texts and
    cells. *)
Theorem build_catAce :
  buildGrid catAce
  = inr (mkState
           [((0, 0), "C"%char); ((0, 1), "A"%char); ((0, 2), "T"%char);
            ((1, 1), "C"%char); ((2, 1), "E"%char)]
           [mkPlaced 0 0 0 across "CAT"; mkPlaced 1 0 1 down "ACE"]
           0 2 0 2) /\
  placeWordAt 0 "CAT" 0 0 across initState = inr (tt, afterCAT) /\
  canPlace "ACE" 0 1 down afterCAT
  = inr (Some (mkCheck 1 991 (mkBounds 0 2 0 2)), afterCAT) /\
  canPlace "ACE" (-1) 0 down afterCAT
  = inr (Some (mkCheck 1 991 (mkBounds (-1) 1 0 2)), afterCAT) /\
  better (Some (mkCheck 1 991 (mkBounds (-1) 1 0 2)))
         (Some (mkBest 0 1 down 991)) = false /\
  bestPlacement "ACE" afterCAT = inr (Some (mkBest 0 1 down 991), afterCAT) /\
  build catAce
  = inr (mkPuzzle "Oscars Crossword" 3 3
           [[letterCell 0 0 "C" (Some 1); letterCell 0 1 "A" (Some 2);
             letterCell 0 2 "T" None];
            [blockCell 1 0; letterCell 1 1 "C" None; blockCell 1 2];
            [blockCell 2 0; letterCell 2 1 "E" None; blockCell 2 2]]
           [mkClue 1 "Feline pet" [(0, 0); (0, 1); (0, 2)]]
           [mkClue 2 "Top card" [(0, 1); (1, 1); (2, 1)]]).
Proof. repeat split; vm_compute; reflexivity. Qed.

(** ** The fallback placement *)

Lemma gridHas_In (g : list (Coord * ascii)) (r c : Z) :
  gridHas g r c = true -> exists ch, In ((r, c), ch) g.
Proof.
  intros H. apply gridHas_get in H. destruct H as (ch & H).
  exists ch. eapply get_In; eauto. apply Coord_eqb_iff.
Qed.

(** On a non-empty grid the fallback of [buildGrid] always throws: the row
    two below [maxRow] holds no letter, so the placement meets none and
    [canPlace] rejects it for that. *)
Lemma fallback_throws (idx : nat) (a : string) (s : GridState) :
  grid s <> [] -> rowsBelowMax s ->
  placeWordAt idx a (maxRow s + 2) (minCol s) across s
  = inl (InvalidPlacement a).
Proof.
  intros Hg Hrows. apply placeWordAt_throws; auto.
  destruct (canPlacePure s a (maxRow s + 2) (minCol s) across) as [chk|] eqn:E;
    auto.
  exfalso. apply canPlacePure_Some_inv in E.
  destruct E as (_ & _ & _ & Hi & _ & _ & [Hne|Hne]); [contradiction|].
  apply Hne. rewrite Hi. apply spec_intersections_zero.
  intros rc Hin. unfold placementCells in Hin. apply in_map_iff in Hin.
  destruct Hin as (i & <- & _). simpl.
  destruct (gridHas (grid s) (maxRow s + 2) (minCol s + i)) eqn:Eh; auto.
  apply gridHas_In in Eh. destruct Eh as (ch & Hin).
  apply Hrows in Hin. simpl in Hin. lia.
Qed.

(** C1 (the code departs from the claim).  With [CAT] then [DOG],
    [bestPlacement] finds no crossing for [DOG]; the fallback placement two
    rows below is then handed to [placeWordAt], which validates it with
    [canPlace], and [buildGrid] throws instead of placing the entry. *)
Theorem buildGrid_catDog_throws :
  bestPlacement "DOG" afterCAT = inr (None, afterCAT) /\
  canPlace "DOG" (maxRow afterCAT + 2) (minCol afterCAT) across afterCAT
  = inr (None, afterCAT) /\
  buildGrid catDog = inl (InvalidPlacement "DOG").
Proof. repeat split; vm_compute; reflexivity. Qed.

(** ** Writing a word into the grid *)

Lemma letterAtCoord_get (g : list (Coord * ascii)) (rc : Coord) :
  letterAtCoord g rc = JsMap.get Coord_eqb rc g.
Proof. destruct rc; reflexivity. Qed.

Lemma occupied_iff (g : list (Coord * ascii)) (rc : Coord) :
  occupied g rc <-> exists ch, letterAtCoord g rc = Some ch.
Proof. apply gridHas_get. Qed.

Lemma not_occupied_iff (g : list (Coord * ascii)) (rc : Coord) :
  ~ occupied g rc <-> letterAtCoord g rc = None.
Proof.
  rewrite occupied_iff. destruct (letterAtCoord g rc); split; intros H;
    try discriminate; auto.
  - exfalso. apply H. eauto.
  - intros [ch Hch]. discriminate.
Qed.

Lemma cellOf_inj (d : Direction) (row col i j : Z) :
  cellOf d row col i = cellOf d row col j -> i = j.
Proof. destruct d; simpl; intros H; inversion H; lia. Qed.

Lemma writeCells_get_out (d : Direction) (row col : Z) (rc : Coord)
    (chars : list ascii) :
  forall (i : Z) (g : list (Coord * ascii)),
    (forall j, (j < List.length chars)%nat ->
               rc <> cellOf d row col (i + Z.of_nat j)) ->
    letterAtCoord (writeCells d row col chars i g) rc = letterAtCoord g rc.
Proof.
  induction chars as [|ch rest IH]; intros i g Hout; simpl; auto.
  rewrite IH.
  - rewrite !letterAtCoord_get. apply get_set_other.
    + apply Coord_eqb_iff.
    + specialize (Hout 0%nat). rewrite Z.add_0_r in Hout.
      apply Hout. simpl. lia.
  - intros j Hj. replace (i + 1 + Z.of_nat j) with (i + Z.of_nat (S j)) by lia.
    apply Hout. simpl. lia.
Qed.

Lemma writeCells_get_in (d : Direction) (row col : Z) (chars : list ascii) :
  forall (i : Z) (g : list (Coord * ascii)) (j : nat) (ch : ascii),
    nth_error chars j = Some ch ->
    letterAtCoord (writeCells d row col chars i g)
      (cellOf d row col (i + Z.of_nat j)) = Some ch.
Proof.
  induction chars as [|c0 rest IH]; intros i g j ch Hj.
  - destruct j; discriminate.
  - destruct j as [|j]; simpl in *.
    + inversion Hj; subst. rewrite Z.add_0_r.
      rewrite writeCells_get_out.
      * rewrite letterAtCoord_get. apply get_set_same. apply Coord_eqb_iff.
      * intros j _ Heq. apply cellOf_inj in Heq. lia.
    + replace (i + Z.pos (Pos.of_succ_nat j)) with (i + 1 + Z.of_nat j) by lia.
      apply IH; auto.
Qed.

Lemma writeCells_In (d : Direction) (row col : Z) (chars : list ascii) :
  forall (i : Z) (g : list (Coord * ascii)) (kv : Coord * ascii),
    In kv (writeCells d row col chars i g) ->
    In kv g \/ In (fst kv) (cellsFrom d row col i (List.length chars)).
Proof.
  induction chars as [|c0 rest IH]; intros i g kv Hin;
    cbn [writeCells List.length] in *; auto.
  rewrite cellsFrom_S. apply IH in Hin. destruct Hin as [Hin|Hin].
  - apply In_set in Hin; [|apply Coord_eqb_iff].
    destruct Hin as [->|Hin]; auto. right; left; reflexivity.
  - right; right; auto.
Qed.

Lemma cellsFrom_dec (d : Direction) (row col i : Z) (n : nat) (rc : Coord) :
  (exists k, (k < n)%nat /\ rc = cellOf d row col (i + Z.of_nat k)) \/
  (forall k, (k < n)%nat -> rc <> cellOf d row col (i + Z.of_nat k)).
Proof.
  assert (Hdec : forall x y : Coord, {x = y} + {x <> y}).
  { intros [x1 x2] [y1 y2].
    destruct (Z.eq_dec x1 y1), (Z.eq_dec x2 y2);
      [left; congruence | right; congruence ..]. }
  destruct (in_dec Hdec rc (cellsFrom d row col i n)) as [Hin|Hout].
  - left. apply In_cellsFrom; auto.
  - right. intros k Hk Heq. apply Hout. apply In_cellsFrom. eauto.
Qed.

Lemma writeCells_occupied (d : Direction) (row col : Z) (chars : list ascii)
    (i : Z) (g : list (Coord * ascii)) (rc : Coord) :
  occupied (writeCells d row col chars i g) rc ->
  occupied g rc \/
  exists k, (k < List.length chars)%nat /\ rc = cellOf d row col (i + Z.of_nat k).
Proof.
  intros Ho.
  destruct (cellsFrom_dec d row col i (List.length chars) rc) as [Hin|Hout];
    auto.
  left. apply occupied_iff in Ho. apply occupied_iff.
  rewrite writeCells_get_out in Ho; auto.
Qed.

(** ** Bounds *)

Lemma fold_min_le (l : list Z) :
  forall a, fold_left Z.min l a <= a /\
            forall x, In x l -> fold_left Z.min l a <= x.
Proof.
  induction l as [|y l IH]; intros a; simpl.
  - split; [lia | intros x []].
  - destruct (IH (Z.min a y)) as [H1 H2]. split; [lia|].
    intros x [<-|Hx]; [lia | auto].
Qed.

Lemma fold_max_ge (l : list Z) :
  forall a, a <= fold_left Z.max l a /\
            forall x, In x l -> x <= fold_left Z.max l a.
Proof.
  induction l as [|y l IH]; intros a; simpl.
  - split; [lia | intros x []].
  - destruct (IH (Z.max a y)) as [H1 H2]. split; [lia|].
    intros x [<-|Hx]; [lia | auto].
Qed.

Lemma spec_box_contains (b : Bounds) (cs : list Coord) :
  let b' := spec_box b cs in
  newMinRow b' <= newMinRow b /\ newMaxRow b <= newMaxRow b' /\
  newMinCol b' <= newMinCol b /\ newMaxCol b <= newMaxCol b' /\
  forall rc, In rc cs ->
             newMinRow b' <= fst rc <= newMaxRow b' /\
             newMinCol b' <= snd rc <= newMaxCol b'.
Proof.
  unfold spec_box; simpl.
  pose proof (fold_min_le (map fst cs) (newMinRow b)) as [A1 A2].
  pose proof (fold_max_ge (map fst cs) (newMaxRow b)) as [B1 B2].
  pose proof (fold_min_le (map snd cs) (newMinCol b)) as [C1 C2].
  pose proof (fold_max_ge (map snd cs) (newMaxCol b)) as [D1 D2].
  repeat split; auto.
  - apply A2, in_map; auto.
  - apply B2, in_map; auto.
  - apply C2, in_map; auto.
  - apply D2, in_map; auto.
Qed.

(** ** One commit preserves the invariants *)

Lemma accepted_of_ok (s : GridState) (a : string) (row col : Z)
    (d : Direction) :
  canPlacePure s a row col d <> None \/ grid s = [] ->
  Accepted (grid s) a row col d.
Proof.
  intros [H|H].
  - destruct (canPlacePure s a row col d) as [chk|] eqn:E; [|congruence].
    apply canPlacePure_Some_inv in E. unfold Accepted. tauto.
  - rewrite H. unfold Accepted, occupied, cellFine, letterAtCoord. simpl.
    repeat split; intros; discriminate.
Qed.

Lemma nth_letter (a : string) (k : Z) :
  0 <= k < strlen a ->
  exists ch, nth_error (letters a) (Z.to_nat k) = Some ch.
Proof.
  intros Hk. unfold strlen in Hk.
  destruct (nth_error (letters a) (Z.to_nat k)) as [ch|] eqn:E; eauto.
  apply nth_error_None in E. rewrite letters_length in E. lia.
Qed.

Lemma lettersInGrid_occupied (g : list (Coord * ascii)) (p : Placed) (k : Z) :
  lettersInGrid g p -> 0 <= k < strlen (p_answer p) ->
  occupied g (wordCell p k).
Proof.
  intros Hl Hk. destruct (nth_letter _ _ Hk) as (ch & Hch).
  apply Hl in Hch. rewrite Z2Nat.id in Hch by lia.
  apply occupied_iff. eauto.
Qed.

Lemma accepted_sides (g : list (Coord * ascii)) (a : string) (row col : Z)
    (d : Direction) (k : Z) :
  Accepted g a row col d -> 0 <= k < strlen a ->
  ~ occupied g (cellOf d row col k) ->
  ~ occupied g (fst (sideCells d (cellOf d row col k))) /\
  ~ occupied g (snd (sideCells d (cellOf d row col k))).
Proof.
  intros (_ & _ & Hf) Hk Hno. destruct (nth_letter _ _ Hk) as (ch & Hch).
  apply Hf in Hch. rewrite Z2Nat.id in Hch by lia.
  unfold cellFine in Hch. apply not_occupied_iff in Hno.
  rewrite Hno in Hch. exact Hch.
Qed.

(** No cell of an accepted, no longer word is the cell before or after an
    earlier word. *)
Lemma ends_not_covered (g : list (Coord * ascii)) (p : Placed) (a : string)
    (row col : Z) (d : Direction) (k : Z) :
  Accepted g a row col d ->
  lettersInGrid g p -> endsFree g p ->
  0 < strlen (p_answer p) -> strlen a <= strlen (p_answer p) ->
  0 <= k < strlen a ->
  cellOf d row col k <> wordCell p (-1) /\
  cellOf d row col k <> wordCell p (strlen (p_answer p)).
Proof.
  intros Hacc Hl He Hpos Hle Hk.
  destruct (He Hpos) as [Hpb Hpe].
  pose proof (fun j => lettersInGrid_occupied g p j Hl) as Hocc.
  pose proof (accepted_sides g a row col d k Hacc Hk) as Hside.
  destruct Hacc as (Hb & Ha & _).
  destruct p as [pi pr pc pd pa]. unfold wordCell in *. simpl in *.
  set (lp := strlen pa) in *. set (lw := strlen a) in *.
  split; intros Heq; rewrite Heq in Hside;
    destruct pd, d; simpl in *; inversion Heq; subst.
  - apply Ha. specialize (Hocc (lw - k - 1)).
    replace (pc + (lw - k - 1)) with (col + lw) in Hocc by lia.
    apply Hocc. lia.
  - destruct (Hside Hpb) as [_ H2]. apply H2. specialize (Hocc 0).
    replace (pc + 0) with (pc + -1 + 1) in Hocc by lia. apply Hocc. lia.
  - destruct (Hside Hpb) as [_ H2]. apply H2. specialize (Hocc 0).
    replace (pr + 0) with (pr + -1 + 1) in Hocc by lia. apply Hocc. lia.
  - apply Ha. specialize (Hocc (lw - k - 1)).
    replace (pr + (lw - k - 1)) with (row + lw) in Hocc by lia.
    apply Hocc. lia.
  - apply Hb. specialize (Hocc (lp - k - 1)).
    replace (pc + (lp - k - 1)) with (col + -1) in Hocc by lia.
    apply Hocc. lia.
  - destruct (Hside Hpe) as [H1 _]. apply H1. specialize (Hocc (lp - 1)).
    replace (pc + (lp - 1)) with (pc + lp - 1) in Hocc by lia.
    apply Hocc. lia.
  - destruct (Hside Hpe) as [H1 _]. apply H1. specialize (Hocc (lp - 1)).
    replace (pr + (lp - 1)) with (pr + lp - 1) in Hocc by lia.
    apply Hocc. lia.
  - apply Hb. specialize (Hocc (lp - k - 1)).
    replace (pr + (lp - k - 1)) with (row + -1) in Hocc by lia.
    apply Hocc. lia.
Qed.

Lemma commit_letters_old (g : list (Coord * ascii)) (p : Placed) (a : string)
    (row col : Z) (d : Direction) :
  Accepted g a row col d -> lettersInGrid g p ->
  lettersInGrid (writeCells d row col (letters a) 0 g) p.
Proof.
  intros (_ & _ & Hf) Hl j ch Hj. specialize (Hl j ch Hj).
  destruct (cellsFrom_dec d row col 0 (List.length (letters a))
              (wordCell p (Z.of_nat j))) as [(k & Hk & Heq)|Hout].
  - rewrite Heq.
    destruct (nth_error (letters a) k) as [c|] eqn:Ec;
      [| apply nth_error_None in Ec; lia].
    rewrite (writeCells_get_in d row col (letters a) 0 g k c Ec).
    specialize (Hf k c Ec). unfold cellFine in Hf.
    simpl in Heq. rewrite <- Heq, Hl in Hf. congruence.
  - rewrite writeCells_get_out; auto.
Qed.

Lemma commit_letters_new (g : list (Coord * ascii)) (i : nat) (a : string)
    (row col : Z) (d : Direction) :
  lettersInGrid (writeCells d row col (letters a) 0 g) (mkPlaced i row col d a).
Proof.
  intros j ch Hj. unfold wordCell. simpl in *.
  apply (writeCells_get_in d row col (letters a) 0 g j ch Hj).
Qed.

Lemma commit_ends_old (g : list (Coord * ascii)) (p : Placed) (a : string)
    (row col : Z) (d : Direction) :
  Accepted g a row col d -> lettersInGrid g p -> endsFree g p ->
  strlen a <= strlen (p_answer p) ->
  endsFree (writeCells d row col (letters a) 0 g) p.
Proof.
  intros Hacc Hl He Hle Hpos. destruct (He Hpos) as [Hb Ha].
  assert (Hcov : forall k, (k < List.length (letters a))%nat ->
            cellOf d row col (0 + Z.of_nat k) <> wordCell p (-1) /\
            cellOf d row col (0 + Z.of_nat k)
            <> wordCell p (strlen (p_answer p))).
  { intros k Hk. apply ends_not_covered with (g := g) (a := a); auto.
    rewrite letters_length in Hk. unfold strlen. lia. }
  split; intros Ho; apply writeCells_occupied in Ho;
    destruct Ho as [Ho | (k & Hk & Heq)]; auto;
    destruct (Hcov k Hk) as [H1 H2]; congruence.
Qed.

Lemma commit_ends_new (g : list (Coord * ascii)) (i : nat) (a : string)
    (row col : Z) (d : Direction) :
  Accepted g a row col d ->
  endsFree (writeCells d row col (letters a) 0 g) (mkPlaced i row col d a).
Proof.
  intros (Hb & Ha & _) _. unfold wordCell. simpl.
  split; intros Ho; apply writeCells_occupied in Ho;
    destruct Ho as [Ho | (k & Hk & Heq)]; auto;
    apply cellOf_inj in Heq; rewrite letters_length in Hk;
    unfold strlen in Heq; lia.
Qed.

Lemma commit_bounds (s s' : GridState) (a : string) (row col : Z)
    (d : Direction) :
  inBounds s ->
  grid s' = writeCells d row col (letters a) 0 (grid s) ->
  stateBounds s' = spec_box (stateBounds s) (placementCells a row col d) ->
  inBounds s'.
Proof.
  intros (Hr & Hc & Hin) Hg Hb.
  pose proof (spec_box_contains (stateBounds s) (placementCells a row col d))
    as Hbox.
  rewrite <- Hb in Hbox. unfold stateBounds in Hbox. simpl in Hbox.
  destruct Hbox as (B1 & B2 & B3 & B4 & Hcells).
  repeat split; try lia; rewrite Hg in H; apply writeCells_In in H;
    simpl in H; rewrite <- placementCells_cellsFrom in H;
    destruct H as [H|H];
    try (apply Hin in H; lia); apply Hcells in H; lia.
Qed.

Lemma letters_inj (a b : string) : letters a = letters b -> a = b.
Proof.
  unfold letters. intros H.
  rewrite <- (string_of_list_ascii_of_string a),
          <- (string_of_list_ascii_of_string b), H.
  reflexivity.
Qed.

(** A word accepted on top of an earlier word with the same start and
    direction, and no longer than it, is that word. *)
Lemma accepted_same_start (g : list (Coord * ascii)) (p : Placed) (a : string) :
  Accepted g a (row p) (col p) (dir p) ->
  lettersInGrid g p ->
  strlen a <= strlen (p_answer p) ->
  p_answer p = a.
Proof.
  intros (_ & Ha & Hf) Hl Hle.
  assert (Hlen : strlen a = strlen (p_answer p)).
  { destruct (Z.eq_dec (strlen a) (strlen (p_answer p))) as [|Hne]; auto.
    exfalso. apply Ha.
    apply (lettersInGrid_occupied g p (strlen a) Hl).
    unfold strlen in *. lia. }
  apply letters_inj. apply nth_error_ext. intros n.
  destruct (nth_error (letters a) n) as [c|] eqn:Ec.
  - specialize (Hf n c Ec). unfold cellFine in Hf.
    destruct (nth_error (letters (p_answer p)) n) as [c'|] eqn:Ec'.
    + specialize (Hl n c' Ec'). unfold wordCell in Hl.
      rewrite Hl in Hf. congruence.
    + apply nth_error_None in Ec'.
      assert (n < List.length (letters a))%nat
        by (apply nth_error_Some; congruence).
      rewrite letters_length in *. unfold strlen in Hlen. lia.
  - apply nth_error_None in Ec. apply nth_error_None.
    rewrite letters_length in *. unfold strlen in Hlen. lia.
Qed.

Lemma commit_starts (g : list (Coord * ascii)) (ps : list Placed) (i : nat)
    (a : string) (row col : Z) (d : Direction) :
  Accepted g a row col d ->
  Forall (lettersInGrid g) ps ->
  (forall p, In p ps -> strlen a <= strlen (p_answer p)) ->
  sameStartSameAnswer ps ->
  sameStartSameAnswer (ps ++ [mkPlaced i row col d a]).
Proof.
  intros Hacc Hl Hle Hss.
  assert (Hold : forall p, In p ps -> startOf p = (row, col, d) ->
                           p_answer p = a).
  { intros p Hin Hst. unfold startOf in Hst. inversion Hst; subst.
    apply accepted_same_start with (g := g); auto.
    rewrite Forall_forall in Hl. auto. }
  intros p q Hp Hq Hst.
  apply in_app_iff in Hp. apply in_app_iff in Hq.
  destruct Hp as [Hp|[<-|[]]]; destruct Hq as [Hq|[<-|[]]]; simpl in *; auto.
  symmetry. apply Hold; auto.
Qed.

Lemma writeCells_keys (d : Direction) (row col : Z) (chars : list ascii) :
  forall (i : Z) (g : list (Coord * ascii)),
    NoDup (map fst g) -> NoDup (map fst (writeCells d row col chars i g)).
Proof.
  induction chars as [|ch rest IH]; intros i g H; simpl; auto.
  apply IH. apply set_keys_NoDup; auto. apply Coord_eqb_iff.
Qed.

Lemma accepted_word_nonempty (s : GridState) (a : string) (row col : Z)
    (d : Direction) :
  canPlacePure s a row col d <> None \/ grid s = [] ->
  grid s <> [] -> 0 < strlen a.
Proof.
  intros [H|H] Hne; [|contradiction].
  destruct (canPlacePure s a row col d) as [chk|] eqn:E; [|congruence].
  apply canPlacePure_Some_inv in E.
  destruct E as (_ & _ & _ & Hi & _ & _ & [Hg|Hi0]); [contradiction|].
  destruct a; [|unfold strlen; simpl; lia].
  exfalso. apply Hi0. rewrite Hi. reflexivity.
Qed.

Lemma commit_inv (entries : list Entry) (s s' : GridState) (i : nat)
    (e : Entry) (row col : Z) (d : Direction) (u : unit) :
  GridInv entries s ->
  nth_error entries i = Some e ->
  (forall p, In p (placed s) -> strlen (answer e) <= strlen (p_answer p)) ->
  placeWordAt i (answer e) row col d s = inr (u, s') ->
  GridInv entries s' /\
  placed s' = placed s ++ [mkPlaced i row col d (answer e)].
Proof.
  intros [Hl He Hb Hen Hst Hk Hne] Hnth Hle Hp.
  apply placeWordAt_inv in Hp. destruct Hp as (Hok & Hg & Hpl & Hbox).
  pose proof (accepted_word_nonempty s (answer e) row col d Hok) as Hlen.
  apply accepted_of_ok in Hok.
  split; auto. constructor; rewrite ?Hg, ?Hpl.
  - apply Forall_app. split.
    + rewrite Forall_forall in *. intros p Hin.
      apply commit_letters_old; auto.
    + constructor; [apply commit_letters_new | constructor].
  - apply Forall_app. split.
    + rewrite Forall_forall in *. intros p Hin.
      apply commit_ends_old; auto.
    + constructor; [apply commit_ends_new; auto | constructor].
  - eapply commit_bounds; eauto.
  - apply Forall_app. split; auto.
    constructor; [|constructor]. exists e. split; auto.
  - eapply commit_starts; eauto.
  - apply writeCells_keys; auto.
  - intros Hne'. apply Forall_app.
    destruct (grid s) as [|kv g] eqn:Eg.
    + assert (Hpos : 0 < strlen (answer e)).
      { destruct (answer e) eqn:Ea; [|unfold strlen; simpl; lia].
        simpl in Hne'. contradiction. }
      split; [|constructor; [exact Hpos | constructor]].
      rewrite Forall_forall. intros p Hin. specialize (Hle p Hin). lia.
    + split; [apply Hne; discriminate|].
      constructor; [|constructor]. apply Hlen. discriminate.
Qed.

(** ** [bestPlacement] reads, and never writes *)

Lemma tryCell_run (a : string) (i gr gc : Z) (best : option Best)
    (s : GridState) :
  exists x, tryCell a i gr gc best s = inr (x, s).
Proof.
  unfold tryCell, bind. rewrite canPlace_run, canPlace_run.
  eexists. reflexivity.
Qed.

Lemma cellsLoop_run (a : string) (i : Z) (ch : ascii)
    (cells : list (Coord * ascii)) :
  forall (best : option Best) (s : GridState),
  exists x, cellsLoop a i ch cells best s = inr (x, s).
Proof.
  induction cells as [|[[gr gc] cellCh] rest IH]; intros best s; simpl.
  - eexists; reflexivity.
  - destruct (negb (Ascii.eqb cellCh ch)); auto.
    unfold bind. destruct (tryCell_run a i gr gc best s) as (x & ->).
    apply IH.
Qed.

Lemma charsLoop_run (a : string) (chars : list ascii)
    (cells : list (Coord * ascii)) :
  forall (i : Z) (best : option Best) (s : GridState),
  exists x, charsLoop a chars i cells best s = inr (x, s).
Proof.
  induction chars as [|ch rest IH]; intros i best s; simpl.
  - eexists; reflexivity.
  - unfold bind. destruct (cellsLoop_run a i ch cells best s) as (x & ->).
    apply IH.
Qed.

Lemma bestPlacement_run (a : string) (s : GridState) :
  exists x, bestPlacement a s = inr (x, s).
Proof.
  unfold bestPlacement, bind, readState.
  destruct (List.length (grid s) =? 0)%nat.
  - eexists; reflexivity.
  - apply charsLoop_run.
Qed.

(** ** The order of placement *)

Lemma insertItem_perm (x : OrderItem) (l : list OrderItem) :
  Permutation (insertItem x l) (x :: l).
Proof.
  induction l as [|y l IH]; simpl; auto.
  destruct (len y - len x <=? 0); auto.
  rewrite IH. apply perm_swap.
Qed.

Lemma sortOrder_perm (l : list OrderItem) : Permutation (sortOrder l) l.
Proof.
  induction l as [|x l IH]; simpl; auto.
  rewrite insertItem_perm. auto.
Qed.

Lemma insertItem_sorted (x : OrderItem) (l : list OrderItem) :
  StronglySorted lenDesc l -> StronglySorted lenDesc (insertItem x l).
Proof.
  induction l as [|y l IH]; intros Hs; simpl.
  - constructor; constructor.
  - inversion Hs as [|? ? Hs' Hall]; subst.
    destruct (Z.leb_spec (len y - len x) 0).
    + constructor; auto. constructor.
      * unfold lenDesc. lia.
      * rewrite Forall_forall in *. intros z Hz. specialize (Hall z Hz).
        unfold lenDesc in *. lia.
    + constructor; auto.
      rewrite Forall_forall in *. intros z Hz.
      apply (Permutation_in _ (insertItem_perm x l)) in Hz.
      destruct Hz as [<-|Hz]; [unfold lenDesc; lia | auto].
Qed.

Lemma sortOrder_sorted (l : list OrderItem) : StronglySorted lenDesc (sortOrder l).
Proof.
  induction l as [|x l IH]; simpl.
  - constructor.
  - apply insertItem_sorted; auto.
Qed.

Lemma indexed_idx (es : list Entry) :
  forall n, map idx (indexed n es) = seq n (List.length es).
Proof.
  induction es as [|e es IH]; intros n; simpl; auto.
  rewrite IH. reflexivity.
Qed.

Lemma indexed_ok (es : list Entry) :
  forall pre, Forall (itemOK (pre ++ es)) (indexed (List.length pre) es).
Proof.
  induction es as [|e es IH]; intros pre; simpl.
  - constructor.
  - constructor.
    + exists e. simpl. split; auto.
      rewrite nth_error_app2, Nat.sub_diag; auto.
    + specialize (IH (pre ++ [e])).
      rewrite <- app_assoc, length_app in IH. simpl in IH.
      rewrite Nat.add_1_r in IH. exact IH.
Qed.

Lemma sortOrder_ok (entries : list Entry) :
  let order := sortOrder (indexed 0 entries) in
  Forall (itemOK entries) order /\
  StronglySorted lenDesc order /\
  Permutation (map idx order) (seq 0 (List.length entries)).
Proof.
  cbv zeta. repeat split.
  - rewrite Forall_forall. intros it Hin.
    apply (Permutation_in _ (sortOrder_perm _)) in Hin.
    pose proof (indexed_ok entries []) as H. simpl in H.
    rewrite Forall_forall in H. auto.
  - apply sortOrder_sorted.
  - rewrite <- indexed_idx. apply Permutation_map. apply sortOrder_perm.
Qed.

(** ** The placement loop preserves the invariants *)

Lemma placeItem_inv (entries : list Entry) (it : OrderItem)
    (s s' : GridState) (u : unit) :
  placeItem entries it s = inr (u, s') ->
  exists e row col d,
    nth_error entries (idx it) = Some e /\
    placeWordAt (idx it) (answer e) row col d s = inr (u, s').
Proof.
  unfold placeItem, bind, answerAt.
  destruct (nth_error entries (idx it)) as [e|] eqn:E; [|discriminate].
  unfold ret. destruct (bestPlacement_run (answer e) s) as (x & ->).
  unfold readState.
  destruct x as [p|]; intros H;
    exists e; do 3 eexists; split; try reflexivity; exact H.
Qed.

Lemma forEach_placeItem_inv (entries : list Entry) (rest : list OrderItem) :
  forall (s s' : GridState) (u : unit),
    forEach (placeItem entries) rest s = inr (u, s') ->
    GridInv entries s ->
    Forall (itemOK entries) rest ->
    StronglySorted lenDesc rest ->
    (forall p it, In p (placed s) -> In it rest ->
                  len it <= strlen (p_answer p)) ->
    GridInv entries s' /\
    map index (placed s') = map index (placed s) ++ map idx rest.
Proof.
  induction rest as [|it rest IH]; intros s s' u Hrun Hinv Hok Hsort Hle.
  - simpl in Hrun. inversion Hrun; subst. rewrite app_nil_r. auto.
  - simpl in Hrun. unfold bind in Hrun.
    destruct (placeItem entries it s) as [err|[u1 s1]] eqn:E1;
      [discriminate|].
    apply placeItem_inv in E1. destruct E1 as (e & row & col & d & He & Hp).
    inversion Hok as [|? ? (e' & He' & Hlen) Hok']; subst.
    rewrite He in He'. inversion He'; subst e'.
    inversion Hsort as [|? ? Hsort' Hall]; subst.
    destruct (commit_inv entries s s1 (idx it) e row col d u1 Hinv He)
      as (Hinv1 & Hpl1); auto.
    { intros p Hin. rewrite <- Hlen. apply Hle; auto. left; auto. }
    destruct (IH s1 s' u Hrun Hinv1 Hok' Hsort') as (Hinv' & Hidx).
    { intros p it' Hin Hin'. rewrite Hpl1 in Hin. apply in_app_iff in Hin.
      destruct Hin as [Hin|[<-|[]]].
      - apply Hle; auto. right; auto.
      - simpl. rewrite <- Hlen. rewrite Forall_forall in Hall.
        apply Hall; auto. }
    split; auto. rewrite Hidx, Hpl1, map_app. simpl.
    rewrite <- app_assoc. reflexivity.
Qed.

Lemma initState_inv (entries : list Entry) : GridInv entries initState.
Proof.
  constructor; simpl.
  - constructor.
  - constructor.
  - unfold inBounds; simpl. repeat split; try lia; destruct H.
  - constructor.
  - intros p q [].
  - constructor.
  - intros _. constructor.
Qed.

Lemma buildGridFrom_inv (entries : list Entry) (order : list OrderItem)
    (s : GridState) :
  Forall (itemOK entries) order ->
  StronglySorted lenDesc order ->
  buildGridFrom entries order = inr s ->
  GridInv entries s /\ map index (placed s) = map idx order.
Proof.
  intros Hok Hsort. unfold buildGridFrom.
  destruct order as [|first rest]; [discriminate|].
  unfold bind, answerAt.
  inversion Hok as [|? ? (e & He & Hlen) Hok']; subst.
  inversion Hsort as [|? ? Hsort' Hall]; subst.
  rewrite He. unfold ret.
  destruct (placeWordAt (idx first) (answer e) 0 0 across initState)
    as [err|[u1 s1]] eqn:E1; [discriminate|].
  destruct (commit_inv entries initState s1 (idx first) e 0 0 across u1
              (initState_inv entries) He) as (Hinv1 & Hpl1); auto.
  { intros p []. }
  destruct (forEach (placeItem entries) rest s1) as [err|[u2 s2]] eqn:E2;
    [discriminate|].
  intros H; inversion H; subst s2; clear H.
  destruct (forEach_placeItem_inv entries rest s1 s u2 E2 Hinv1 Hok' Hsort')
    as (Hinv' & Hidx).
  { intros p it Hin Hin'. rewrite Hpl1 in Hin. simpl in Hin.
    destruct Hin as [<-|[]]. simpl. rewrite <- Hlen.
    rewrite Forall_forall in Hall. apply Hall; auto. }
  split; auto. rewrite Hidx, Hpl1. reflexivity.
Qed.

Lemma buildGrid_inv (entries : list Entry) (s : GridState) :
  buildGrid entries = inr s ->
  GridInv entries s /\
  Permutation (map index (placed s)) (seq 0 (List.length entries)).
Proof.
  intros H. destruct (sortOrder_ok entries) as (Hok & Hsort & Hperm).
  destruct (buildGridFrom_inv entries _ s Hok Hsort H) as (Hinv & Hidx).
  split; auto. rewrite Hidx. exact Hperm.
Qed.

(** Inside [buildGrid] the fallback never succeeds on a non-empty grid:
    whenever [bestPlacement] finds nothing for an item, placing it throws. *)
Lemma placeItem_fallback_throws (entries : list Entry) (it : OrderItem)
    (e : Entry) (s : GridState) :
  GridInv entries s -> grid s <> [] ->
  nth_error entries (idx it) = Some e ->
  bestPlacement (answer e) s = inr (None, s) ->
  placeItem entries it s = inl (InvalidPlacement (answer e)).
Proof.
  intros Hinv Hne He Hbest.
  unfold placeItem, bind, answerAt. rewrite He. unfold ret.
  rewrite Hbest. unfold readState. apply fallback_throws; auto.
  intros rc ch Hin. destruct (inv_bounds _ _ Hinv) as (_ & _ & Hb).
  apply Hb in Hin. lia.
Qed.

(** ** Indexing the placements by start and direction *)

Lemma normKey_eq (mnR mnC : Z) (p q : Placed) :
  normKey mnR mnC p = normKey mnR mnC q <-> startOf p = startOf q.
Proof.
  unfold normKey, startOf. split; intros H; inversion H; f_equal; try f_equal; lia.
Qed.

Lemma indexPlacements_error (entries : list Entry) (mnR mnC : Z)
    (ps : list Placed) :
  forall m err,
    indexPlacements entries mnR mnC ps m = inl err ->
    exists k, err = DuplicateStart k.
Proof.
  induction ps as [|p ps IH]; intros m err H; simpl in H; [discriminate|].
  destruct (JsMap.has StartKey_eqb _ m).
  - inversion H. eauto.
  - eapply IH; eauto.
Qed.

Lemma indexPlacements_ok (entries : list Entry) (mnR mnC : Z)
    (ps : list Placed) :
  forall m m',
    indexPlacements entries mnR mnC ps m = inr m' ->
    NoDup (map (normKey mnR mnC) ps) /\
    (forall q, In q ps -> JsMap.has StartKey_eqb (normKey mnR mnC q) m = false) /\
    (forall k v, JsMap.get StartKey_eqb k m' = Some v ->
                 JsMap.get StartKey_eqb k m = Some v \/
                 exists p, In p ps /\ normKey mnR mnC p = k /\
                           v = mappedOf entries p).
Proof.
  induction ps as [|p ps IH]; intros m m' H; simpl in H.
  - inversion H; subst. repeat split; [constructor | intros q [] | auto].
  - fold (normKey mnR mnC p) in H. fold (mappedOf entries p) in H.
    destruct (JsMap.has StartKey_eqb (normKey mnR mnC p) m) eqn:Eh;
      [discriminate|].
    apply IH in H. destruct H as (Hnd & Hfresh & Hget).
    assert (Hrest : forall q, In q ps ->
              normKey mnR mnC q <> normKey mnR mnC p /\
              JsMap.has StartKey_eqb (normKey mnR mnC q) m = false).
    { intros q Hq. specialize (Hfresh q Hq).
      rewrite (has_set StartKey_eqb StartKey_eqb_iff) in Hfresh.
      apply orb_false_iff in Hfresh. destruct Hfresh as [Hne Hm].
      split; auto. intros Heq. rewrite Heq in Hne.
      rewrite (eqb_same StartKey_eqb StartKey_eqb_iff) in Hne. discriminate. }
    repeat split.
    + simpl. constructor; auto. intros Hin. apply in_map_iff in Hin.
      destruct Hin as (q & Heq & Hq). apply (Hrest q Hq); auto.
    + intros q [<-|Hq]; auto. apply Hrest; auto.
    + intros k v Hk. apply Hget in Hk. destruct Hk as [Hk|(q & Hq & Hkq & Hv)].
      * destruct (StartKey_eqb k (normKey mnR mnC p)) eqn:Ek.
        -- apply StartKey_eqb_iff in Ek. subst k.
           rewrite (get_set_same StartKey_eqb StartKey_eqb_iff) in Hk.
           inversion Hk; subst. right. exists p. simpl; auto.
        -- rewrite (get_set_other StartKey_eqb StartKey_eqb_iff) in Hk; auto.
           intros ->.
           rewrite (eqb_same StartKey_eqb StartKey_eqb_iff) in Ek. discriminate.
      * right. exists q. simpl; auto.
Qed.

Lemma indexPlacements_collision (entries : list Entry) (mnR mnC : Z)
    (ps : list Placed) (i j : nat) (p q : Placed) :
  i <> j -> nth_error ps i = Some p -> nth_error ps j = Some q ->
  startOf p = startOf q ->
  exists k, indexPlacements entries mnR mnC ps [] = inl (DuplicateStart k).
Proof.
  intros Hij Hp Hq Hst.
  destruct (indexPlacements entries mnR mnC ps []) as [err|m'] eqn:E.
  - apply indexPlacements_error in E. destruct E as (k & ->). eauto.
  - exfalso. apply indexPlacements_ok in E. destruct E as (Hnd & _).
    rewrite NoDup_nth_error in Hnd. apply Hij. apply Hnd.
    + rewrite length_map. apply nth_error_Some. congruence.
    + rewrite !nth_error_map, Hp, Hq. simpl. f_equal.
      apply normKey_eq; auto.
Qed.

(** ** Placements that share a start *)

Lemma placed_answers_distinct (entries : list Entry) (gi : GridState) :
  buildGrid entries = inr gi ->
  NoDup (map answer entries) ->
  NoDup (map p_answer (placed gi)).
Proof.
  intros Hb Hnd. apply buildGrid_inv in Hb.
  destruct Hb as ([_ _ _ He _ _ _] & Hperm).
  assert (Hidx : NoDup (map index (placed gi))).
  { apply (Permutation_NoDup (Permutation_sym Hperm)). apply seq_NoDup. }
  rewrite NoDup_nth_error. intros i j Hi Heq.
  rewrite length_map in Hi.
  destruct (nth_error (placed gi) i) as [p|] eqn:Ep;
    [| apply nth_error_None in Ep; lia].
  rewrite !nth_error_map, Ep in Heq. simpl in Heq.
  destruct (nth_error (placed gi) j) as [q|] eqn:Eq; [|discriminate].
  simpl in Heq. inversion Heq as [Hans].
  rewrite Forall_forall in He.
  destruct (He p (nth_error_In _ _ Ep)) as (e1 & He1 & Ha1).
  destruct (He q (nth_error_In _ _ Eq)) as (e2 & He2 & Ha2).
  assert (Hind : index p = index q).
  { rewrite NoDup_nth_error in Hnd. apply Hnd.
    - rewrite length_map. apply nth_error_Some. congruence.
    - rewrite !nth_error_map, He1, He2. simpl. congruence. }
  rewrite NoDup_nth_error in Hidx. apply Hidx.
  - rewrite length_map. apply nth_error_Some. congruence.
  - rewrite !nth_error_map, Ep, Eq. simpl. congruence.
Qed.

(** C3, as amended.  Whenever [buildGrid] succeeds, two placements with the
    same start row, start column and direction carry the same answer, so
    for pairwise distinct answers no two placements share such a triple;
    and when two placements do share one, [buildJson] throws the duplicate
    start error while it indexes the placements. *)
Theorem shared_start_means_same_answer (entries : list Entry) (gi : GridState) :
  buildGrid entries = inr gi ->
  (forall p q, In p (placed gi) -> In q (placed gi) ->
               startOf p = startOf q -> p_answer p = p_answer q) /\
  (NoDup (map answer entries) -> NoDup (map startOf (placed gi))) /\
  (forall i j p q,
      i <> j ->
      nth_error (placed gi) i = Some p -> nth_error (placed gi) j = Some q ->
      startOf p = startOf q ->
      exists k, buildJson entries gi = inl (DuplicateStart k)).
Proof.
  intros Hb. pose proof (buildGrid_inv entries gi Hb) as (Hinv & Hperm).
  repeat split.
  - apply (inv_starts _ _ Hinv).
  - intros Hnd. pose proof (placed_answers_distinct entries gi Hb Hnd) as Ha.
    rewrite NoDup_nth_error in *. intros i j Hi Heq.
    rewrite length_map in Hi. apply Ha; [rewrite length_map; auto|].
    destruct (nth_error (placed gi) i) as [p|] eqn:Ep;
      [| apply nth_error_None in Ep; lia].
    rewrite !nth_error_map, Ep in *. simpl in *.
    destruct (nth_error (placed gi) j) as [q|] eqn:Eq; [|discriminate].
    simpl in *. f_equal.
    assert (Hst : startOf p = startOf q) by congruence.
    apply (inv_starts _ _ Hinv); eauto using nth_error_In.
  - intros i j p q Hij Hp Hq Hst. unfold buildJson.
    destruct (indexPlacements_collision entries (minRow gi) (minCol gi)
                (placed gi) i j p q Hij Hp Hq Hst) as (k & ->).
    exists k. reflexivity.
Qed.

Lemma shared_start_means_same_answer_witness :
  buildGrid catCat = inr catCatGrid /\
  exists k, buildJson catCat catCatGrid = inl (DuplicateStart k).
Proof.
  split; [reflexivity|].
  exact (proj2 (proj2 (shared_start_means_same_answer catCat catCatGrid eq_refl))
           0%nat 1%nat (mkPlaced 0 0 0 across "CAT") (mkPlaced 1 0 0 across "CAT")
           (fun H => O_S 0 H) eq_refl eq_refl eq_refl).
Defined.

(** C3, as first stated, fails: with [CAT] entered twice, both copies are
    placed across at (0,0). *)
Lemma duplicate_answers_collide :
  ~ (forall entries gi, buildGrid entries = inr gi ->
                        NoDup (map startOf (placed gi))).
Proof.
  intros H. specialize (H catCat catCatGrid eq_refl).
  simpl in H. inversion H as [|? ? Hnin _]; subst.
  apply Hnin. left. reflexivity.
Qed.

(** ** Loops over a range *)

Lemma zrange_nth (n : Z) (i : nat) :
  (i < Z.to_nat n)%nat -> nth_error (zrange n) i = Some (Z.of_nat i).
Proof.
  intros H. unfold zrange. rewrite nth_error_map, nth_error_seq.
  destruct (Nat.ltb_spec i (Z.to_nat n)); [reflexivity | lia].
Qed.

Lemma zrange_length (n : Z) : List.length (zrange n) = Z.to_nat n.
Proof. unfold zrange. rewrite length_map, length_seq. reflexivity. Qed.

Lemma forEachR_seq {St : Type} (f : Z -> St -> Result St) (P : Z -> St -> Prop)
    (k : nat) :
  forall (a : nat) (s s' : St),
    (forall i t t', Z.of_nat a <= i < Z.of_nat (a + k) ->
                    P i t -> f i t = inr t' -> P (i + 1) t') ->
    P (Z.of_nat a) s ->
    forEachR f (map Z.of_nat (seq a k)) s = inr s' ->
    P (Z.of_nat (a + k)) s'.
Proof.
  induction k as [|k IH]; intros a s s' Hstep Hs Hrun; simpl in Hrun.
  - inversion Hrun; subst. rewrite Nat.add_0_r. exact Hs.
  - destruct (f (Z.of_nat a) s) as [err|s1] eqn:E; [discriminate|].
    replace (a + S k)%nat with (S a + k)%nat by lia.
    apply (IH (S a) s1 s'); auto.
    + intros i t t' Hi. apply Hstep. lia.
    + replace (Z.of_nat (S a)) with (Z.of_nat a + 1) by lia.
      apply (Hstep (Z.of_nat a) s s1); auto. lia.
Qed.

Lemma forEachR_zrange {St : Type} (f : Z -> St -> Result St) (P : Z -> St -> Prop)
    (n : Z) (s s' : St) :
  (forall i t t', 0 <= i < n -> P i t -> f i t = inr t' -> P (i + 1) t') ->
  P 0 s ->
  forEachR f (zrange n) s = inr s' ->
  P (Z.max 0 n) s'.
Proof.
  intros Hstep Hs Hrun.
  replace (Z.max 0 n) with (Z.of_nat (0 + Z.to_nat n)) by lia.
  apply (forEachR_seq f P (Z.to_nat n) 0%nat s s'); auto.
  intros i t t' Hi. apply Hstep. lia.
Qed.

(** ** The dense grid *)

Lemma updateNth_nth {A : Type} (f : A -> A) (l : list A) :
  forall (n : nat) (l' : list A) (m : nat),
    updateNth n f l = Some l' ->
    nth_error l' m = if (m =? n)%nat then option_map f (nth_error l m)
                     else nth_error l m.
Proof.
  induction l as [|x l IH]; intros n l' m H.
  - destruct n; simpl in H; discriminate.
  - destruct n as [|n]; simpl in H.
    + inversion H; subst. destruct m; reflexivity.
    + destruct (updateNth n f l) as [r|] eqn:E; [|discriminate].
      inversion H; subst.
      destruct m as [|m]; simpl; [reflexivity | apply IH; auto].
Qed.

Lemma setNumber_solution (r c num : Z) (g g' : list (list Cell)) (rc : Coord) :
  setNumber r c num g = Some g' -> solutionAt g' rc = solutionAt g rc.
Proof.
  unfold setNumber. destruct ((r <? 0) || (c <? 0)); [discriminate|].
  destruct (nth_error g (Z.to_nat r)) as [rowArr|] eqn:Er; [|discriminate].
  destruct (updateNth (Z.to_nat c) _ rowArr) as [rowArr'|] eqn:Ec;
    [|discriminate].
  intros H. unfold solutionAt.
  rewrite (updateNth_nth _ _ _ _ (Z.to_nat (fst rc)) H).
  destruct (Nat.eqb_spec (Z.to_nat (fst rc)) (Z.to_nat r)) as [Heq|Hne]; auto.
  rewrite Heq, Er. simpl.
  rewrite (updateNth_nth _ _ _ _ (Z.to_nat (snd rc)) Ec).
  destruct (Nat.eqb_spec (Z.to_nat (snd rc)) (Z.to_nat c)) as [Heq'|Hne']; auto.
  rewrite Heq'. destruct (nth_error rowArr (Z.to_nat c)); reflexivity.
Qed.

Lemma denseGrid_solution (letterAt : list (Coord * ascii)) (nrows ncols : Z)
    (r c : Z) :
  0 <= r < nrows -> 0 <= c < ncols ->
  solutionAt (denseGrid letterAt nrows ncols) (r, c)
  = JsMap.get Coord_eqb (r, c) letterAt.
Proof.
  intros Hr Hc. unfold solutionAt, denseGrid. simpl.
  rewrite nth_error_map, zrange_nth by lia. simpl.
  rewrite nth_error_map, zrange_nth by lia. simpl.
  rewrite !Z2Nat.id by lia. unfold denseCell.
  destruct (JsMap.get Coord_eqb (r, c) letterAt); reflexivity.
Qed.

(** ** The normalised letters *)

Lemma normalize_get_acc (mnR mnC : Z) (g : list (Coord * ascii)) :
  forall (acc : list (Coord * ascii)) (r c : Z),
    NoDup (map fst g) ->
    JsMap.get Coord_eqb (r, c)
      (fold_left
         (fun m kv => JsMap.set Coord_eqb
                        (fst (fst kv) - mnR, snd (fst kv) - mnC) (snd kv) m)
         g acc)
    = match JsMap.get Coord_eqb (r + mnR, c + mnC) g with
      | Some v => Some v
      | None => JsMap.get Coord_eqb (r, c) acc
      end.
Proof.
  induction g as [|[[r0 c0] v0] g IH]; intros acc r c Hnd; simpl; auto.
  inversion Hnd as [|? ? Hnin Hnd']; subst.
  rewrite IH by auto.
  destruct (Coord_eqb (r + mnR, c + mnC) (r0, c0)) eqn:E.
  - apply Coord_eqb_iff in E. inversion E; subst.
    assert (Hn : JsMap.get Coord_eqb (r + mnR, c + mnC) g = None).
    { apply (get_None_keys Coord_eqb Coord_eqb_iff). exact Hnin. }
    rewrite Hn.
    replace (r + mnR - mnR) with r by lia.
    replace (c + mnC - mnC) with c by lia.
    apply get_set_same. apply Coord_eqb_iff.
  - destruct (JsMap.get Coord_eqb (r + mnR, c + mnC) g); auto.
    apply get_set_other; [apply Coord_eqb_iff|].
    intros Heq. inversion Heq; subst.
    replace (r0 - mnR + mnR) with r0 in E by lia.
    replace (c0 - mnC + mnC) with c0 in E by lia.
    rewrite Coord_eqb_refl in E. discriminate.
Qed.

Lemma normalize_get (mnR mnC : Z) (g : list (Coord * ascii)) (r c : Z) :
  NoDup (map fst g) ->
  JsMap.get Coord_eqb (r, c) (normalize mnR mnC g)
  = gridGet g (r + mnR) (c + mnC).
Proof.
  intros H. unfold normalize, gridGet. rewrite normalize_get_acc by auto.
  destruct (JsMap.get Coord_eqb (r + mnR, c + mnC) g); reflexivity.
Qed.

Lemma normalize_has (mnR mnC : Z) (g : list (Coord * ascii)) (r c : Z) :
  NoDup (map fst g) ->
  hasLetter (normalize mnR mnC g) r c = gridHas g (r + mnR) (c + mnC).
Proof.
  intros H. unfold hasLetter, gridHas, JsMap.has.
  rewrite normalize_get by auto. reflexivity.
Qed.

(** ** Sets of indices *)

Lemma JsSet_has_In (n : nat) (s : list nat) : JsSet.has n s = true <-> In n s.
Proof.
  unfold JsSet.has. rewrite existsb_exists. split.
  - intros (x & Hx & Heq). apply Nat.eqb_eq in Heq. subst; auto.
  - intros H. exists n. split; auto. apply Nat.eqb_refl.
Qed.

Lemma JsSet_In_add (i n : nat) (s : list nat) :
  In i (JsSet.add n s) <-> In i s \/ i = n.
Proof.
  unfold JsSet.add. destruct (JsSet.has n s) eqn:E.
  - apply JsSet_has_In in E. split; [auto | intros [H| ->]; auto].
  - rewrite in_app_iff. simpl. split; intros [H|H]; auto.
    + destruct H as [<-|[]]; auto.
Qed.

Lemma JsSet_add_NoDup (n : nat) (s : list nat) :
  NoDup s -> NoDup (JsSet.add n s).
Proof.
  intros H. unfold JsSet.add. destruct (JsSet.has n s) eqn:E; auto.
  apply NoDup_app; auto.
  - constructor; [intros [] | constructor].
  - intros x Hx [<-|[]]. apply JsSet_has_In in Hx. congruence.
Qed.

(** ** The scan of the dense grid *)

Section ScanFacts.
Variable letterAt : list (Coord * ascii).
Variables nrows ncols : Z.
Variable ste : list (StartKey * Mapped).
Variable g0 : list (list Cell).

Lemma cellsFrom_next (d : Direction) (r c i : Z) (n : nat) :
  cellsFrom d r c (i + 1) n
  = match d with
    | across => cellsFrom d r (c + 1) i n
    | down => cellsFrom d (r + 1) c i n
    end.
Proof.
  unfold cellsFrom. destruct d; apply map_ext; intros j; simpl; f_equal; lia.
Qed.

Lemma takeRunLoop_exact (d : Direction) (L : nat) :
  forall (fuel : nat) (rr cc : Z),
    (L <= fuel)%nat ->
    (forall k, (k < L)%nat ->
               inRun letterAt nrows ncols (fst (cellOf d rr cc (Z.of_nat k)))
                 (snd (cellOf d rr cc (Z.of_nat k))) = true) ->
    inRun letterAt nrows ncols (fst (cellOf d rr cc (Z.of_nat L)))
      (snd (cellOf d rr cc (Z.of_nat L))) = false ->
    takeRunLoop letterAt nrows ncols fuel rr cc d = cellsFrom d rr cc 0 L.
Proof.
  induction L as [|L IH]; intros fuel rr cc Hfuel Hin Hout.
  - destruct fuel as [|fuel]; [reflexivity|]. simpl.
    assert (E : cellOf d rr cc (Z.of_nat 0) = (rr, cc))
      by (destruct d; simpl; f_equal; lia).
    rewrite E in Hout. simpl in Hout. rewrite Hout. reflexivity.
  - destruct fuel as [|fuel]; [lia|]. simpl takeRunLoop.
    assert (E : cellOf d rr cc (Z.of_nat 0) = (rr, cc))
      by (destruct d; simpl; f_equal; lia).
    pose proof (Hin 0%nat ltac:(lia)) as H0. rewrite E in H0. simpl in H0.
    rewrite H0, cellsFrom_S, cellsFrom_next.
    replace (cellOf d rr cc 0) with (rr, cc)
      by (destruct d; simpl; f_equal; lia).
    apply f_equal.
    destruct d; apply IH; try lia.
    + intros k Hk. specialize (Hin (S k) ltac:(lia)). simpl in *.
      replace (cc + 1 + Z.of_nat k) with (cc + Z.pos (Pos.of_succ_nat k)) by lia.
      exact Hin.
    + simpl in *.
      replace (cc + 1 + Z.of_nat L) with (cc + Z.pos (Pos.of_succ_nat L)) by lia.
      exact Hout.
    + intros k Hk. specialize (Hin (S k) ltac:(lia)). simpl in *.
      replace (rr + 1 + Z.of_nat k) with (rr + Z.pos (Pos.of_succ_nat k)) by lia.
      exact Hin.
    + simpl in *.
      replace (rr + 1 + Z.of_nat L) with (rr + Z.pos (Pos.of_succ_nat L)) by lia.
      exact Hout.
Qed.

Lemma inRun_true (rr cc : Z) :
  inRun letterAt nrows ncols rr cc = true <->
  0 <= rr < nrows /\ 0 <= cc < ncols /\ hasLetter letterAt rr cc = true.
Proof.
  unfold inRun. rewrite !andb_true_iff. 
  rewrite !Z.geb_le, !Z.ltb_lt. tauto.
Qed.

Lemma takeRun_exact (d : Direction) (r c : Z) (L : nat) :
  (forall k, (k < L)%nat ->
             inRun letterAt nrows ncols (fst (cellOf d r c (Z.of_nat k)))
               (snd (cellOf d r c (Z.of_nat k))) = true) ->
  inRun letterAt nrows ncols (fst (cellOf d r c (Z.of_nat L)))
    (snd (cellOf d r c (Z.of_nat L))) = false ->
  takeRun letterAt nrows ncols r c d = cellsFrom d r c 0 L.
Proof.
  intros Hin Hout. unfold takeRun. apply takeRunLoop_exact; auto.
  destruct L as [|L]; [lia|].
  specialize (Hin L ltac:(lia)). apply inRun_true in Hin.
  destruct d; simpl in Hin; lia.
Qed.

(** The [while] loop of [takeRun], one turn unfolded: the fuel never cuts a
    run short. *)
Lemma takeRun_unfold (d : Direction) (r c : Z) :
  takeRun letterAt nrows ncols r c d
  = if inRun letterAt nrows ncols r c
    then (r, c) :: match d with
                   | across => takeRun letterAt nrows ncols r (c + 1) d
                   | down => takeRun letterAt nrows ncols (r + 1) c d
                   end
    else [].
Proof.
  unfold takeRun.
  destruct (inRun letterAt nrows ncols r c) eqn:E.
  - apply inRun_true in E.
    destruct d.
    + replace (Z.to_nat (ncols - c)) with (S (Z.to_nat (ncols - (c + 1)))) by lia.
      simpl. destruct (inRun_true r c) as [_ H]. rewrite H by tauto. reflexivity.
    + replace (Z.to_nat (nrows - r)) with (S (Z.to_nat (nrows - (r + 1)))) by lia.
      simpl. destruct (inRun_true r c) as [_ H]. rewrite H by tauto. reflexivity.
  - destruct (Z.to_nat _); simpl; [|rewrite E]; reflexivity.
Qed.

Lemma takeRun_start (d : Direction) (r c : Z) :
  0 <= r < nrows -> 0 <= c < ncols -> hasLetter letterAt r c = true ->
  hd (0, 0) (takeRun letterAt nrows ncols r c d) = (r, c).
Proof.
  intros Hr Hc Hl. rewrite takeRun_unfold.
  destruct (inRun_true r c) as [_ H]. rewrite H by tauto. reflexivity.
Qed.

Lemma assignNumber_inv (r c : Z) (s s1 : ScanState) (n : Z) :
  assignNumber r c s = inr (n, s1) ->
  acrossClues s1 = acrossClues s /\ downClues s1 = downClues s /\
  usedEntries s1 = usedEntries s /\
  forall rc, solutionAt (gridJson s1) rc = solutionAt (gridJson s) rc.
Proof.
  unfold assignNumber.
  destruct (JsMap.get Coord_eqb (r, c) (numbered s)).
  - intros H; inversion H; subst. auto.
  - destruct (setNumber r c (clueNumber s) (gridJson s)) as [g|] eqn:E;
      [|discriminate].
    intros H; inversion H; subst. simpl. repeat split.
    intros rc. eapply setNumber_solution; eauto.
Qed.

Lemma emitClue_inv (r c : Z) (d : Direction) (num : Z) (s s' : ScanState) :
  emitClue letterAt nrows ncols ste r c d num s = inr s' ->
  exists mp e,
    JsMap.get StartKey_eqb (r, c, d) ste = Some mp /\
    m_entry mp = Some e /\
    s' = pushClue d (mkClue num (clue e) (takeRun letterAt nrows ncols r c d))
           (JsSet.add (m_index mp) (usedEntries s)) s.
Proof.
  unfold emitClue.
  destruct (JsMap.get StartKey_eqb (r, c, d) ste) as [mp|]; [|discriminate].
  destruct (m_entry mp) as [e|] eqn:Ee; [|discriminate].
  intros H; inversion H; subst. exists mp, e. auto.
Qed.

Lemma cluesOf_push (d d' : Direction) (cl : Clue) (used : list nat)
    (s : ScanState) :
  cluesOf d' (pushClue d cl used s)
  = cluesOf d' s ++ (if Direction_eqb d' d then [cl] else []).
Proof. destruct d, d'; simpl; rewrite ?app_nil_r; reflexivity. Qed.

Lemma ClueOK_mono (used used' : list nat) (d : Direction) (cl : Clue) :
  (forall i, In i used -> In i used') ->
  ClueOK letterAt nrows ncols ste used d cl ->
  ClueOK letterAt nrows ncols ste used' d cl.
Proof.
  intros Hsub (mp & e & H). exists mp, e. intuition.
Qed.

Lemma push_ScanInv (r c : Z) (d : Direction) (num : Z) (mp : Mapped)
    (e : Entry) (s : ScanState) :
  0 <= r < nrows -> 0 <= c < ncols ->
  hasLetter letterAt r c = true ->
  startsIn letterAt d r c = true ->
  JsMap.get StartKey_eqb (r, c, d) ste = Some mp ->
  m_entry mp = Some e ->
  ScanInv letterAt nrows ncols ste g0 s ->
  ScanInv letterAt nrows ncols ste g0
    (pushClue d (mkClue num (clue e) (takeRun letterAt nrows ncols r c d))
       (JsSet.add (m_index mp) (usedEntries s)) s).
Proof.
  intros Hr Hc Hl Hs Hget He [Hcl Hu Hnd Hg].
  set (cl := mkClue num (clue e) (takeRun letterAt nrows ncols r c d)).
  assert (Hstart : clueStart cl = (r, c))
    by (apply takeRun_start; auto).
  assert (Hused : usedEntries (pushClue d cl (JsSet.add (m_index mp) (usedEntries s)) s)
                  = JsSet.add (m_index mp) (usedEntries s))
    by (destruct d; reflexivity).
  assert (Hgrid : gridJson (pushClue d cl (JsSet.add (m_index mp) (usedEntries s)) s)
                  = gridJson s)
    by (destruct d; reflexivity).
  constructor.
  - intros d'. rewrite cluesOf_push, Hused. apply Forall_app. split.
    + eapply Forall_impl; [|apply Hcl]. intros x.
      apply ClueOK_mono. intros i Hi. apply JsSet_In_add. auto.
    + destruct (Direction_eqb d' d) eqn:Ed; [|constructor].
      apply Direction_eqb_iff in Ed. subst d'.
      constructor; [|constructor].
      exists mp, e. rewrite Hstart. simpl.
      repeat split; auto; try lia. apply JsSet_In_add. auto.
  - intros i Hi. rewrite Hused in Hi. apply JsSet_In_add in Hi.
    destruct Hi as [Hi| ->].
    + destruct (Hu i Hi) as (d' & x & Hx & Href).
      exists d', x. split; auto. rewrite cluesOf_push. apply in_app_iff. auto.
    + exists d, cl. split.
      * rewrite cluesOf_push. apply in_app_iff. right.
        rewrite (proj2 (Direction_eqb_iff d d) eq_refl). left; reflexivity.
      * unfold clueRef. rewrite Hstart.
        exact (f_equal (option_map m_index) Hget).
  - rewrite Hused. apply JsSet_add_NoDup; auto.
  - rewrite Hgrid. exact Hg.
Qed.

Lemma PosL_push (r c : Z) (l : list Clue) (cl : Clue) :
  PosL r c l -> clueStart cl = (r, c) -> PosL r (c + 1) (l ++ [cl]).
Proof.
  intros [Hnd Hb] Hs. split.
  - rewrite map_app. simpl. apply NoDup_app; auto.
    + constructor; [intros [] | constructor].
    + intros x Hx [<-|[]]. apply in_map_iff in Hx.
      destruct Hx as (y & Hy & Hin). rewrite Forall_forall in Hb.
      specialize (Hb y Hin). rewrite Hy, Hs in Hb.
      unfold before in Hb. simpl in Hb. lia.
  - apply Forall_app. split.
    + eapply Forall_impl; [|apply Hb]. intros x. unfold before. lia.
    + constructor; [|constructor]. rewrite Hs. unfold before. simpl. lia.
Qed.

Lemma PosL_weaken (r c r' c' : Z) (l : list Clue) :
  PosL r c l -> r < r' \/ (r = r' /\ c <= c') -> PosL r' c' l.
Proof.
  intros [Hnd Hb] Hle. split; auto.
  eapply Forall_impl; [|apply Hb]. intros x. unfold before. lia.
Qed.

Lemma assign_step (r c : Z) (s s1 : ScanState) (n : Z) :
  ScanInv letterAt nrows ncols ste g0 s ->
  assignNumber r c s = inr (n, s1) ->
  ScanInv letterAt nrows ncols ste g0 s1 /\
  forall d, cluesOf d s1 = cluesOf d s.
Proof.
  intros [Hcl Hu Hnd Hg] Ha. apply assignNumber_inv in Ha.
  destruct Ha as (Ea & Ed & Eu & Esol).
  assert (Hc : forall d, cluesOf d s1 = cluesOf d s)
    by (intros []; simpl; auto).
  split; auto. constructor.
  - intros d. rewrite Hc, Eu. apply Hcl.
  - intros i Hi. rewrite Eu in Hi. destruct (Hu i Hi) as (d & cl & Hin & Hr).
    exists d, cl. rewrite Hc. auto.
  - rewrite Eu. auto.
  - intros rc. rewrite Esol. apply Hg.
Qed.

Lemma emit_step (r c : Z) (d : Direction) (num : Z) (s s' : ScanState) :
  0 <= r < nrows -> 0 <= c < ncols ->
  hasLetter letterAt r c = true ->
  startsIn letterAt d r c = true ->
  ScanInv letterAt nrows ncols ste g0 s ->
  PosL r c (cluesOf d s) ->
  emitClue letterAt nrows ncols ste r c d num s = inr s' ->
  ScanInv letterAt nrows ncols ste g0 s' /\
  PosL r (c + 1) (cluesOf d s') /\
  forall d', d' <> d -> cluesOf d' s' = cluesOf d' s.
Proof.
  intros Hr Hc Hl Hs Hinv Hpos He.
  apply emitClue_inv in He. destruct He as (mp & e & Hget & Hent & ->).
  split; [apply push_ScanInv; auto|]. split.
  - rewrite cluesOf_push, (proj2 (Direction_eqb_iff d d) eq_refl).
    apply PosL_push; auto. apply takeRun_start; auto.
  - intros d' Hne. rewrite cluesOf_push.
    destruct (Direction_eqb d' d) eqn:E.
    + apply Direction_eqb_iff in E. contradiction.
    + apply app_nil_r.
Qed.

Lemma scanCell_step (r c : Z) (s s' : ScanState) :
  0 <= r < nrows -> 0 <= c < ncols ->
  ScanAt letterAt nrows ncols ste g0 r c s ->
  scanCell letterAt nrows ncols ste r c s = inr s' ->
  ScanAt letterAt nrows ncols ste g0 r (c + 1) s'.
Proof.
  intros Hr Hc [Hinv Hpos] Hrun.
  assert (Hkeep : ScanAt letterAt nrows ncols ste g0 r (c + 1) s).
  { split; auto. intros d. apply (PosL_weaken r c); auto. lia. }
  unfold scanCell in Hrun.
  destruct (hasLetter letterAt r c) eqn:El; simpl in Hrun;
    [|inversion Hrun; subst; auto].
  destruct (startsAcross letterAt r c) eqn:Ea;
    destruct (startsDown letterAt r c) eqn:Ed; simpl in Hrun;
    try (inversion Hrun; subst; exact Hkeep);
    destruct (assignNumber r c s) as [err|[n s1]] eqn:En;
    simpl in Hrun; try discriminate;
    destruct (assign_step r c s s1 n Hinv En) as (Hinv1 & Hc1).
  - destruct (emitClue letterAt nrows ncols ste r c across n s1)
      as [err|s2] eqn:E2; simpl in Hrun; [discriminate|].
    destruct (emit_step r c across n s1 s2 Hr Hc El Ea Hinv1) as (Hinv2 & Hp2 & Hc2);
      auto.
    { rewrite Hc1. apply Hpos. }
    destruct (emit_step r c down n s2 s' Hr Hc El Ed Hinv2) as (Hinv3 & Hp3 & Hc3);
      auto.
    { rewrite Hc2, Hc1 by discriminate. apply Hpos. }
    split; auto. intros [|]; auto.
    rewrite Hc3 by discriminate. exact Hp2.
  - destruct (emitClue letterAt nrows ncols ste r c across n s1)
      as [err|s2] eqn:E2; simpl in Hrun; [discriminate|].
    inversion Hrun; subst s2.
    destruct (emit_step r c across n s1 s' Hr Hc El Ea Hinv1) as (Hinv2 & Hp2 & Hc2);
      auto.
    { rewrite Hc1. apply Hpos. }
    split; auto. intros [|]; auto.
    rewrite Hc2, Hc1 by discriminate. apply (PosL_weaken r c); auto. lia.
  - destruct (emit_step r c down n s1 s' Hr Hc El Ed Hinv1) as (Hinv2 & Hp2 & Hc2);
      auto.
    { rewrite Hc1. apply Hpos. }
    split; auto. intros [|]; auto.
    rewrite Hc2, Hc1 by discriminate. apply (PosL_weaken r c); auto. lia.
Qed.

Lemma scanRow_step (r : Z) (s s' : ScanState) :
  0 <= r < nrows ->
  ScanAt letterAt nrows ncols ste g0 r 0 s ->
  forEachR (scanCell letterAt nrows ncols ste r) (zrange ncols) s = inr s' ->
  ScanAt letterAt nrows ncols ste g0 (r + 1) 0 s'.
Proof.
  intros Hr Hs Hrun.
  pose proof (forEachR_zrange (scanCell letterAt nrows ncols ste r)
                (fun c t => ScanAt letterAt nrows ncols ste g0 r c t)
                ncols s s') as H.
  simpl in H. destruct H as [Hinv Hpos]; auto.
  - intros c t t' Hc. apply scanCell_step; auto.
  - split; auto. intros d. apply (PosL_weaken r (Z.max 0 ncols)); auto. lia.
Qed.

Lemma scan_inv (s s' : ScanState) :
  ScanAt letterAt nrows ncols ste g0 0 0 s ->
  scan letterAt nrows ncols ste s = inr s' ->
  ScanInv letterAt nrows ncols ste g0 s' /\
  forall d, NoDup (map clueStart (cluesOf d s')).
Proof.
  intros Hs Hrun. unfold scan in Hrun.
  pose proof (forEachR_zrange
                (fun r => forEachR (scanCell letterAt nrows ncols ste r)
                            (zrange ncols))
                (fun r t => ScanAt letterAt nrows ncols ste g0 r 0 t)
                nrows s s') as H.
  simpl in H. destruct H as [Hinv Hpos]; auto.
  - intros r t t' Hr. apply scanRow_step; auto.
  - split; auto. intros d. apply (Hpos d).
Qed.

End ScanFacts.

Lemma scan_start_inv (letterAt : list (Coord * ascii)) (nrows ncols : Z)
    (ste : list (StartKey * Mapped)) (g0 : list (list Cell)) :
  ScanAt letterAt nrows ncols ste g0 0 0 (mkScan 1 [] [] [] [] g0).
Proof.
  split.
  - constructor; simpl.
    + intros []; constructor.
    + intros i [].
    + constructor.
    + reflexivity.
  - intros []; split; simpl; constructor.
Qed.

(** ** From the placement engine to the grid compiler *)

Section Pipeline.
Variable entries : list Entry.
Variable gi : GridState.
Hypothesis Hinv : GridInv entries gi.

Let mnR : Z := minRow gi.
Let mnC : Z := minCol gi.
Let NR : Z := maxRow gi - minRow gi + 1.
Let NC : Z := maxCol gi - minCol gi + 1.
Let LA : list (Coord * ascii) := normalize (minRow gi) (minCol gi) (grid gi).

Lemma pl_has (r c : Z) :
  hasLetter LA r c = gridHas (grid gi) (r + mnR) (c + mnC).
Proof. apply normalize_has. apply (inv_keys _ _ Hinv). Qed.

Lemma pl_get (r c : Z) :
  JsMap.get Coord_eqb (r, c) LA = gridGet (grid gi) (r + mnR) (c + mnC).
Proof. apply normalize_get. apply (inv_keys _ _ Hinv). Qed.

Lemma pl_norm_cell (p : Placed) (i : Z) :
  cellOf (dir p) (row p - mnR) (col p - mnC) i
  = (fst (wordCell p i) - mnR, snd (wordCell p i) - mnC).
Proof. unfold wordCell. destruct (dir p); simpl; f_equal; lia. Qed.

Lemma pl_occupied_inRun (rc : Coord) :
  occupied (grid gi) rc ->
  inRun LA NR NC (fst rc - mnR) (snd rc - mnC) = true.
Proof.
  intros Ho. apply inRun_true. rewrite pl_has.
  replace (fst rc - mnR + mnR) with (fst rc) by lia.
  replace (snd rc - mnC + mnC) with (snd rc) by lia.
  split; [|split]; auto.
  - apply gridHas_In in Ho. destruct Ho as (ch & Hin).
    rewrite <- surjective_pairing in Hin.
    destruct (inv_bounds _ _ Hinv) as (_ & _ & Hb).
    apply Hb in Hin. unfold mnR, NR. lia.
  - apply gridHas_In in Ho. destruct Ho as (ch & Hin).
    rewrite <- surjective_pairing in Hin.
    destruct (inv_bounds _ _ Hinv) as (_ & _ & Hb).
    apply Hb in Hin. unfold mnC, NC. lia.
Qed.

Lemma pl_free_not_inRun (rc : Coord) :
  ~ occupied (grid gi) rc ->
  inRun LA NR NC (fst rc - mnR) (snd rc - mnC) = false.
Proof.
  intros Hno.
  destruct (inRun LA NR NC (fst rc - mnR) (snd rc - mnC)) eqn:E; auto.
  exfalso. apply Hno. apply inRun_true in E. destruct E as (_ & _ & E).
  rewrite pl_has in E.
  replace (fst rc - mnR + mnR) with (fst rc) in E by lia.
  replace (snd rc - mnC + mnC) with (snd rc) in E by lia.
  exact E.
Qed.

(** The run that starts where a placed word starts is that word. *)
Lemma pl_run (p : Placed) :
  In p (placed gi) -> grid gi <> [] ->
  takeRun LA NR NC (row p - mnR) (col p - mnC) (dir p)
  = cellsFrom (dir p) (row p - mnR) (col p - mnC) 0
      (List.length (letters (p_answer p))).
Proof.
  intros Hin Hne.
  pose proof (inv_letters _ _ Hinv) as Hl. rewrite Forall_forall in Hl.
  pose proof (inv_ends _ _ Hinv) as He. rewrite Forall_forall in He.
  pose proof (inv_nonempty _ _ Hinv Hne) as Hpos. rewrite Forall_forall in Hpos.
  specialize (Hl p Hin). specialize (He p Hin). specialize (Hpos p Hin).
  simpl in Hpos. apply takeRun_exact.
  - intros k Hk. rewrite pl_norm_cell. simpl.
    apply pl_occupied_inRun. apply lettersInGrid_occupied; auto.
    rewrite letters_length in Hk. unfold strlen. lia.
  - rewrite pl_norm_cell. simpl. apply pl_free_not_inRun.
    rewrite letters_length. apply He. exact Hpos.
Qed.

Lemma pl_lookup (ste : list (StartKey * Mapped)) (k : StartKey) (mp : Mapped) :
  indexPlacements entries mnR mnC (placed gi) [] = inr ste ->
  JsMap.get StartKey_eqb k ste = Some mp ->
  exists p, In p (placed gi) /\ normKey mnR mnC p = k /\
            mp = mappedOf entries p.
Proof.
  intros Hix Hget. apply indexPlacements_ok in Hix.
  destruct Hix as (_ & _ & Hix). apply Hix in Hget.
  destruct Hget as [Hget|Hget]; [discriminate | exact Hget].
Qed.

(** The solution letters of the dense grid along a placed word. *)
Lemma pl_solution (p : Placed) (k : nat) (ch : ascii) :
  In p (placed gi) ->
  nth_error (letters (p_answer p)) k = Some ch ->
  solutionAt (denseGrid LA NR NC)
    (cellOf (dir p) (row p - mnR) (col p - mnC) (Z.of_nat k)) = Some ch.
Proof.
  intros Hin Hk.
  pose proof (inv_letters _ _ Hinv) as Hl. rewrite Forall_forall in Hl.
  specialize (Hl p Hin).
  assert (Ho : occupied (grid gi) (wordCell p (Z.of_nat k)))
    by (apply occupied_iff; eauto).
  apply pl_occupied_inRun in Ho. apply inRun_true in Ho.
  rewrite pl_norm_cell.
  rewrite denseGrid_solution by tauto.
  rewrite pl_get.
  replace (fst (wordCell p (Z.of_nat k)) - mnR + mnR)
    with (fst (wordCell p (Z.of_nat k))) by lia.
  replace (snd (wordCell p (Z.of_nat k)) - mnC + mnC)
    with (snd (wordCell p (Z.of_nat k))) by lia.
  apply (Hl k ch Hk).
Qed.

End Pipeline.

(** ** The whole build *)

Lemma buildJson_inv (entries : list Entry) (gi : GridState) (pz : Puzzle) :
  buildJson entries gi = inr pz ->
  exists ste s,
    indexPlacements entries (minRow gi) (minCol gi) (placed gi) [] = inr ste /\
    scan (normalize (minRow gi) (minCol gi) (grid gi))
         (maxRow gi - minRow gi + 1) (maxCol gi - minCol gi + 1) ste
         (mkScan 1 [] [] [] []
            (denseGrid (normalize (minRow gi) (minCol gi) (grid gi))
               (maxRow gi - minRow gi + 1) (maxCol gi - minCol gi + 1)))
    = inr s /\
    List.length (usedEntries s) = List.length entries /\
    pz = mkPuzzle "Oscars Crossword"
           (maxRow gi - minRow gi + 1) (maxCol gi - minCol gi + 1)
           (gridJson s) (acrossClues s) (downClues s).
Proof.
  unfold buildJson, bindR.
  destruct (indexPlacements entries (minRow gi) (minCol gi) (placed gi) [])
    as [err|ste]; [discriminate|].
  destruct (scan _ _ _ ste _) as [err|s] eqn:Es; [discriminate|].
  destruct (Nat.eqb_spec (List.length (usedEntries s)) (List.length entries))
    as [Heq|Hne]; simpl; [|discriminate].
  intros H; inversion H; subst. exists ste, s. repeat split; auto.
Qed.

Lemma build_inv (entries : list Entry) (pz : Puzzle) :
  build entries = inr pz ->
  exists gi, buildGrid entries = inr gi /\ buildJson entries gi = inr pz.
Proof.
  unfold build, bindR. destruct (buildGrid entries) as [err|gi];
    [discriminate|].
  intros H. exists gi. auto.
Qed.

Lemma hasLetter_nonempty (g : list (Coord * ascii)) (mnR mnC r c : Z) :
  NoDup (map fst g) ->
  hasLetter (normalize mnR mnC g) r c = true -> g <> [].
Proof.
  intros Hnd H. rewrite normalize_has in H by auto.
  intros ->. discriminate.
Qed.

(** What a clue of a compiled puzzle is, in terms of the placements: the
    clue at a start and direction belongs to the placement indexed there,
    and its cells are the cells of that placement. *)
Lemma clue_of_placement (entries : list Entry) (gi : GridState)
    (ste : list (StartKey * Mapped)) (used : list nat) (d : Direction)
    (cl : Clue) :
  GridInv entries gi ->
  indexPlacements entries (minRow gi) (minCol gi) (placed gi) [] = inr ste ->
  ClueOK (normalize (minRow gi) (minCol gi) (grid gi))
         (maxRow gi - minRow gi + 1) (maxCol gi - minCol gi + 1)
         ste used d cl ->
  exists p e,
    In p (placed gi) /\ dir p = d /\
    clueStart cl = (row p - minRow gi, col p - minCol gi) /\
    clueRef ste d cl = Some (index p) /\
    In (index p) used /\
    nth_error entries (index p) = Some e /\
    p_answer p = answer e /\
    text cl = clue e /\
    0 < strlen (answer e) /\
    startsIn (normalize (minRow gi) (minCol gi) (grid gi)) d
             (row p - minRow gi) (col p - minCol gi) = true /\
    cells cl = placementCells (answer e)
                 (row p - minRow gi) (col p - minCol gi) d.
Proof.
  intros Hinv Hix (mp & e & Hr & Hc & Hl & Hs & Hcells & Hget & He & Ht & Hu).
  destruct (pl_lookup entries gi ste _ mp Hix Hget) as (p & Hin & Hkey & ->).
  unfold normKey in Hkey. injection Hkey as Hstart Hdir.
  symmetry in Hstart.
  assert (Hrow : fst (clueStart cl) = row p - minRow gi)
    by (rewrite Hstart; reflexivity).
  assert (Hcol : snd (clueStart cl) = col p - minCol gi)
    by (rewrite Hstart; reflexivity).
  pose proof (inv_entries _ _ Hinv) as Hen. rewrite Forall_forall in Hen.
  destruct (Hen p Hin) as (e' & He' & Hans).
  simpl in He, Hu. rewrite He' in He. inversion He; subst e'.
  assert (Hne : grid gi <> []).
  { eapply hasLetter_nonempty; [apply (inv_keys _ _ Hinv) | exact Hl]. }
  pose proof (inv_nonempty _ _ Hinv Hne) as Hpos. rewrite Forall_forall in Hpos.
  specialize (Hpos p Hin). simpl in Hpos.
  exists p, e. repeat split; auto.
  - unfold clueRef. rewrite Hget. reflexivity.
  - congruence.
  - rewrite Hrow, Hcol, <- Hdir in Hs. rewrite <- Hdir. exact Hs.
  - rewrite Hcells, Hrow, Hcol, <- Hdir.
    rewrite (pl_run entries gi Hinv p Hin Hne).
    rewrite placementCells_cellsFrom, Hans. reflexivity.
Qed.

(** C5.  In a puzzle the build returns, every clue belongs to an entry that
    was placed in the clue's direction at the clue's first cell (shifted to
    the dense grid); the clue's cells are that start and the cells after it
    one step apart along the axis, as many as the answer has letters; and
    the solution letters at those cells, in order, are the letters of the
    answer. *)
Theorem clue_cells_spell_answer (entries : list Entry) (pz : Puzzle)
    (d : Direction) (cl : Clue) :
  build entries = inr pz ->
  In cl (puzzleClues d pz) ->
  exists gi p e r c,
    buildGrid entries = inr gi /\
    In p (placed gi) /\ dir p = d /\
    r = row p - minRow gi /\ c = col p - minCol gi /\
    nth_error entries (index p) = Some e /\
    text cl = clue e /\
    cells cl = map (cellOf d r c) (zrange (strlen (answer e))) /\
    List.length (cells cl) = String.length (answer e) /\
    map (solutionAt (pgrid pz)) (cells cl) = map Some (letters (answer e)).
Proof.
  intros Hb Hin. apply build_inv in Hb. destruct Hb as (gi & Hg & Hj).
  pose proof (buildGrid_inv entries gi Hg) as (Hinv & _).
  apply buildJson_inv in Hj. destruct Hj as (ste & s & Hix & Hscan & _ & ->).
  apply scan_inv with (g0 := denseGrid (normalize (minRow gi) (minCol gi) (grid gi))
                  (maxRow gi - minRow gi + 1) (maxCol gi - minCol gi + 1))
    in Hscan; [|apply scan_start_inv].
  destruct Hscan as ([Hcl _ _ Hgrid] & _).
  assert (Hin' : In cl (cluesOf d s)) by (destruct d; exact Hin).
  specialize (Hcl d). rewrite Forall_forall in Hcl.
  destruct (clue_of_placement entries gi ste _ d cl Hinv Hix (Hcl cl Hin'))
    as (p & e & Hp & Hd & _ & _ & _ & He & Hans & Ht & _ & _ & Hcells).
  exists gi, p, e, (row p - minRow gi), (col p - minCol gi).
  repeat split; auto.
  - rewrite Hcells. unfold placementCells.
    rewrite length_map, zrange_length. unfold strlen. lia.
  - simpl. rewrite Hcells, placementCells_cellsFrom.
    apply nth_error_ext. intros k. rewrite !nth_error_map.
    destruct (nth_error (letters (answer e)) k) as [ch|] eqn:Ek.
    + assert (Hk : (k < List.length (letters (answer e)))%nat)
        by (apply nth_error_Some; congruence).
      rewrite cellsFrom_nth by auto. simpl. f_equal.
      rewrite Hgrid, <- Hd. rewrite <- Hans in Ek.
      apply (pl_solution entries gi Hinv p k ch Hp Ek).
    + apply nth_error_None in Ek.
      assert (E : nth_error (cellsFrom d (row p - minRow gi) (col p - minCol gi)
                               0 (List.length (letters (answer e)))) k = None).
      { apply nth_error_None. rewrite cellsFrom_length. exact Ek. }
      rewrite E. reflexivity.
Qed.

(** ** Coverage *)

Lemma NoDup_map_inj {A B : Type} (f : A -> B) (l : list A) (x y : A) :
  NoDup (map f l) -> In x l -> In y l -> f x = f y -> x = y.
Proof.
  induction l as [|a l IH]; simpl; intros Hnd Hx Hy Heq; [contradiction|].
  inversion Hnd as [|? ? Hnin Hnd']; subst.
  destruct Hx as [<-|Hx]; destruct Hy as [<-|Hy]; auto.
  - exfalso. apply Hnin. rewrite Heq. apply in_map; auto.
  - exfalso. apply Hnin. rewrite <- Heq. apply in_map; auto.
Qed.

Lemma NoDup_map_compose {A B C : Type} (f : A -> B) (g : A -> C) (l : list A) :
  NoDup (map f l) ->
  (forall x y, In x l -> In y l -> g x = g y -> f x = f y) ->
  NoDup (map g l).
Proof.
  induction l as [|a l IH]; simpl; intros Hnd Hfg; [constructor|].
  inversion Hnd as [|? ? Hnin Hnd']; subst. constructor.
  - intros Hin. apply in_map_iff in Hin. destruct Hin as (y & Hy & Hyl).
    apply Hnin. rewrite (Hfg a y); auto. apply in_map; auto.
  - apply IH; auto.
Qed.

Lemma missingFrom_In (used : list nat) (es : list Entry) :
  forall (k : nat) (name : string),
    In name (missingFrom used k es) <->
    exists j e, nth_error es j = Some e /\
                JsSet.has (k + j) used = false /\
                name = rawOrAnswer e.
Proof.
  induction es as [|e es IH]; intros k name; simpl.
  - split; [intros [] | intros (j & e & Hj & _)]. destruct j; discriminate.
  - destruct (JsSet.has k used) eqn:Ek; simpl.
    + rewrite IH. split.
      * intros (j & e' & Hj & Hh & Hn). exists (S j), e'. simpl.
        rewrite Nat.add_succ_r. auto.
      * intros ([|j] & e' & Hj & Hh & Hn); simpl in *.
        -- rewrite Nat.add_0_r in Hh. congruence.
        -- exists j, e'. rewrite Nat.add_succ_r in Hh. auto.
    + rewrite IH. split.
      * intros [Hn|(j & e' & Hj & Hh & Hn)].
        -- exists 0%nat, e. simpl. rewrite Nat.add_0_r. auto.
        -- exists (S j), e'. simpl. rewrite Nat.add_succ_r. auto.
      * intros ([|j] & e' & Hj & Hh & Hn); simpl in *.
        -- inversion Hj; subst. auto.
        -- right. exists j, e'. rewrite Nat.add_succ_r in Hh. auto.
Qed.

Lemma used_all_iff (used : list nat) (n : nat) :
  NoDup used -> (forall i, In i used -> (i < n)%nat) ->
  (List.length used = n <-> forall i, (i < n)%nat -> In i used).
Proof.
  intros Hnd Hlt.
  assert (Hincl : incl used (seq 0 n)).
  { intros i Hi. apply in_seq. specialize (Hlt i Hi). lia. }
  split.
  - intros Hlen i Hi.
    assert (Hincl' : incl (seq 0 n) used).
    { apply NoDup_length_incl; auto. rewrite length_seq. lia. }
    apply Hincl'. apply in_seq. lia.
  - intros Hall.
    assert (Hincl' : incl (seq 0 n) used).
    { intros i Hi. apply in_seq in Hi. apply Hall. lia. }
    pose proof (NoDup_incl_length Hnd Hincl) as H1.
    pose proof (NoDup_incl_length (seq_NoDup n 0) Hincl') as H2.
    rewrite length_seq in *. lia.
Qed.

Section ScanResult.
Variable entries : list Entry.
Variable gi : GridState.
Variable ste : list (StartKey * Mapped).
Variable s : ScanState.
Hypothesis Hgrid : buildGrid entries = inr gi.
Hypothesis Hix :
  indexPlacements entries (minRow gi) (minCol gi) (placed gi) [] = inr ste.
Hypothesis Hscan : scanOf gi ste = inr s.

Lemma sr_inv : GridInv entries gi.
Proof. apply (buildGrid_inv entries gi Hgrid). Qed.

Lemma sr_index_inj (p q : Placed) :
  In p (placed gi) -> In q (placed gi) -> index p = index q -> p = q.
Proof.
  apply NoDup_map_inj.
  destruct (buildGrid_inv entries gi Hgrid) as (_ & Hperm).
  apply (Permutation_NoDup (Permutation_sym Hperm)). apply seq_NoDup.
Qed.

Lemma sr_scan :
  ScanInv (normalize (minRow gi) (minCol gi) (grid gi))
          (maxRow gi - minRow gi + 1) (maxCol gi - minCol gi + 1) ste
          (gridJson (scanStart gi)) s /\
  forall d, NoDup (map clueStart (cluesOf d s)).
Proof.
  apply scan_inv with (s := scanStart gi); [apply scan_start_inv | exact Hscan].
Qed.

Lemma sr_clue (d : Direction) (cl : Clue) :
  In cl (cluesOf d s) ->
  exists p e,
    In p (placed gi) /\ dir p = d /\
    clueStart cl = (row p - minRow gi, col p - minCol gi) /\
    clueRef ste d cl = Some (index p) /\
    In (index p) (usedEntries s) /\
    nth_error entries (index p) = Some e /\
    p_answer p = answer e /\
    text cl = clue e /\
    0 < strlen (answer e) /\
    startsIn (normalize (minRow gi) (minCol gi) (grid gi)) d
             (row p - minRow gi) (col p - minCol gi) = true /\
    cells cl = placementCells (answer e)
                 (row p - minRow gi) (col p - minCol gi) d.
Proof.
  intros Hin. destruct sr_scan as ([Hcl _ _ _] & _).
  specialize (Hcl d). rewrite Forall_forall in Hcl.
  apply (clue_of_placement entries gi ste _ d cl sr_inv Hix (Hcl cl Hin)).
Qed.

Lemma sr_matched_used (i : nat) : matched ste s i <-> In i (usedEntries s).
Proof.
  split.
  - intros (d & cl & Hin & Href).
    destruct (sr_clue d cl Hin) as (p & e & _ & _ & _ & Hr & Hu & _).
    rewrite Href in Hr. inversion Hr; subst. exact Hu.
  - destruct sr_scan as ([_ Hu _ _] & _). apply Hu.
Qed.

Lemma sr_used_lt (i : nat) :
  In i (usedEntries s) -> (i < List.length entries)%nat.
Proof.
  intros Hi. apply sr_matched_used in Hi. destruct Hi as (d & cl & Hin & Href).
  destruct (sr_clue d cl Hin) as (p & e & _ & _ & _ & Hr & _ & He & _).
  rewrite Href in Hr. inversion Hr; subst.
  apply nth_error_Some. congruence.
Qed.

Lemma sr_used_nodup : NoDup (usedEntries s).
Proof. destruct sr_scan as ([_ _ Hnd _] & _). exact Hnd. Qed.

Lemma sr_refs_nodup : NoDup (clueRefs ste (acrossClues s) (downClues s)).
Proof.
  destruct sr_scan as (_ & Hnd).
  assert (Hdir : forall d, NoDup (map (clueRef ste d) (cluesOf d s))).
  { intros d. apply NoDup_map_compose with (f := clueStart); [apply Hnd|].
    intros x y Hx Hy Heq.
    destruct (sr_clue d x Hx) as (p & e & Hp & _ & Hsp & Hrp & _).
    destruct (sr_clue d y Hy) as (q & e' & Hq & _ & Hsq & Hrq & _).
    assert (p = q) by (apply sr_index_inj; auto; congruence).
    subst q. congruence. }
  unfold clueRefs. apply NoDup_app.
  - apply (Hdir across).
  - apply (Hdir down).
  - intros r Ha Hd.
    apply in_map_iff in Ha. destruct Ha as (x & Hx & Hxin).
    apply in_map_iff in Hd. destruct Hd as (y & Hy & Hyin).
    destruct (sr_clue across x Hxin) as (p & e & Hp & Hdp & _ & Hrp & _).
    destruct (sr_clue down y Hyin) as (q & e' & Hq & Hdq & _ & Hrq & _).
    assert (p = q) by (apply sr_index_inj; auto; congruence).
    subst q. congruence.
Qed.


Lemma sr_buildJson :
  buildJson entries gi
  = if negb (List.length (usedEntries s) =? List.length entries)%nat
    then inl (NotAllUsed (missingFrom (usedEntries s) 0 entries))
    else inr (mkPuzzle "Oscars Crossword"
                (maxRow gi - minRow gi + 1) (maxCol gi - minCol gi + 1)
                (gridJson s) (acrossClues s) (downClues s)).
Proof.
  unfold buildJson, bindR. rewrite Hix.
  unfold scanOf, scanStart in Hscan. rewrite Hscan. reflexivity.
Qed.

Lemma sr_all_used :
  List.length (usedEntries s) = List.length entries <->
  forall i, (i < List.length entries)%nat -> matched ste s i.
Proof.
  rewrite (used_all_iff _ _ sr_used_nodup sr_used_lt).
  split; intros H i Hi; apply sr_matched_used; auto.
Qed.

End ScanResult.

Lemma clue_cells_spell_answer_witness :
  exists gi p e r c,
    buildGrid catAce = inr gi /\
    In p (placed gi) /\ dir p = down /\
    r = row p - minRow gi /\ c = col p - minCol gi /\
    nth_error catAce (index p) = Some e /\
    text (mkClue 2 "Top card" [(0, 1); (1, 1); (2, 1)]) = clue e /\
    cells (mkClue 2 "Top card" [(0, 1); (1, 1); (2, 1)])
    = map (cellOf down r c) (zrange (strlen (answer e))) /\
    List.length (cells (mkClue 2 "Top card" [(0, 1); (1, 1); (2, 1)]))
    = String.length (answer e) /\
    map (solutionAt (pgrid catAcePuzzle))
        (cells (mkClue 2 "Top card" [(0, 1); (1, 1); (2, 1)]))
    = map Some (letters (answer e)).
Proof.
  exact (clue_cells_spell_answer catAce catAcePuzzle down
           (mkClue 2 "Top card" [(0, 1); (1, 1); (2, 1)])
           eq_refl (or_introl eq_refl)).
Defined.



(** ** One-letter answers *)

Lemma start_needs_two_letters (entries : list Entry) (gi : GridState)
    (p : Placed) :
  GridInv entries gi -> In p (placed gi) ->
  startsIn (normalize (minRow gi) (minCol gi) (grid gi)) (dir p)
           (row p - minRow gi) (col p - minCol gi) = true ->
  String.length (p_answer p) <> 1%nat.
Proof.
  intros Hinv Hin Hs Hlen.
  pose proof (inv_ends _ _ Hinv) as He. rewrite Forall_forall in He.
  assert (Hl1 : strlen (p_answer p) = 1) by (unfold strlen; lia).
  destruct (He p Hin) as [_ Hafter]; [lia|].
  apply Hafter. rewrite Hl1. unfold occupied, wordCell.
  pose proof (inv_keys _ _ Hinv) as Hk.
  destruct (dir p); simpl in *.
  - unfold startsAcross in Hs. apply andb_true_iff in Hs. destruct Hs as [_ Hs].
    rewrite normalize_has in Hs by auto.
    rewrite <- Hs. f_equal; lia.
  - unfold startsDown in Hs. apply andb_true_iff in Hs. destruct Hs as [_ Hs].
    rewrite normalize_has in Hs by auto.
    rewrite <- Hs. f_equal; lia.
Qed.

(** C8, as first stated, fails in one clause: the cell of a one-letter
    placement can satisfy the start condition of the other direction.  With
    [CAT] then [C], the [C] is placed down on the first letter of [CAT]; that
    cell satisfies the across-start condition, and the scan emits the across
    clue of [CAT] there. *)
Lemma one_letter_cell_starts_across :
  exists gi p ste s cl,
    buildGrid catC = inr gi /\ In p (placed gi) /\
    String.length (p_answer p) = 1%nat /\
    startsAcross (normalize (minRow gi) (minCol gi) (grid gi))
      (row p - minRow gi) (col p - minCol gi) = true /\
    indexPlacements catC (minRow gi) (minCol gi) (placed gi) [] = inr ste /\
    scanOf gi ste = inr s /\
    In cl (cluesOf across s) /\
    clueStart cl = (row p - minRow gi, col p - minCol gi).
Proof.
  eexists. exists (mkPlaced 1 0 0 down "C"). do 3 eexists.
  split; [vm_compute; reflexivity|].
  split; [right; left; reflexivity|].
  split; [reflexivity|].
  split; [reflexivity|].
  split; [vm_compute; reflexivity|].
  split; [vm_compute; reflexivity|].
  split; [left; reflexivity|].
  reflexivity.
Qed.

(** C8 (corrected).  An input with an answer of exactly one letter never
    builds.  When [buildGrid] succeeds, the one-letter placement holds its
    letter with the cells before and after it along its axis empty, so its
    cell does not satisfy the start condition of the placement's own
    direction; when indexing and the scan succeed too, no clue of that
    direction starts at that cell, no clue is emitted for that entry, and the
    coverage check throws, naming it; in every case the build ends in an
    error. *)
Theorem one_letter_answer_never_builds (entries : list Entry) (e0 : Entry) :
  In e0 entries -> String.length (answer e0) = 1%nat ->
  (exists err, build entries = inl err) /\
  (forall gi p,
      buildGrid entries = inr gi -> In p (placed gi) ->
      nth_error entries (index p) = Some e0 ->
      occupied (grid gi) (wordCell p 0) /\
      ~ occupied (grid gi) (wordCell p (-1)) /\
      ~ occupied (grid gi) (wordCell p 1) /\
      startsIn (normalize (minRow gi) (minCol gi) (grid gi)) (dir p)
        (row p - minRow gi) (col p - minCol gi) = false) /\
  (forall gi ste s,
      buildGrid entries = inr gi ->
      indexPlacements entries (minRow gi) (minCol gi) (placed gi) [] = inr ste ->
      scanOf gi ste = inr s ->
      (forall p cl,
          In p (placed gi) -> nth_error entries (index p) = Some e0 ->
          In cl (cluesOf (dir p) s) ->
          clueStart cl <> (row p - minRow gi, col p - minCol gi)) /\
      (forall i, nth_error entries i = Some e0 -> ~ matched ste s i) /\
      buildJson entries gi
      = inl (NotAllUsed (missingFrom (usedEntries s) 0 entries)) /\
      In (rawOrAnswer e0) (missingFrom (usedEntries s) 0 entries)).
Proof.
  intros Hin Hlen.
  assert (Hnostart : forall gi p,
             buildGrid entries = inr gi -> In p (placed gi) ->
             nth_error entries (index p) = Some e0 ->
             startsIn (normalize (minRow gi) (minCol gi) (grid gi)) (dir p)
               (row p - minRow gi) (col p - minCol gi) = false).
  { intros gi p Hg Hp He.
    pose proof (sr_inv entries gi Hg) as Hinv.
    pose proof (inv_entries _ _ Hinv) as Hen. rewrite Forall_forall in Hen.
    destruct (Hen p Hp) as (e & He' & Hans).
    rewrite He in He'. injection He' as <-.
    destruct (startsIn _ (dir p) _ _) eqn:Es; [|reflexivity].
    exfalso. apply (start_needs_two_letters entries gi p Hinv Hp Es).
    rewrite Hans. exact Hlen. }
  assert (Hun : forall gi ste s,
             buildGrid entries = inr gi ->
             indexPlacements entries (minRow gi) (minCol gi) (placed gi) []
             = inr ste ->
             scanOf gi ste = inr s ->
             forall i, nth_error entries i = Some e0 -> ~ matched ste s i).
  { intros gi ste s Hg Hix Hscan i Hi (d & cl & Hcl & Href).
    destruct (sr_clue entries gi ste s Hg Hix Hscan d cl Hcl)
      as (p & e & Hp & Hd & _ & Hr & _ & He & Hans & _ & _ & Hs & _).
    rewrite Href in Hr. inversion Hr; subst i.
    rewrite Hi in He. inversion He; subst e.
    rewrite <- Hd in Hs.
    apply (start_needs_two_letters entries gi p
             (sr_inv entries gi Hg) Hp Hs).
    rewrite Hans. exact Hlen. }
  apply In_nth_error in Hin. destruct Hin as (i0 & Hi0).
  assert (Hlt : (i0 < List.length entries)%nat)
    by (apply nth_error_Some; congruence).
  split; [|split].
  - destruct (build entries) as [err|pz] eqn:Eb; [eauto|].
    exfalso. apply build_inv in Eb. destruct Eb as (gi & Hg & Hj).
    apply buildJson_inv in Hj. destruct Hj as (ste & s & Hix & Hscan & Hall & _).
    apply (Hun gi ste s Hg Hix Hscan i0 Hi0).
    apply (sr_all_used entries gi ste s Hg Hix Hscan); auto.
  - intros gi p Hg Hp He.
    pose proof (sr_inv entries gi Hg) as Hinv.
    pose proof (inv_letters _ _ Hinv) as Hl. rewrite Forall_forall in Hl.
    pose proof (inv_ends _ _ Hinv) as Hends. rewrite Forall_forall in Hends.
    pose proof (inv_entries _ _ Hinv) as Hen. rewrite Forall_forall in Hen.
    destruct (Hen p Hp) as (e & He' & Hans).
    rewrite He in He'. inversion He'; subst e.
    assert (Hl1 : strlen (p_answer p) = 1)
      by (rewrite Hans; unfold strlen; lia).
    destruct (Hends p Hp) as [H1 H2]; [lia|]. rewrite Hl1 in H2.
    split; [apply lettersInGrid_occupied; auto; lia|].
    split; [exact H1|]. split; [exact H2|].
    apply (Hnostart gi p Hg Hp He).
  - intros gi ste s Hg Hix Hscan.
    split.
    { intros p cl Hp He Hcl Hstart.
      destruct (sr_scan gi ste s Hscan) as ([Hok _ _ _] & _).
      specialize (Hok (dir p)). rewrite Forall_forall in Hok.
      destruct (Hok cl Hcl) as (mp & e & _ & _ & _ & Hs & _).
      rewrite Hstart in Hs. simpl in Hs.
      rewrite (Hnostart gi p Hg Hp He) in Hs. discriminate. }
    split; [apply (Hun gi ste s Hg Hix Hscan)|].
    pose proof (Hun gi ste s Hg Hix Hscan i0 Hi0) as Hno.
    split.
    + rewrite (sr_buildJson entries gi ste s Hix Hscan).
      destruct (Nat.eqb_spec (List.length (usedEntries s))
                  (List.length entries)) as [Heq|Hne]; [|reflexivity].
      exfalso. apply Hno.
      apply (sr_all_used entries gi ste s Hg Hix Hscan); auto.
    + apply missingFrom_In. exists i0, e0. simpl. repeat split; auto.
      destruct (JsSet.has i0 (usedEntries s)) eqn:E; auto.
      exfalso. apply Hno.
      apply (sr_matched_used entries gi ste s Hg Hix Hscan).
      apply JsSet_has_In. exact E.
Qed.

Lemma one_letter_answer_never_builds_witness :
  exists err, build catA = inl err.
Proof.
  exact (proj1 (one_letter_answer_never_builds catA
                  (mkEntry "A" "First letter" (Some "a!"%string))
                  (or_intror (or_introl eq_refl)) eq_refl)).
Defined.

(** ** The sorted order

    [sortOrder] returns the one array that satisfies what the language
    requires of [Array.prototype.sort] with this comparator. *)

Lemma lexOrder_asym (x y : OrderItem) : lexOrder x y -> lexOrder y x -> False.
Proof. unfold lexOrder. lia. Qed.

Lemma sorted_perm_unique (l1 : list OrderItem) :
  forall l2,
    StronglySorted lexOrder l1 -> StronglySorted lexOrder l2 ->
    Permutation l1 l2 -> l1 = l2.
Proof.
  induction l1 as [|x l1 IH]; intros l2 H1 H2 Hp.
  - apply Permutation_nil in Hp. auto.
  - destruct l2 as [|y l2].
    + apply Permutation_sym, Permutation_nil in Hp. discriminate.
    + inversion H1 as [|? ? H1' Hx]; subst.
      inversion H2 as [|? ? H2' Hy]; subst.
      rewrite Forall_forall in Hx, Hy.
      assert (Hxy : x = y).
      { assert (Hin1 : In x (y :: l2))
          by (apply (Permutation_in _ Hp); left; auto).
        assert (Hin2 : In y (x :: l1))
          by (apply (Permutation_in _ (Permutation_sym Hp)); left; auto).
        destruct Hin1 as [|Hin1]; auto. destruct Hin2 as [|Hin2]; auto.
        exfalso. apply (lexOrder_asym x y); auto. }
      subst y. f_equal. apply IH; auto.
      apply Permutation_cons_inv in Hp. exact Hp.
Qed.

Lemma insertItem_lexSorted (x : OrderItem) (l : list OrderItem) :
  StronglySorted lexOrder l ->
  Forall (fun y => (idx x < idx y)%nat) l ->
  StronglySorted lexOrder (insertItem x l).
Proof.
  induction l as [|y l IH]; intros Hs Hidx; simpl.
  - constructor; constructor.
  - inversion Hs as [|? ? Hs' Hall]; subst.
    inversion Hidx as [|? ? Hy Hidx']; subst.
    rewrite Forall_forall in Hall.
    destruct (Z.leb_spec (len y - len x) 0).
    + constructor; auto. rewrite Forall_forall. intros z [<-|Hz].
      * unfold lexOrder. lia.
      * specialize (Hall z Hz). rewrite Forall_forall in Hidx'.
        specialize (Hidx' z Hz). unfold lexOrder in *. lia.
    + constructor; auto. rewrite Forall_forall. intros z Hz.
      apply (Permutation_in _ (insertItem_perm x l)) in Hz.
      destruct Hz as [<-|Hz]; [unfold lexOrder; lia | auto].
Qed.

Lemma indexed_idx_ge (es : list Entry) :
  forall n, Forall (fun y => (n <= idx y)%nat) (indexed n es).
Proof.
  induction es as [|e es IH]; intros n; simpl; constructor; simpl; auto.
  eapply Forall_impl; [|apply (IH (S n))]. simpl. intros; lia.
Qed.

Lemma sortOrder_lexSorted (es : list Entry) :
  forall n, StronglySorted lexOrder (sortOrder (indexed n es)).
Proof.
  induction es as [|e es IH]; intros n; simpl.
  - constructor.
  - apply insertItem_lexSorted; auto.
    rewrite Forall_forall. intros y Hy.
    apply (Permutation_in _ (sortOrder_perm _)) in Hy.
    pose proof (indexed_idx_ge es (S n)) as H. rewrite Forall_forall in H.
    specialize (H y Hy). simpl. lia.
Qed.

Lemma sortOrder_JsSorted (entries : list Entry) :
  JsSorted entries (sortOrder (indexed 0 entries)).
Proof. split; [apply sortOrder_perm | apply sortOrder_lexSorted]. Qed.

Lemma JsSorted_unique (entries : list Entry) (order : list OrderItem) :
  JsSorted entries order -> order = sortOrder (indexed 0 entries).
Proof.
  intros [Hp Hs]. destruct (sortOrder_JsSorted entries) as [Hp' Hs'].
  apply sorted_perm_unique; auto.
  rewrite Hp. symmetry. exact Hp'.
Qed.

(** * Further properties *)

(** ** What a commit writes *)

Lemma word_cell_index (a : string) (d : Direction) (row col : Z) (rc : Coord) :
  (exists k, (k < List.length (letters a))%nat /\
             rc = cellOf d row col (0 + Z.of_nat k)) <->
  (exists k, 0 <= k < strlen a /\ rc = cellOf d row col k).
Proof.
  rewrite letters_length. unfold strlen. split.
  - intros (k & Hk & ->). exists (Z.of_nat k). split; [lia | reflexivity].
  - intros (k & Hk & ->). exists (Z.to_nat k). split; [lia|].
    simpl. rewrite Z2Nat.id by lia. reflexivity.
Qed.

Lemma written_iff (g : list (Coord * ascii)) (a : string) (row col : Z)
    (d : Direction) (rc : Coord) :
  occupied (writeCells d row col (letters a) 0 g) rc <->
  occupied g rc \/ exists k, 0 <= k < strlen a /\ rc = cellOf d row col k.
Proof.
  rewrite <- word_cell_index. split.
  - apply writeCells_occupied.
  - intros [Ho | (k & Hk & ->)].
    + destruct (cellsFrom_dec d row col 0 (List.length (letters a)) rc)
        as [(k & Hk & ->)|Hout].
      * destruct (nth_error (letters a) k) as [c|] eqn:Ec;
          [| apply nth_error_None in Ec; lia].
        apply occupied_iff. exists c. apply writeCells_get_in; auto.
      * apply occupied_iff. rewrite writeCells_get_out by auto.
        apply occupied_iff; auto.
    + destruct (nth_error (letters a) k) as [c|] eqn:Ec;
        [| apply nth_error_None in Ec; lia].
      apply occupied_iff. exists c. apply writeCells_get_in; auto.
Qed.

Lemma written_letter (g : list (Coord * ascii)) (a : string) (row col : Z)
    (d : Direction) (rc : Coord) (ch : ascii) :
  letterAtCoord (writeCells d row col (letters a) 0 g) rc = Some ch ->
  letterAtCoord g rc = Some ch \/
  exists j, nth_error (letters a) j = Some ch /\
            cellOf d row col (Z.of_nat j) = rc.
Proof.
  intros H.
  destruct (cellsFrom_dec d row col 0 (List.length (letters a)) rc)
    as [(k & Hk & ->)|Hout].
  - right. destruct (nth_error (letters a) k) as [c|] eqn:Ec;
      [| apply nth_error_None in Ec; lia].
    rewrite (writeCells_get_in d row col (letters a) 0 g k c Ec) in H.
    inversion H; subst. exists k. auto.
  - left. rewrite writeCells_get_out in H; auto.
Qed.

Lemma accepted_keeps_letter (g : list (Coord * ascii)) (a : string)
    (row col : Z) (d : Direction) (rc : Coord) (ch : ascii) :
  Accepted g a row col d ->
  letterAtCoord g rc = Some ch ->
  letterAtCoord (writeCells d row col (letters a) 0 g) rc = Some ch.
Proof.
  intros (_ & _ & Hf) Hl.
  destruct (cellsFrom_dec d row col 0 (List.length (letters a)) rc)
    as [(k & Hk & ->)|Hout].
  - destruct (nth_error (letters a) k) as [c|] eqn:Ec;
      [| apply nth_error_None in Ec; lia].
    rewrite (writeCells_get_in d row col (letters a) 0 g k c Ec).
    specialize (Hf k c Ec). unfold cellFine in Hf. simpl in Hl.
    rewrite Hl in Hf. congruence.
  - rewrite writeCells_get_out; auto.
Qed.

Lemma stepCell_cellOf (d : Direction) (row col k : Z) :
  stepCell d (cellOf d row col k) = cellOf d row col (k + 1).
Proof. destruct d; simpl; f_equal; lia. Qed.

(** ** One commit preserves the further invariants *)

Lemma commit_covered (s : GridState) (i : nat) (a : string) (row col : Z)
    (d : Direction) (g' : list (Coord * ascii)) :
  gridCovered s ->
  g' = writeCells d row col (letters a) 0 (grid s) ->
  gridCovered (mkState g' (placed s ++ [mkPlaced i row col d a])
                 0 0 0 0).
Proof.
  intros Hc -> rc ch H. simpl in *. apply written_letter in H.
  destruct H as [H|(j & Hj & Hrc)].
  - destruct (Hc rc ch H) as (p & Hp & Hw). exists p. split; auto.
    apply in_app_iff; auto.
  - exists (mkPlaced i row col d a). split.
    + apply in_app_iff. right. left. reflexivity.
    + exists j. unfold wordCell. simpl. auto.
Qed.

Ltac occ_from H :=
  unfold occupied; simpl; rewrite <- H; f_equal; lia.

Lemma commit_joined (s : GridState) (i : nat) (a : string) (row col : Z)
    (d : Direction) (g' : list (Coord * ascii)) :
  adjacentJoined s ->
  Accepted (grid s) a row col d ->
  g' = writeCells d row col (letters a) 0 (grid s) ->
  adjacentJoined (mkState g' (placed s ++ [mkPlaced i row col d a])
                    0 0 0 0).
Proof.
  intros Hj Hacc -> d0 rc H1 H2. simpl in *.
  pose proof (fun k => accepted_sides (grid s) a row col d k Hacc) as Hside.
  destruct Hacc as (Hb & Ha & _).
  set (W := mkPlaced i row col d a).
  assert (HW : In W (placed s ++ [W]))
    by (apply in_app_iff; right; left; reflexivity).
  assert (Hboth : forall k, 0 <= k -> k + 1 < strlen a -> d = d0 ->
            rc = cellOf d row col k ->
            exists p, In p (placed s ++ [W]) /\ dir p = d0 /\
                      covers p rc /\ covers p (stepCell d0 rc)).
  { intros k Hk0 Hk1 <- ->. exists W. repeat split; auto.
    - exists k. unfold W, wordCell. simpl. split; [lia | reflexivity].
    - exists (k + 1). unfold W, wordCell. simpl. split; [lia|].
      symmetry. apply stepCell_cellOf. }
  apply written_iff in H1. apply written_iff in H2.
  destruct (gridHas (grid s) (fst rc) (snd rc)) eqn:O1;
    destruct (gridHas (grid s) (fst (stepCell d0 rc)) (snd (stepCell d0 rc)))
      eqn:O2.
  - destruct (Hj d0 rc O1 O2) as (p & Hp & Hrest).
    exists p. split; auto. apply in_app_iff; auto.
  - (* the successor of [rc] is new *)
    destruct H2 as [H2|(k2 & Hk2 & E2)];
      [unfold occupied in H2; congruence|].
    assert (Hno : ~ occupied (grid s) (cellOf d row col k2))
      by (rewrite <- E2; unfold occupied; congruence).
    destruct (Hside k2 Hk2 Hno) as [S1 S2].
    destruct rc as [r c].
    destruct d, d0; simpl in *; pose proof (f_equal fst E2) as E2a; pose proof (f_equal snd E2) as E2b;
      simpl in E2a, E2b.
    + destruct (Z.eq_dec k2 0) as [->|Hne].
      * exfalso. apply Hb. occ_from O1.
      * apply (Hboth (k2 - 1)); try lia; auto. f_equal; lia.
    + exfalso. apply S1. occ_from O1.
    + exfalso. apply S1. occ_from O1.
    + destruct (Z.eq_dec k2 0) as [->|Hne].
      * exfalso. apply Hb. occ_from O1.
      * apply (Hboth (k2 - 1)); try lia; auto. f_equal; lia.
  - (* [rc] is new *)
    destruct H1 as [H1|(k & Hk & E1)];
      [unfold occupied in H1; congruence|].
    assert (Hno : ~ occupied (grid s) (cellOf d row col k))
      by (rewrite <- E1; unfold occupied; congruence).
    destruct (Hside k Hk Hno) as [S1 S2].
    assert (Hsame : d = d0 ->
              exists p, In p (placed s ++ [W]) /\ dir p = d0 /\
                        covers p rc /\ covers p (stepCell d0 rc)).
    { intros Hd. destruct (Z_lt_ge_dec (k + 1) (strlen a)) as [Hlt|Hge].
      - apply (Hboth k); auto; lia.
      - exfalso. apply Ha. subst d0 rc. rewrite stepCell_cellOf in O2.
        replace (strlen a) with (k + 1) by lia. exact O2. }
    destruct d, d0; auto; subst rc; simpl in *.
    + exfalso. apply S2. exact O2.
    + exfalso. apply S2. exact O2.
  - (* both are new *)
    destruct H1 as [H1|(k & Hk & E1)];
      [unfold occupied in H1; congruence|].
    destruct H2 as [H2|(k2 & Hk2 & E2)];
      [unfold occupied in H2; congruence|].
    subst rc. destruct d, d0; simpl in *; pose proof (f_equal fst E2) as E2a; pose proof (f_equal snd E2) as E2b;
      simpl in E2a, E2b.
    + apply (Hboth k); try lia; auto.
    + exfalso. lia.
    + exfalso. lia.
    + apply (Hboth k); try lia; auto.
Qed.

Lemma writeCells_empty (d : Direction) (row col : Z) (chars : list ascii)
    (i : Z) (g : list (Coord * ascii)) :
  writeCells d row col chars i g = [] -> chars = [] /\ g = [].
Proof.
  destruct chars as [|ch rest]; simpl; auto.
  intros H. exfalso.
  assert (Hne : forall cs j g0, g0 <> [] -> writeCells d row col cs j g0 <> []).
  { induction cs as [|c cs IH]; intros j g0 Hg0; simpl; auto.
    apply IH. apply set_nonempty. }
  apply (Hne rest (i + 1) _ (set_nonempty _ _ _ _) H).
Qed.

Lemma letters_nil (a : string) : letters a = [] -> a = EmptyString.
Proof. destruct a; simpl; [reflexivity | discriminate]. Qed.

Lemma fold_min_attained (l : list Z) :
  forall a, fold_left Z.min l a = a \/ In (fold_left Z.min l a) l.
Proof.
  induction l as [|x l IH]; intros a; simpl; auto.
  destruct (IH (Z.min a x)) as [H|H]; auto.
  rewrite H. destruct (Z.min_spec a x) as [[_ E]|[_ E]]; rewrite E; auto.
Qed.

Lemma fold_max_attained (l : list Z) :
  forall a, fold_left Z.max l a = a \/ In (fold_left Z.max l a) l.
Proof.
  induction l as [|x l IH]; intros a; simpl; auto.
  destruct (IH (Z.max a x)) as [H|H]; auto.
  rewrite H. destruct (Z.max_spec a x) as [[_ E]|[_ E]]; rewrite E; auto.
Qed.

Lemma placementCells_index (a : string) (row col : Z) (d : Direction)
    (rc : Coord) :
  In rc (placementCells a row col d) <->
  exists k, 0 <= k < strlen a /\ rc = cellOf d row col k.
Proof.
  rewrite placementCells_cellsFrom, In_cellsFrom. apply word_cell_index.
Qed.

Lemma spec_intersections_pos (g : list (Coord * ascii)) (cs : list Coord) :
  spec_intersections g cs <> 0 ->
  exists rc, In rc cs /\ occupied g rc.
Proof.
  induction cs as [|rc cs IH]; intros H.
  - exfalso. apply H. reflexivity.
  - rewrite spec_intersections_cons in H.
    destruct (gridHas g (fst rc) (snd rc)) eqn:E.
    + exists rc. split; [left; reflexivity | exact E].
    + destruct IH as (rc' & Hin & Ho); [lia|].
      exists rc'. split; [right|]; auto.
Qed.

Lemma inWord_covers (p : Placed) (rc : Coord) (ch : ascii) :
  inWord p rc ch -> covers p rc.
Proof.
  intros (j & Hj & Hrc). exists (Z.of_nat j). split; auto.
  assert (j < List.length (letters (p_answer p)))%nat
    by (apply nth_error_Some; congruence).
  rewrite letters_length in *. unfold strlen. lia.
Qed.

(** Words are placed longest first, so once a word is placed on an empty
    grid with placements already made, it is empty too. *)
Lemma empty_grid_empty_word (s : GridState) (a : string) :
  Forall (lettersInGrid (grid s)) (placed s) ->
  (forall p, In p (placed s) -> strlen a <= strlen (p_answer p)) ->
  grid s = [] -> placed s <> [] -> a = EmptyString.
Proof.
  intros Hl Hle Hg Hp. destruct (placed s) as [|p ps] eqn:E; [congruence|].
  inversion Hl as [|? ? Hlp _]; subst. specialize (Hle p (or_introl eq_refl)).
  destruct (p_answer p) as [|c rest] eqn:Ea.
  - destruct a; [reflexivity | unfold strlen in Hle; simpl in Hle; lia].
  - specialize (Hlp 0%nat c). rewrite Ea in Hlp. simpl in Hlp.
    specialize (Hlp eq_refl). rewrite Hg in Hlp. discriminate.
Qed.

Lemma commit_tight (s s' : GridState) (a : string) (row col : Z)
    (d : Direction) :
  boundsTight s ->
  Accepted (grid s) a row col d ->
  (grid s = [] -> a <> EmptyString -> row = 0 /\ col = 0) ->
  grid s' = writeCells d row col (letters a) 0 (grid s) ->
  stateBounds s' = spec_box (stateBounds s) (placementCells a row col d) ->
  boundsTight s'.
Proof.
  intros [Hz Ht] Hacc Hseed Hg Hb. split.
  - intros He. rewrite Hg in He. apply writeCells_empty in He.
    destruct He as [Ha Hs]. rewrite Hb, (Hz Hs).
    rewrite placementCells_cellsFrom, Ha. reflexivity.
  - intros Hne.
    assert (Hocc : forall rc, occupied (grid s') rc <->
              occupied (grid s) rc \/
              exists k, 0 <= k < strlen a /\ rc = cellOf d row col k)
      by (intros rc; rewrite Hg; apply written_iff).
    assert (Hcell : forall rc, In rc (placementCells a row col d) ->
                               occupied (grid s') rc).
    { intros rc Hin. apply Hocc. right. apply placementCells_index; auto. }
    assert (Hold : occupied (grid s') (0, 0) /\
              (exists rc, occupied (grid s') rc /\ fst rc = minRow s) /\
              (exists rc, occupied (grid s') rc /\ fst rc = maxRow s) /\
              (exists rc, occupied (grid s') rc /\ snd rc = minCol s) /\
              (exists rc, occupied (grid s') rc /\ snd rc = maxCol s)).
    { destruct (grid s) as [|kv g] eqn:Eg.
      - assert (Ha : a <> EmptyString).
        { intros ->. apply Hne. rewrite Hg. reflexivity. }
        destruct (Hseed eq_refl Ha) as [-> ->].
        specialize (Hz eq_refl). unfold stateBounds in Hz.
        injection Hz as Z1 Z2 Z3 Z4.
        assert (Ho : occupied (grid s') (0, 0)).
        { apply Hocc. right. exists 0. split.
          - destruct a; [congruence | unfold strlen; simpl; lia].
          - destruct d; reflexivity. }
        split; [exact Ho|].
        split; [|split; [|split]]; exists (0, 0); split; auto; simpl; lia.
      - destruct Ht as (T0 & (r1 & O1 & E1) & (r2 & O2 & E2)
                        & (r3 & O3 & E3) & (r4 & O4 & E4)); [discriminate|].
        split; [apply Hocc; auto|].
        split; [|split; [|split]];
          [exists r1 | exists r2 | exists r3 | exists r4];
          (split; [apply Hocc; left; assumption | assumption]). }
    destruct Hold as (H0 & (r1 & O1 & E1) & (r2 & O2 & E2)
                      & (r3 & O3 & E3) & (r4 & O4 & E4)).
    unfold stateBounds, spec_box in Hb. simpl in Hb.
    injection Hb as B1 B2 B3 B4.
    split; [exact H0|]. split; [|split; [|split]].
    + destruct (fold_min_attained (map fst (placementCells a row col d))
                  (minRow s)) as [E|E].
      * exists r1. split; auto. rewrite B1, E. exact E1.
      * apply in_map_iff in E. destruct E as (rc & Erc & Hin).
        exists rc. split; [auto | rewrite B1; exact Erc].
    + destruct (fold_max_attained (map fst (placementCells a row col d))
                  (maxRow s)) as [E|E].
      * exists r2. split; auto. rewrite B2, E. exact E2.
      * apply in_map_iff in E. destruct E as (rc & Erc & Hin).
        exists rc. split; [auto | rewrite B2; exact Erc].
    + destruct (fold_min_attained (map snd (placementCells a row col d))
                  (minCol s)) as [E|E].
      * exists r3. split; auto. rewrite B3, E. exact E3.
      * apply in_map_iff in E. destruct E as (rc & Erc & Hin).
        exists rc. split; [auto | rewrite B3; exact Erc].
    + destruct (fold_max_attained (map snd (placementCells a row col d))
                  (maxCol s)) as [E|E].
      * exists r4. split; auto. rewrite B4, E. exact E4.
      * apply in_map_iff in E. destruct E as (rc & Erc & Hin).
        exists rc. split; [auto | rewrite B4; exact Erc].
Qed.

Lemma list_nil_dec {A : Type} (l : list A) : l = [] \/ l <> [].
Proof. destruct l; [left | right]; congruence. Qed.

Lemma commit_crossing (s : GridState) (i : nat) (a : string) (row col : Z)
    (d : Direction) :
  gridCovered s ->
  Forall (lettersInGrid (grid s)) (placed s) ->
  (forall p, In p (placed s) -> strlen a <= strlen (p_answer p)) ->
  canPlacePure s a row col d <> None \/ grid s = [] ->
  (grid s <> [] -> eachCrossesEarlier (placed s)) ->
  writeCells d row col (letters a) 0 (grid s) <> [] ->
  eachCrossesEarlier (placed s ++ [mkPlaced i row col d a]).
Proof.
  intros Hc Hl Hle Hok Hcr Hne n p Hn Hpos.
  destruct (list_nil_dec (grid s)) as [Eg|Eg].
  - (* the grid was empty: this is the first placement *)
    destruct (list_nil_dec (placed s)) as [Ep|Ep].
    + rewrite Ep in Hn. destruct n; [lia|]. simpl in Hn.
      destruct n; discriminate.
    + exfalso. apply Hne.
      rewrite (empty_grid_empty_word s a Hl Hle Eg Ep), Eg. reflexivity.
  - destruct (Nat.lt_ge_cases n (List.length (placed s))) as [Hlt|Hge].
    + rewrite nth_error_app1 in Hn by auto.
      destruct (Hcr Eg n p Hn Hpos) as (j & q & Hj & Hq & Hs).
      exists j, q. repeat split; auto.
      rewrite nth_error_app1 by lia. exact Hq.
    + rewrite nth_error_app2 in Hn by auto.
      destruct (n - List.length (placed s))%nat as [|m] eqn:En;
        [|destruct m; discriminate].
      simpl in Hn. inversion Hn; subst p; clear Hn.
      destruct Hok as [Hok|Hok]; [|contradiction].
      destruct (canPlacePure s a row col d) as [chk|] eqn:E; [|congruence].
      apply canPlacePure_Some_inv in E.
      destruct E as (_ & _ & _ & Hi & _ & _ & [Hg|Hi0]); [contradiction|].
      rewrite Hi in Hi0. apply spec_intersections_pos in Hi0.
      destruct Hi0 as (rc & Hin & Ho).
      apply occupied_iff in Ho. destruct Ho as (ch & Hch).
      destruct (Hc rc ch Hch) as (q & Hq & Hw).
      apply In_nth_error in Hq. destruct Hq as (j & Hj).
      assert (Hjlt : (j < List.length (placed s))%nat)
        by (apply nth_error_Some; congruence).
      exists j, q. split; [lia|]. split.
      * rewrite nth_error_app1; auto.
      * exists rc. split; [|eapply inWord_covers; eauto].
        apply placementCells_index in Hin. destruct Hin as (k & Hk & ->).
        exists k. split; auto.
Qed.

Lemma commit_inv2 (entries : list Entry) (s s' : GridState) (i : nat)
    (e : Entry) (row col : Z) (d : Direction) (u : unit) :
  GridInv entries s -> GridInv2 s ->
  (forall p, In p (placed s) -> strlen (answer e) <= strlen (p_answer p)) ->
  (placed s = [] -> row = 0 /\ col = 0 /\ d = across) ->
  placeWordAt i (answer e) row col d s = inr (u, s') ->
  GridInv2 s'.
Proof.
  intros Hinv [Hc Hj Ht Hcr Hsd] Hle Hfirst Hp.
  apply placeWordAt_inv in Hp. destruct Hp as (Hok & Hg & Hpl & Hbox).
  pose proof (accepted_of_ok s (answer e) row col d Hok) as Hacc.
  pose proof (inv_letters _ _ Hinv) as Hl.
  constructor.
  - unfold gridCovered. rewrite Hg, Hpl.
    apply (commit_covered s i (answer e) row col d _ Hc eq_refl).
  - unfold adjacentJoined. rewrite Hg, Hpl.
    apply (commit_joined s i (answer e) row col d _ Hj Hacc eq_refl).
  - apply (commit_tight s s' (answer e) row col d); auto.
    intros Hge Hne.
    destruct (list_nil_dec (placed s)) as [Ep|Ep].
    + destruct (Hfirst Ep) as (-> & -> & _); auto.
    + exfalso. apply Hne. apply (empty_grid_empty_word s); auto.
  - intros Hne. rewrite Hpl. rewrite Hg in Hne.
    apply commit_crossing; auto.
  - intros p Hp. rewrite Hpl in Hp.
    destruct (list_nil_dec (placed s)) as [Ep|Ep].
    + rewrite Ep in Hp. simpl in Hp. inversion Hp; subst.
      destruct (Hfirst Ep) as (-> & -> & ->); auto.
    + apply Hsd. destruct (placed s); [congruence | exact Hp].
Qed.

Lemma initState_inv2 : GridInv2 initState.
Proof.
  constructor; simpl.
  - intros rc ch H. discriminate.
  - intros d rc H. discriminate.
  - split; [reflexivity | intros H; contradiction].
  - intros H; contradiction.
  - intros p H. discriminate.
Qed.

Lemma forEach_placeItem_inv2 (entries : list Entry) (rest : list OrderItem) :
  forall (s s' : GridState) (u : unit),
    forEach (placeItem entries) rest s = inr (u, s') ->
    GridInv entries s -> GridInv2 s -> placed s <> [] ->
    Forall (itemOK entries) rest ->
    StronglySorted lenDesc rest ->
    (forall p it, In p (placed s) -> In it rest ->
                  len it <= strlen (p_answer p)) ->
    GridInv2 s'.
Proof.
  induction rest as [|it rest IH]; intros s s' u Hrun Hinv Hinv2 Hne Hok Hsort Hle.
  - simpl in Hrun. inversion Hrun; subst. auto.
  - simpl in Hrun. unfold bind in Hrun.
    destruct (placeItem entries it s) as [err|[u1 s1]] eqn:E1;
      [discriminate|].
    apply placeItem_inv in E1. destruct E1 as (e & row & col & d & He & Hp).
    inversion Hok as [|? ? (e' & He' & Hlen) Hok']; subst.
    rewrite He in He'. inversion He'; subst e'.
    inversion Hsort as [|? ? Hsort' Hall]; subst.
    assert (Hle1 : forall p, In p (placed s) ->
                             strlen (answer e) <= strlen (p_answer p)).
    { intros p Hin. rewrite <- Hlen. apply Hle; auto. left; auto. }
    destruct (commit_inv entries s s1 (idx it) e row col d u1 Hinv He Hle1 Hp)
      as (Hinv1 & Hpl1).
    pose proof (commit_inv2 entries s s1 (idx it) e row col d u1 Hinv Hinv2
                  Hle1 ltac:(intros; contradiction) Hp) as Hinv21.
    apply (IH s1 s' u Hrun Hinv1 Hinv21); auto.
    + rewrite Hpl1. destruct (placed s); discriminate.
    + intros p it' Hin Hin'. rewrite Hpl1 in Hin. apply in_app_iff in Hin.
      destruct Hin as [Hin|[<-|[]]].
      * apply Hle; auto. right; auto.
      * simpl. rewrite <- Hlen. rewrite Forall_forall in Hall.
        apply Hall; auto.
Qed.

Lemma buildGrid_inv2 (entries : list Entry) (gi : GridState) :
  buildGrid entries = inr gi -> GridInv2 gi.
Proof.
  intros H. destruct (sortOrder_ok entries) as (Hok & Hsort & _).
  unfold buildGrid, buildGridFrom in H.
  destruct (sortOrder (indexed 0 entries)) as [|first rest]; [discriminate|].
  unfold bind, answerAt in H.
  inversion Hok as [|? ? (e & He & Hlen) Hok']; subst.
  inversion Hsort as [|? ? Hsort' Hall]; subst.
  rewrite He in H. unfold ret in H.
  destruct (placeWordAt (idx first) (answer e) 0 0 across initState)
    as [err|[u1 s1]] eqn:E1; [discriminate|].
  assert (Hle0 : forall p, In p (placed initState) ->
                           strlen (answer e) <= strlen (p_answer p))
    by (intros p []).
  destruct (commit_inv entries initState s1 (idx first) e 0 0 across u1
              (initState_inv entries) He Hle0 E1) as (Hinv1 & Hpl1).
  pose proof (commit_inv2 entries initState s1 (idx first) e 0 0 across u1
                (initState_inv entries) initState_inv2 Hle0
                ltac:(auto) E1) as Hinv21.
  destruct (forEach (placeItem entries) rest s1) as [err|[u2 s2]] eqn:E2;
    [discriminate|].
  inversion H; subst s2; clear H.
  apply (forEach_placeItem_inv2 entries rest s1 gi u2 E2 Hinv1 Hinv21); auto.
  - rewrite Hpl1. discriminate.
  - intros p it Hin Hin'. rewrite Hpl1 in Hin. simpl in Hin.
    destruct Hin as [<-|[]]. simpl. rewrite <- Hlen.
    rewrite Forall_forall in Hall. apply Hall; auto.
Qed.

(** ** [placeWordAt], from any state *)

(** X1.  When [placeWordAt] returns, every letter the grid held is still
    there, each letter of the answer is at its cell, no other cell was
    written, no bound moved inwards, and exactly one placement record was
    appended. *)
Theorem placeWordAt_effect (i : nat) (a : string) (row col : Z)
    (d : Direction) (s s' : GridState) (u : unit) :
  placeWordAt i a row col d s = inr (u, s') ->
  (forall rc ch, letterAtCoord (grid s) rc = Some ch ->
                 letterAtCoord (grid s') rc = Some ch) /\
  (forall j ch, nth_error (letters a) j = Some ch ->
                letterAtCoord (grid s') (cellOf d row col (Z.of_nat j))
                = Some ch) /\
  (forall rc, occupied (grid s') rc ->
              occupied (grid s) rc \/ In rc (placementCells a row col d)) /\
  minRow s' <= minRow s /\ maxRow s <= maxRow s' /\
  minCol s' <= minCol s /\ maxCol s <= maxCol s' /\
  placed s' = placed s ++ [mkPlaced i row col d a].
Proof.
  intros Hp. apply placeWordAt_inv in Hp.
  destruct Hp as (Hok & Hg & Hpl & Hbox).
  apply accepted_of_ok in Hok.
  pose proof (spec_box_contains (stateBounds s) (placementCells a row col d))
    as Hc.
  rewrite <- Hbox in Hc. unfold stateBounds in Hc. simpl in Hc.
  destruct Hc as (B1 & B2 & B3 & B4 & _).
  repeat split; auto.
  - intros rc ch H. rewrite Hg. apply accepted_keeps_letter; auto.
  - intros j ch H. rewrite Hg.
    apply (writeCells_get_in d row col (letters a) 0 (grid s) j ch H).
  - intros rc H. rewrite Hg in H. apply written_iff in H.
    destruct H as [H|H]; auto. right. apply placementCells_index. exact H.
Qed.

Lemma placeWordAt_effect_witness :
  placeWordAt 1 "ACE" 0 1 down afterCAT = inr (tt, catAceGrid) /\
  placed catAceGrid = placed afterCAT ++ [mkPlaced 1 0 1 down "ACE"].
Proof.
  split; [reflexivity|].
  exact (proj2 (proj2 (proj2 (proj2 (proj2 (proj2 (proj2
    (placeWordAt_effect 1 "ACE" 0 1 down afterCAT catAceGrid tt
       eq_refl)))))))).
Defined.

Lemma canPlacePure_empty_grid (s : GridState) (a : string) (row col : Z)
    (d : Direction) :
  grid s = [] -> canPlacePure s a row col d <> None.
Proof.
  intros Hg Hn. apply canPlacePure_None_inv in Hn.
  unfold rejected, endTouch, letterConflict, sideTouch, occupied,
    letterAtCoord in Hn.
  rewrite Hg in Hn. simpl in Hn.
  destruct Hn as [[H|H] | [(j & ch & e & _ & H & _) | [(j & ch & _ & _ & [H|H])
                  | [H _]]]]; try discriminate.
  apply H. reflexivity.
Qed.

(** X2.  [placeWordAt] throws exactly when [canPlace] rejects the placement,
    and then the error names the answer; on an empty grid [canPlace] never
    rejects, so the first word is always committed. *)
Theorem placeWordAt_throws_iff (i : nat) (a : string) (row col : Z)
    (d : Direction) (s : GridState) :
  (forall err, placeWordAt i a row col d s = inl err <->
               canPlace a row col d s = inr (None, s) /\
               err = InvalidPlacement a) /\
  (grid s = [] -> exists s', placeWordAt i a row col d s = inr (tt, s')).
Proof.
  rewrite canPlace_run. split.
  - intros err. split.
    + intros H.
      destruct (canPlacePure s a row col d) as [chk|] eqn:E.
      * destruct (placeWordAt_commits i a row col d s) as (s' & H' & _);
          [left; congruence|]. congruence.
      * destruct (list_nil_dec (grid s)) as [Hg|Hg].
        -- exfalso. apply (canPlacePure_empty_grid s a row col d Hg E).
        -- rewrite placeWordAt_throws in H; auto. inversion H. auto.
    + intros [H ->]. inversion H as [E].
      destruct (list_nil_dec (grid s)) as [Hg|Hg].
      * exfalso. apply (canPlacePure_empty_grid s a row col d Hg E).
      * apply placeWordAt_throws; auto.
  - intros Hg. destruct (placeWordAt_commits i a row col d s) as (s' & H' & _);
      eauto.
Qed.

(** ** What [buildGrid] returns *)

Lemma StronglySorted_map_inv {A B : Type} (f : A -> B) (R : B -> B -> Prop)
    (l : list A) :
  StronglySorted R (map f l) -> StronglySorted (fun x y => R (f x) (f y)) l.
Proof.
  induction l as [|x l IH]; simpl; intros H; [constructor|].
  inversion H as [|? ? Hs Hall]; subst. constructor; auto.
  rewrite Forall_forall in *. intros y Hy. apply Hall. apply in_map; auto.
Qed.

Lemma placed_items (entries : list Entry) (gi : GridState) :
  buildGrid entries = inr gi ->
  map itemOfPlaced (placed gi) = sortOrder (indexed 0 entries).
Proof.
  intros H. destruct (sortOrder_ok entries) as (Hok & Hsort & _).
  destruct (buildGridFrom_inv entries _ gi Hok Hsort H) as (Hinv & Hidx).
  pose proof (inv_entries _ _ Hinv) as Hen. rewrite Forall_forall in Hen.
  rewrite Forall_forall in Hok.
  apply nth_error_ext. intros n.
  pose proof (f_equal (fun l => nth_error l n) Hidx) as Hn. simpl in Hn.
  rewrite !nth_error_map in Hn. rewrite nth_error_map.
  destruct (nth_error (placed gi) n) as [p|] eqn:Ep;
    destruct (nth_error (sortOrder (indexed 0 entries)) n) as [it|] eqn:Ei;
    simpl in *; try discriminate; auto.
  inversion Hn as [Hpi].
  destruct (Hen p (nth_error_In _ _ Ep)) as (e & He & Ha).
  destruct (Hok it (nth_error_In _ _ Ei)) as (e' & He' & Hl).
  rewrite Hpi, He' in He. inversion He; subst e'.
  unfold itemOfPlaced. rewrite Ha, <- Hl, Hpi. destruct it; reflexivity.
Qed.

(** X3.  When [buildGrid] returns, every entry has exactly one placement,
    carrying that entry's answer, and the first placement made is across at
    the origin. *)
Theorem buildGrid_places_each_entry_once (entries : list Entry)
    (gi : GridState) :
  buildGrid entries = inr gi ->
  Permutation (map index (placed gi)) (seq 0 (List.length entries)) /\
  List.length (placed gi) = List.length entries /\
  (forall p, In p (placed gi) ->
             exists e, nth_error entries (index p) = Some e /\
                       p_answer p = answer e) /\
  (forall p q, In p (placed gi) -> In q (placed gi) ->
               index p = index q -> p = q) /\
  (exists p, nth_error (placed gi) 0 = Some p /\
             startOf p = (0, 0, across)).
Proof.
  intros H. pose proof (buildGrid_inv entries gi H) as (Hinv & Hperm).
  pose proof (buildGrid_inv2 entries gi H) as Hinv2.
  assert (Hlen : List.length (placed gi) = List.length entries).
  { apply Permutation_length in Hperm.
    rewrite length_map, length_seq in Hperm. exact Hperm. }
  repeat split; auto.
  - pose proof (inv_entries _ _ Hinv) as He. rewrite Forall_forall in He.
    exact He.
  - intros p q. apply (sr_index_inj entries gi H).
  - destruct (placed gi) as [|p ps] eqn:Ep.
    + exfalso. unfold buildGrid, buildGridFrom in H.
      pose proof (Permutation_length (sortOrder_perm (indexed 0 entries))) as Hl.
      destruct (sortOrder (indexed 0 entries)); [discriminate|].
      destruct entries; simpl in *; discriminate.
    + exists p. split; auto. apply (inv_seed _ Hinv2).
      rewrite Ep. reflexivity.
Qed.

Lemma buildGrid_places_each_entry_once_witness :
  List.length (placed catAceGrid) = List.length catAce.
Proof.
  exact (proj1 (proj2 (buildGrid_places_each_entry_once catAce catAceGrid
                         eq_refl))).
Defined.

(** X4.  [buildGrid] places the entries longest answer first, and among
    answers of equal length in input order. *)
Theorem buildGrid_places_longest_first (entries : list Entry)
    (gi : GridState) :
  buildGrid entries = inr gi ->
  StronglySorted placedBefore (placed gi).
Proof.
  intros H. pose proof (placed_items entries gi H) as Hi.
  pose proof (sortOrder_lexSorted entries 0) as Hs. rewrite <- Hi in Hs.
  apply StronglySorted_map_inv in Hs.
  eapply StronglySorted_ind with (P := StronglySorted placedBefore);
    [constructor | | exact Hs].
  intros p l _ IH Hall. constructor; auto.
Qed.

Lemma buildGrid_places_longest_first_witness :
  StronglySorted placedBefore (placed catAceGrid).
Proof.
  exact (buildGrid_places_longest_first catAce catAceGrid eq_refl).
Defined.

(** X5.  When [buildGrid] returns, the grid holds exactly the letters of the
    placed words: a cell holds a letter if and only if some placed word has
    that letter at that cell.  In particular words that cross agree on the
    letter of the shared cell. *)
Theorem grid_is_the_placed_words (entries : list Entry) (gi : GridState)
    (rc : Coord) (ch : ascii) :
  buildGrid entries = inr gi ->
  (letterAtCoord (grid gi) rc = Some ch <->
   exists p, In p (placed gi) /\ inWord p rc ch).
Proof.
  intros H. pose proof (buildGrid_inv entries gi H) as (Hinv & _).
  pose proof (buildGrid_inv2 entries gi H) as Hinv2.
  split.
  - apply (inv_covered _ Hinv2).
  - intros (p & Hp & j & Hj & <-).
    pose proof (inv_letters _ _ Hinv) as Hl. rewrite Forall_forall in Hl.
    apply (Hl p Hp j ch Hj).
Qed.

Lemma grid_is_the_placed_words_witness :
  letterAtCoord (grid catAceGrid) (0, 1) = Some "A"%char <->
  exists p, In p (placed catAceGrid) /\ inWord p (0, 1) "A"%char.
Proof.
  exact (grid_is_the_placed_words catAce catAceGrid (0, 1) "A"%char eq_refl).
Defined.

(** X6.  When [buildGrid] returns, no two words run into each other: the
    cell before the first letter and the cell after the last letter of every
    placed word are empty, and two letters next to each other along a
    direction always belong to one placed word of that direction. *)
Theorem words_never_merge (entries : list Entry) (gi : GridState) :
  buildGrid entries = inr gi ->
  (forall p, In p (placed gi) -> 0 < strlen (p_answer p) ->
             ~ occupied (grid gi) (wordCell p (-1)) /\
             ~ occupied (grid gi) (wordCell p (strlen (p_answer p)))) /\
  (forall d rc,
      occupied (grid gi) rc -> occupied (grid gi) (stepCell d rc) ->
      exists p, In p (placed gi) /\ dir p = d /\
                covers p rc /\ covers p (stepCell d rc)).
Proof.
  intros H. pose proof (buildGrid_inv entries gi H) as (Hinv & _).
  pose proof (buildGrid_inv2 entries gi H) as Hinv2.
  split.
  - pose proof (inv_ends _ _ Hinv) as He. rewrite Forall_forall in He.
    exact He.
  - apply (inv_joined _ Hinv2).
Qed.

Lemma words_never_merge_witness :
  ~ occupied (grid catAceGrid) (wordCell (mkPlaced 1 0 1 down "ACE") (-1)) /\
  ~ occupied (grid catAceGrid) (wordCell (mkPlaced 1 0 1 down "ACE") 3).
Proof.
  refine (proj1 (words_never_merge catAce catAceGrid eq_refl)
            (mkPlaced 1 0 1 down "ACE") _ _).
  - right. left. reflexivity.
  - reflexivity.
Defined.

(** X7.  When [buildGrid] returns, the bounds are exact: they contain the
    origin and every letter of the grid, and unless the grid is empty the
    origin holds a letter and each of the four bounds is the row or column
    of some letter. *)
Theorem bounds_are_exact (entries : list Entry) (gi : GridState) :
  buildGrid entries = inr gi ->
  minRow gi <= 0 <= maxRow gi /\ minCol gi <= 0 <= maxCol gi /\
  (forall rc, occupied (grid gi) rc ->
              minRow gi <= fst rc <= maxRow gi /\
              minCol gi <= snd rc <= maxCol gi) /\
  (grid gi <> [] ->
   occupied (grid gi) (0, 0) /\
   (exists rc, occupied (grid gi) rc /\ fst rc = minRow gi) /\
   (exists rc, occupied (grid gi) rc /\ fst rc = maxRow gi) /\
   (exists rc, occupied (grid gi) rc /\ snd rc = minCol gi) /\
   (exists rc, occupied (grid gi) rc /\ snd rc = maxCol gi)).
Proof.
  intros H. pose proof (buildGrid_inv entries gi H) as (Hinv & _).
  pose proof (buildGrid_inv2 entries gi H) as Hinv2.
  destruct (inv_bounds _ _ Hinv) as (Hr & Hc & Hin).
  split; [exact Hr|]. split; [exact Hc|]. split.
  - intros rc Ho. apply gridHas_In in Ho. destruct Ho as (ch & Ho).
    rewrite <- surjective_pairing in Ho. apply (Hin rc ch Ho).
  - apply (proj2 (inv_tight _ Hinv2)).
Qed.

Lemma bounds_are_exact_witness :
  exists rc, occupied (grid catAceGrid) rc /\ fst rc = maxRow catAceGrid.
Proof.
  refine (proj1 (proj2 (proj2 (proj2 (proj2 (proj2
            (bounds_are_exact catAce catAceGrid eq_refl))) _)))).
  discriminate.
Defined.

(** X8.  When [buildGrid] returns a non-empty grid, every placement but the
    first shares a cell with a placement made before it: the words form one
    connected crossword. *)
Theorem every_word_crosses_an_earlier_one (entries : list Entry)
    (gi : GridState) (i : nat) (p : Placed) :
  buildGrid entries = inr gi -> grid gi <> [] ->
  nth_error (placed gi) i = Some p -> (0 < i)%nat ->
  exists j q, (j < i)%nat /\ nth_error (placed gi) j = Some q /\
              sharesCell p q.
Proof.
  intros H Hne Hp Hi.
  pose proof (buildGrid_inv2 entries gi H) as Hinv2.
  apply (inv_crossing _ Hinv2 Hne i p Hp Hi).
Qed.

Lemma every_word_crosses_an_earlier_one_witness :
  exists j q, (j < 1)%nat /\ nth_error (placed catAceGrid) j = Some q /\
              sharesCell (mkPlaced 1 0 1 down "ACE") q.
Proof.
  refine (every_word_crosses_an_earlier_one catAce catAceGrid 1
            (mkPlaced 1 0 1 down "ACE") eq_refl _ eq_refl _).
  - discriminate.
  - apply Nat.lt_0_1.
Defined.

(** ** [bestPlacement] as a search over the candidates *)

Lemma tryCell_eval (a : string) (i gr gc : Z) (best : option Best)
    (s : GridState) :
  tryCell a i gr gc best s
  = inr (fold_left (consider s a)
           [(gr, gc - i, across); (gr - i, gc, down)] best, s).
Proof.
  unfold tryCell, bind. rewrite canPlace_run, canPlace_run. reflexivity.
Qed.

Lemma cellsLoop_eval (a : string) (i : Z) (ch : ascii)
    (cells : list (Coord * ascii)) :
  forall (best : option Best) (s : GridState),
    cellsLoop a i ch cells best s
    = inr (fold_left (consider s a) (cellCandidates i ch cells) best, s).
Proof.
  induction cells as [|[[gr gc] cellCh] rest IH]; intros best s.
  - reflexivity.
  - assert (E : cellCandidates i ch (((gr, gc), cellCh) :: rest)
                = (if Ascii.eqb cellCh ch
                   then [(gr, gc - i, across); (gr - i, gc, down)]
                   else []) ++ cellCandidates i ch rest) by reflexivity.
    simpl cellsLoop.
    match goal with
    | |- _ = inr (fold_left _ ?l _, _) => change l with
          ((if Ascii.eqb cellCh ch
            then [(gr, gc - i, across); (gr - i, gc, down)]
            else []) ++ cellCandidates i ch rest)
    end.
    clear E. destruct (Ascii.eqb cellCh ch); cbn [negb].
    + unfold bind. rewrite tryCell_eval, IH, fold_left_app. reflexivity.
    + rewrite IH. reflexivity.
Qed.

Lemma charsLoop_eval (a : string) (chars : list ascii)
    (cells : list (Coord * ascii)) :
  forall (i : Z) (best : option Best) (s : GridState),
    charsLoop a chars i cells best s
    = inr (fold_left (consider s a) (candidatesFrom chars i cells) best, s).
Proof.
  induction chars as [|ch rest IH]; intros i best s; simpl.
  - reflexivity.
  - unfold bind. rewrite cellsLoop_eval, IH, fold_left_app. reflexivity.
Qed.

Lemma candidatesFrom_nil (chars : list ascii) :
  forall i, candidatesFrom chars i [] = [].
Proof. induction chars as [|ch rest IH]; intros i; simpl; auto. Qed.

Lemma bestPlacement_eval (a : string) (s : GridState) :
  bestPlacement a s
  = inr (fold_left (consider s a) (candidates a (grid s)) None, s).
Proof.
  unfold bestPlacement, bind, readState, candidates.
  destruct (grid s) as [|kv g] eqn:Eg.
  - simpl. rewrite candidatesFrom_nil. reflexivity.
  - simpl. rewrite charsLoop_eval. reflexivity.
Qed.

Lemma cellCandidates_In (i : Z) (ch : ascii) (cells : list (Coord * ascii))
    (c : StartKey) :
  In c (cellCandidates i ch cells) <->
  exists gr gc, In ((gr, gc), ch) cells /\
                (c = (gr, gc - i, across) \/ c = (gr - i, gc, down)).
Proof.
  unfold cellCandidates. rewrite in_flat_map. split.
  - intros ([[gr gc] e] & Hin & Hc). simpl in Hc.
    destruct (Ascii.eqb e ch) eqn:E; [|contradiction].
    apply Ascii.eqb_eq in E. subst e. exists gr, gc. split; auto.
    destruct Hc as [<-|[<-|[]]]; auto.
  - intros (gr & gc & Hin & Hc). exists ((gr, gc), ch). split; auto.
    simpl. rewrite Ascii.eqb_refl. destruct Hc as [->| ->]; simpl; auto.
Qed.

Lemma candidatesFrom_In (chars : list ascii) (cells : list (Coord * ascii))
    (c : StartKey) :
  forall i,
    In c (candidatesFrom chars i cells) <->
    exists j ch gr gc,
      nth_error chars j = Some ch /\ In ((gr, gc), ch) cells /\
      (c = (gr, gc - (i + Z.of_nat j), across) \/
       c = (gr - (i + Z.of_nat j), gc, down)).
Proof.
  induction chars as [|ch rest IH]; intros i; simpl.
  - split; [intros [] | intros (j & ch & _ & _ & H & _)].
    destruct j; discriminate.
  - rewrite in_app_iff, cellCandidates_In, IH. split.
    + intros [(gr & gc & Hin & Hc) | (j & ch' & gr & gc & Hj & Hin & Hc)].
      * exists 0%nat, ch, gr, gc. simpl. rewrite Z.add_0_r. auto.
      * exists (S j), ch', gr, gc. simpl nth_error.
        replace (i + Z.of_nat (S j)) with (i + 1 + Z.of_nat j) by lia. auto.
    + intros ([|j] & ch' & gr & gc & Hj & Hin & Hc); simpl in Hj.
      * inversion Hj; subst ch'. left. exists gr, gc.
        rewrite Z.add_0_r in Hc. auto.
      * right. exists j, ch', gr, gc.
        replace (i + Z.of_nat (S j)) with (i + 1 + Z.of_nat j) in Hc by lia.
        auto.
Qed.

Lemma consider_cases (s : GridState) (a : string) (best : option Best)
    (c : StartKey) :
  (consider s a best c = best /\
   forall k, checkAt s a c = Some k ->
             exists b, best = Some b /\ score k <= b_score b) \/
  (exists k, checkAt s a c = Some k /\
             consider s a best c
             = Some (mkBest (fst (fst c)) (snd (fst c)) (snd c) (score k)) /\
             forall b, best = Some b -> b_score b < score k).
Proof.
  unfold consider, better.
  destruct (checkAt s a c) as [k|]; [|left; split; [auto | discriminate]].
  destruct best as [b|].
  - destruct (Z.gtb_spec (score k) (b_score b)).
    + right. exists k. repeat split; auto. intros b' Hb. inversion Hb; subst.
      lia.
    + left. split; auto. intros k' Hk. inversion Hk; subst. exists b. auto.
  - right. exists k. repeat split; auto. discriminate.
Qed.

Lemma pick_spec (s : GridState) (a : string) (cands : list StartKey) :
  forall init,
    match fold_left (consider s a) cands init with
    | None => init = None /\ forall c, In c cands -> checkAt s a c = None
    | Some b =>
        (init = Some b /\
         forall c k, In c cands -> checkAt s a c = Some k ->
                     score k <= b_score b) \/
        (firstBest s a cands b /\
         forall b0, init = Some b0 -> b_score b0 < b_score b)
    end.
Proof.
  induction cands as [|c rest IH]; intros init.
  - simpl. destruct init as [b|].
    + left. split; auto. intros c k [].
    + split; auto. intros c [].
  - simpl. specialize (IH (consider s a init c)).
    destruct (consider_cases s a init c)
      as [[Hsame Hle] | (k & Hk & Hnew & Hlt)].
    + rewrite Hsame in IH |- *.
      destruct (fold_left (consider s a) rest init) as [b|].
      * destruct IH as [[Hi Hall] | [Hfb Hinit]].
        -- left. split; auto. intros c' k' [<-|Hin] Hk'; [|eauto].
           destruct (Hle k' Hk') as (b0 & Hb0 & Hsc). congruence.
        -- destruct Hfb as (pre & post & k & Hc & Hb & Hs & Hpre & Hpost).
           right. split; auto.
           exists (c :: pre), post, k. rewrite Hc.
           split; [reflexivity|]. split; [exact Hb|]. split; [exact Hs|].
           split; [|exact Hpost].
           intros c' k' [<-|Hin] Hk'; [|eauto].
           destruct (Hle k' Hk') as (b0 & Hb0 & Hsc).
           specialize (Hinit b0 Hb0). lia.
      * destruct IH as [Hi Hall]. split; auto.
        intros c' [<-|Hin]; auto.
        destruct (checkAt s a c) as [k'|] eqn:E; auto.
        destruct (Hle k' eq_refl) as (b0 & Hb0 & _). congruence.
    + rewrite Hnew in IH |- *.
      destruct (fold_left (consider s a) rest
                  (Some (mkBest (fst (fst c)) (snd (fst c)) (snd c) (score k))))
        as [b|].
      * right.
        destruct IH as [[Hi Hall] | [Hfb Hinit]].
        -- injection Hi as Hi. subst b. split.
           ++ exists [], rest, k. unfold bestKey. simpl.
              rewrite <- !surjective_pairing.
              split; [reflexivity|]. split; [exact Hk|]. split; [reflexivity|].
              split; [intros c' k' []|exact Hall].
           ++ simpl. exact Hlt.
        -- destruct Hfb as (pre & post & k2 & Hc & Hb & Hs & Hpre & Hpost).
           specialize (Hinit _ eq_refl). simpl in Hinit. split.
           ++ exists (c :: pre), post, k2. rewrite Hc.
              split; [reflexivity|]. split; [exact Hb|]. split; [exact Hs|].
              split; [|exact Hpost].
              intros c' k' [<-|Hin] Hk'; [|eauto].
              rewrite Hk in Hk'. injection Hk' as <-. exact Hinit.
           ++ intros b0 Hb0. specialize (Hlt b0 Hb0). lia.
      * destruct IH as [Hi _]. discriminate.
Qed.

Lemma candidates_In (a : string) (g : list (Coord * ascii)) (c : StartKey) :
  In c (candidates a g) <->
  exists j ch gr gc,
    nth_error (letters a) j = Some ch /\ In ((gr, gc), ch) g /\
    (c = (gr, gc - Z.of_nat j, across) \/ c = (gr - Z.of_nat j, gc, down)).
Proof. unfold candidates. rewrite candidatesFrom_In. reflexivity. Qed.

Lemma checkAt_canPlace (s : GridState) (a : string) (c : StartKey)
    (r : option Check) :
  canPlace a (fst (fst c)) (snd (fst c)) (snd c) s = inr (r, s) <->
  checkAt s a c = r.
Proof.
  rewrite canPlace_run. unfold checkAt. split; intros H; congruence.
Qed.

(** X9.  When [bestPlacement] returns a placement, the state is unchanged,
    the placement aligns a letter of the answer with an equal letter of the
    grid, [canPlace] accepts it with the score recorded, no accepted
    candidate scores higher, and every accepted candidate tried before it
    scores strictly lower: ties go to the candidate tried first. *)
Theorem bestPlacement_first_best (a : string) (s s' : GridState) (b : Best) :
  bestPlacement a s = inr (Some b, s') ->
  s' = s /\
  (exists j ch gr gc,
      nth_error (letters a) j = Some ch /\ In ((gr, gc), ch) (grid s) /\
      (bestKey b = (gr, gc - Z.of_nat j, across) \/
       bestKey b = (gr - Z.of_nat j, gc, down))) /\
  exists pre post k,
    candidates a (grid s) = pre ++ bestKey b :: post /\
    canPlace a (b_row b) (b_col b) (b_dir b) s = inr (Some k, s) /\
    score k = b_score b /\
    (forall c k', In c pre ->
                  canPlace a (fst (fst c)) (snd (fst c)) (snd c) s
                  = inr (Some k', s) ->
                  score k' < b_score b) /\
    (forall c k', In c post ->
                  canPlace a (fst (fst c)) (snd (fst c)) (snd c) s
                  = inr (Some k', s) ->
                  score k' <= b_score b).
Proof.
  rewrite bestPlacement_eval. intros H. injection H as Hb Hs.
  pose proof (pick_spec s a (candidates a (grid s)) None) as Hp.
  rewrite Hb in Hp.
  destruct Hp as [[Hi _] | [Hfb _]]; [discriminate|].
  destruct Hfb as (pre & post & k & Hc & Hk & Hsc & Hpre & Hpost).
  split; [auto|]. split.
  - apply (proj1 (candidates_In a (grid s) (bestKey b))).
    rewrite Hc. apply in_app_iff. right. left; auto.
  - exists pre, post, k.
    split; [exact Hc|]. split; [|split; [exact Hsc|split]].
    + apply (checkAt_canPlace s a (bestKey b)). exact Hk.
    + intros c k' Hin Hc'. apply checkAt_canPlace in Hc'. eauto.
    + intros c k' Hin Hc'. apply checkAt_canPlace in Hc'. eauto.
Qed.

Lemma bestPlacement_first_best_witness :
  exists pre post k,
    candidates "ACE" (grid afterCAT)
    = pre ++ bestKey (mkBest 0 1 down 991) :: post /\
    canPlace "ACE" 0 1 down afterCAT = inr (Some k, afterCAT) /\
    score k = 991 /\
    (forall c k', In c pre ->
                  canPlace "ACE" (fst (fst c)) (snd (fst c)) (snd c) afterCAT
                  = inr (Some k', afterCAT) ->
                  score k' < 991) /\
    (forall c k', In c post ->
                  canPlace "ACE" (fst (fst c)) (snd (fst c)) (snd c) afterCAT
                  = inr (Some k', afterCAT) ->
                  score k' <= 991).
Proof.
  exact (proj2 (proj2 (bestPlacement_first_best "ACE" afterCAT afterCAT
                         (mkBest 0 1 down 991) eq_refl))).
Defined.

(** X10.  [bestPlacement] returns nothing exactly when [canPlace] rejects
    every start that aligns a letter of the answer with an equal letter of
    the grid; in particular it returns nothing on an empty grid and for an
    answer that shares no letter with the grid. *)
Theorem bestPlacement_none_iff (a : string) (s : GridState) :
  bestPlacement a s = inr (None, s) <->
  forall j ch gr gc d,
    nth_error (letters a) j = Some ch -> In ((gr, gc), ch) (grid s) ->
    canPlace a (match d with across => gr | down => gr - Z.of_nat j end)
               (match d with across => gc - Z.of_nat j | down => gc end)
               d s
    = inr (None, s).
Proof.
  rewrite bestPlacement_eval.
  pose proof (pick_spec s a (candidates a (grid s)) None) as Hp.
  split.
  - intros H. inversion H as [Hb]. rewrite Hb in Hp. destruct Hp as [_ Hall].
    intros j ch gr gc d Hj Hin.
    set (c := match d with
              | across => (gr, gc - Z.of_nat j, across)
              | down => (gr - Z.of_nat j, gc, down)
              end).
    assert (Hc : In c (candidates a (grid s))).
    { apply candidates_In. exists j, ch, gr, gc. repeat split; auto.
      destruct d; auto. }
    specialize (Hall c Hc). apply checkAt_canPlace in Hall.
    destruct d; exact Hall.
  - intros Hall.
    destruct (fold_left (consider s a) (candidates a (grid s)) None)
      as [b|]; [|reflexivity].
    exfalso.
    destruct Hp as [[Hi _] | [Hfb _]]; [discriminate|].
    destruct Hfb as (pre & post & k & Hc & Hk & _).
    assert (Hin : In (bestKey b) (candidates a (grid s)))
      by (rewrite Hc; apply in_app_iff; right; left; auto).
    apply candidates_In in Hin.
    destruct Hin as (j & ch & gr & gc & Hj & Hg & [E|E]).
    + specialize (Hall j ch gr gc across Hj Hg). simpl in Hall.
      apply (checkAt_canPlace s a (gr, gc - Z.of_nat j, across)) in Hall.
      rewrite <- E in Hall. congruence.
    + specialize (Hall j ch gr gc down Hj Hg). simpl in Hall.
      apply (checkAt_canPlace s a (gr - Z.of_nat j, gc, down)) in Hall.
      rewrite <- E in Hall. congruence.
Qed.

(** ** What the placement loop throws *)

Lemma placeWordAt_error (i : nat) (a : string) (row col : Z) (d : Direction)
    (s : GridState) (err : BuildError) :
  placeWordAt i a row col d s = inl err ->
  err = InvalidPlacement a /\ canPlacePure s a row col d = None /\
  grid s <> [].
Proof.
  intros H.
  destruct (canPlacePure s a row col d) as [chk|] eqn:E.
  - destruct (placeWordAt_commits i a row col d s) as (s' & H' & _);
      [left; congruence|]. congruence.
  - destruct (list_nil_dec (grid s)) as [Hg|Hg].
    + destruct (placeWordAt_commits i a row col d s) as (s' & H' & _);
        [right; exact Hg|]. congruence.
    + rewrite (placeWordAt_throws i a row col d s E Hg) in H.
      injection H as <-. auto.
Qed.

Lemma bestPlacement_accepted (a : string) (s : GridState) (b : Best) :
  bestPlacement a s = inr (Some b, s) ->
  canPlacePure s a (b_row b) (b_col b) (b_dir b) <> None.
Proof.
  rewrite bestPlacement_eval. intros H. injection H as Hb.
  pose proof (pick_spec s a (candidates a (grid s)) None) as Hp.
  rewrite Hb in Hp. destruct Hp as [[Hi _] | [Hfb _]]; [discriminate|].
  destruct Hfb as (pre & post & k & _ & Hk & _).
  unfold checkAt, bestKey in Hk. simpl in Hk. congruence.
Qed.

Lemma placeItem_error (entries : list Entry) (it : OrderItem) (e : Entry)
    (s : GridState) (err : BuildError) :
  nth_error entries (idx it) = Some e ->
  placeItem entries it s = inl err ->
  err = InvalidPlacement (answer e) /\ grid s <> [] /\
  bestPlacement (answer e) s = inr (None, s).
Proof.
  intros He. unfold placeItem, bind, answerAt. rewrite He. unfold ret.
  destruct (bestPlacement_run (answer e) s) as (x & Hx). rewrite Hx.
  destruct x as [b|].
  - intros H. apply placeWordAt_error in H. destruct H as (_ & Hn & _).
    exfalso. exact (bestPlacement_accepted _ _ _ Hx Hn).
  - unfold readState. intros H. apply placeWordAt_error in H.
    destruct H as (-> & _ & Hg). auto.
Qed.

Lemma forEach_placeItem_error (entries : list Entry) (rest : list OrderItem) :
  forall (s : GridState) (err : BuildError),
    Forall (itemOK entries) rest ->
    forEach (placeItem entries) rest s = inl err ->
    exists it e, In it rest /\ nth_error entries (idx it) = Some e /\
                 err = InvalidPlacement (answer e).
Proof.
  induction rest as [|it rest IH]; intros s err Hok Hrun.
  - discriminate.
  - inversion Hok as [|? ? (e & He & _) Hok']; subst.
    simpl in Hrun. unfold bind in Hrun.
    destruct (placeItem entries it s) as [err1|[u1 s1]] eqn:E1.
    + injection Hrun as <-.
      destruct (placeItem_error entries it e s err1 He E1) as (-> & _).
      exists it, e. repeat split; auto. left; auto.
    + destruct (IH s1 err Hok' Hrun) as (it' & e' & Hin & He' & Herr).
      exists it', e'. repeat split; auto. right; auto.
Qed.

(** X11.  On a non-empty grid whose letters all lie on rows up to [maxRow],
    placing an entry throws exactly when [bestPlacement] finds no crossing
    for it, and the error names the answer: the placement [bestPlacement]
    chooses is always committed, and the fallback two rows below the grid is
    always refused. *)
Theorem placeItem_throws_iff (entries : list Entry) (it : OrderItem)
    (e : Entry) (s : GridState) (err : BuildError) :
  nth_error entries (idx it) = Some e ->
  grid s <> [] -> rowsBelowMax s ->
  (placeItem entries it s = inl err <->
   bestPlacement (answer e) s = inr (None, s) /\
   err = InvalidPlacement (answer e)) /\
  (forall b, bestPlacement (answer e) s = inr (Some b, s) ->
             exists s',
               placeItem entries it s = inr (tt, s') /\
               placed s' = placed s ++
                 [mkPlaced (idx it) (b_row b) (b_col b) (b_dir b) (answer e)]).
Proof.
  intros He Hg Hrows. split; [split|].
  - intros H. destruct (placeItem_error entries it e s err He H) as (-> & _ & Hb).
    auto.
  - intros [Hb ->]. unfold placeItem, bind, answerAt. rewrite He. unfold ret.
    rewrite Hb. unfold readState. apply fallback_throws; auto.
  - intros b Hb.
    destruct (placeWordAt_commits (idx it) (answer e) (b_row b) (b_col b)
                (b_dir b) s) as (s' & Hp & _ & Hpl & _).
    { left. exact (bestPlacement_accepted _ _ _ Hb). }
    exists s'. split; auto.
    unfold placeItem, bind, answerAt. rewrite He. unfold ret. rewrite Hb.
    exact Hp.
Qed.

Lemma afterCAT_rows : rowsBelowMax afterCAT.
Proof.
  intros rc ch Hin. simpl in Hin.
  destruct Hin as [H|[H|[H|[]]]]; injection H as <- _; simpl; lia.
Qed.

Lemma placeItem_throws_iff_witness :
  placeItem catDog (mkItem 1 3) afterCAT = inl (InvalidPlacement "DOG") <->
  bestPlacement "DOG" afterCAT = inr (None, afterCAT) /\
  InvalidPlacement "DOG" = InvalidPlacement "DOG".
Proof.
  refine (proj1 (placeItem_throws_iff catDog (mkItem 1 3)
                   (mkEntry "DOG" "Canine pet" None) afterCAT
                   (InvalidPlacement "DOG") eq_refl _ afterCAT_rows)).
  discriminate.
Defined.

Lemma buildGridFrom_error (entries : list Entry) (first : OrderItem)
    (rest : list OrderItem) (err : BuildError) :
  Forall (itemOK entries) (first :: rest) ->
  buildGridFrom entries (first :: rest) = inl err ->
  exists it e, In it rest /\ nth_error entries (idx it) = Some e /\
               err = InvalidPlacement (answer e).
Proof.
  intros Hok. inversion Hok as [|? ? (e & He & _) Hok']; subst.
  unfold buildGridFrom, bind, answerAt. rewrite He. unfold ret.
  destruct (placeWordAt_commits (idx first) (answer e) 0 0 across initState)
    as (s1 & Hp & _); [right; reflexivity|].
  rewrite Hp.
  destruct (forEach (placeItem entries) rest s1) as [err1|[u s2]] eqn:E;
    [|discriminate].
  intros H. injection H as <-.
  apply (forEach_placeItem_error entries rest s1 err1 Hok' E).
Qed.

(** X12.  [buildGrid] fails in two ways only: with a type error when there is
    no entry at all, and otherwise, when there are at least two entries, with
    an invalid-placement error that names the answer of one of them.  A list of
    one entry is always built. *)
Theorem buildGrid_errors (entries : list Entry) (err : BuildError) :
  buildGrid entries = inl err ->
  (entries = [] /\ err = TypeError) \/
  ((2 <= List.length entries)%nat /\
   exists e, In e entries /\ err = InvalidPlacement (answer e)).
Proof.
  unfold buildGrid. destruct (sortOrder_ok entries) as (Hok & _ & Hperm).
  pose proof (Permutation_length Hperm) as Hlen.
  rewrite length_map, length_seq in Hlen.
  destruct (sortOrder (indexed 0 entries)) as [|first rest].
  - simpl. intros H. injection H as <-. left. split; auto.
    destruct entries; [reflexivity | discriminate].
  - intros H. right.
    destruct (buildGridFrom_error entries first rest err Hok H)
      as (it & e' & Hin & He' & ->).
    split.
    + simpl in Hlen. destruct rest; [destruct Hin|]. simpl in Hlen. lia.
    + exists e'. split; auto. eapply nth_error_In; eauto.
Qed.

Lemma buildGrid_errors_witness :
  (catDog = [] /\ InvalidPlacement "DOG" = TypeError) \/
  ((2 <= List.length catDog)%nat /\
   exists e, In e catDog /\ InvalidPlacement "DOG" = InvalidPlacement (answer e)).
Proof. exact (buildGrid_errors catDog (InvalidPlacement "DOG") eq_refl). Defined.

(** ** The index of placements by start *)

Lemma indexPlacements_complete (entries : list Entry) (mnR mnC : Z)
    (ps : list Placed) :
  forall m,
    NoDup (map (normKey mnR mnC) ps) ->
    (forall q, In q ps ->
               JsMap.has StartKey_eqb (normKey mnR mnC q) m = false) ->
    exists m',
      indexPlacements entries mnR mnC ps m = inr m' /\
      (forall p, In p ps ->
                 JsMap.get StartKey_eqb (normKey mnR mnC p) m'
                 = Some (mappedOf entries p)) /\
      (forall k, (forall p, In p ps -> normKey mnR mnC p <> k) ->
                 JsMap.get StartKey_eqb k m' = JsMap.get StartKey_eqb k m).
Proof.
  induction ps as [|p ps IH]; intros m Hnd Hfresh.
  - exists m. repeat split; auto. intros p [].
  - simpl. fold (normKey mnR mnC p). fold (mappedOf entries p).
    rewrite (Hfresh p) by (left; auto).
    inversion Hnd as [|? ? Hnotin Hnd']; subst.
    assert (Hne : forall q, In q ps -> normKey mnR mnC q <> normKey mnR mnC p).
    { intros q Hq Heq. apply Hnotin. rewrite <- Heq. apply in_map. exact Hq. }
    destruct (IH (JsMap.set StartKey_eqb (normKey mnR mnC p)
                    (mappedOf entries p) m) Hnd') as (m' & Hrun & Hget & Hout).
    { intros q Hq. rewrite (has_set StartKey_eqb StartKey_eqb_iff).
      rewrite (eqb_diff StartKey_eqb StartKey_eqb_iff) by (apply Hne; auto).
      simpl. apply Hfresh. right; auto. }
    exists m'. split; [exact Hrun|]. split.
    + intros q [<-|Hq]; [|auto].
      rewrite Hout by (intros q Hq; apply Hne; auto).
      apply (get_set_same StartKey_eqb StartKey_eqb_iff).
    + intros k Hk. rewrite Hout by (intros q Hq; apply Hk; right; auto).
      apply (get_set_other StartKey_eqb StartKey_eqb_iff).
      intros ->. apply (Hk p); [left; auto | reflexivity].
Qed.

Lemma NoDup_normKey (mnR mnC : Z) (ps : list Placed) :
  NoDup (map (normKey mnR mnC) ps) <-> NoDup (map startOf ps).
Proof.
  split; intros H.
  - apply (NoDup_map_compose (normKey mnR mnC) startOf ps H).
    intros x y _ _ E. apply normKey_eq; auto.
  - apply (NoDup_map_compose startOf (normKey mnR mnC) ps H).
    intros x y _ _ E. apply normKey_eq in E; auto.
Qed.

(** X13.  The index of placements by start is built exactly when no two
    placements share a start cell and direction; it then maps the shifted
    start of each placement to that placement's index and entry, and maps
    nothing else.  The only error it throws is the duplicate-start error. *)
Theorem indexPlacements_spec (entries : list Entry) (mnR mnC : Z)
    (ps : list Placed) :
  ((exists m, indexPlacements entries mnR mnC ps [] = inr m) <->
   NoDup (map startOf ps)) /\
  (forall m, indexPlacements entries mnR mnC ps [] = inr m ->
             forall k v,
               JsMap.get StartKey_eqb k m = Some v <->
               exists p, In p ps /\
                         k = (row p - mnR, col p - mnC, dir p) /\
                         v = mkMapped (index p) (nth_error entries (index p))) /\
  (forall err, indexPlacements entries mnR mnC ps [] = inl err ->
               exists k, err = DuplicateStart k).
Proof.
  split; [split|split].
  - intros (m & Hm). apply indexPlacements_ok in Hm.
    apply (NoDup_normKey mnR mnC). tauto.
  - intros Hnd. apply (NoDup_normKey mnR mnC) in Hnd.
    destruct (indexPlacements_complete entries mnR mnC ps [] Hnd)
      as (m & Hm & _); [reflexivity|]. eauto.
  - intros m Hm k v. split.
    + intros Hk.
      destruct (indexPlacements_ok entries mnR mnC ps [] m Hm) as (_ & _ & Hg).
      destruct (Hg k v Hk) as [Hk'|(p & Hp & Hkp & Hv)]; [discriminate|].
      exists p. repeat split; auto.
    + intros (p & Hp & -> & ->).
      destruct (indexPlacements_ok entries mnR mnC ps [] m Hm) as (Hnd & _).
      destruct (indexPlacements_complete entries mnR mnC ps [] Hnd)
        as (m' & Hm' & Hget & _); [reflexivity|].
      rewrite Hm in Hm'. injection Hm' as <-. exact (Hget p Hp).
  - intros err. apply indexPlacements_error.
Qed.

(** ** The run of letters from a cell *)

Lemma cellOf_zero (d : Direction) (r c : Z) : cellOf d r c 0 = (r, c).
Proof. destruct d; unfold cellOf; simpl; f_equal; lia. Qed.

Lemma cellOf_succ (d : Direction) (r c : Z) (k : nat) :
  cellOf d r c (Z.of_nat (S k))
  = match d with
    | across => cellOf d r (c + 1) (Z.of_nat k)
    | down => cellOf d (r + 1) c (Z.of_nat k)
    end.
Proof. destruct d; unfold cellOf; simpl fst; simpl snd; f_equal; lia. Qed.

Lemma run_length (letterAt : list (Coord * ascii)) (nrows ncols : Z)
    (d : Direction) (n : nat) :
  forall r c,
    Z.to_nat (match d with across => ncols - c | down => nrows - r end) = n ->
    exists L,
      (forall k, (k < L)%nat ->
                 inRun letterAt nrows ncols
                   (fst (cellOf d r c (Z.of_nat k)))
                   (snd (cellOf d r c (Z.of_nat k))) = true) /\
      inRun letterAt nrows ncols (fst (cellOf d r c (Z.of_nat L)))
        (snd (cellOf d r c (Z.of_nat L))) = false.
Proof.
  induction n as [|n IH]; intros r c Hn.
  - exists 0%nat. split; [intros k Hk; lia|].
    change (Z.of_nat 0) with 0. rewrite cellOf_zero. simpl.
    unfold inRun. destruct d.
    + replace (c <? ncols) with false by (symmetry; apply Z.ltb_ge; lia).
      rewrite !andb_false_r. reflexivity.
    + replace (r <? nrows) with false by (symmetry; apply Z.ltb_ge; lia).
      rewrite !andb_false_r. reflexivity.
  - destruct (inRun letterAt nrows ncols r c) eqn:E.
    + destruct (IH (match d with across => r | down => r + 1 end)
                   (match d with across => c + 1 | down => c end))
        as (L & Hin & Hout).
      { destruct d; lia. }
      exists (S L). split.
      * intros [|k] Hk.
        -- change (Z.of_nat 0) with 0. rewrite cellOf_zero. exact E.
        -- rewrite cellOf_succ. specialize (Hin k ltac:(lia)).
           destruct d; exact Hin.
      * rewrite cellOf_succ. destruct d; exact Hout.
    + exists 0%nat. split; [intros k Hk; lia|].
      change (Z.of_nat 0) with 0. rewrite cellOf_zero. exact E.
Qed.

(** X14.  [takeRun] returns the maximal run from its start: the cells from
    [(r, c)] along the direction, up to and excluding the first cell that is
    outside the grid or holds no letter.  The loop always stops; from a cell
    outside the grid or without a letter the run is empty. *)
Theorem takeRun_maximal (letterAt : list (Coord * ascii)) (nrows ncols : Z)
    (r c : Z) (d : Direction) :
  exists L,
    takeRun letterAt nrows ncols r c d = cellsFrom d r c 0 L /\
    List.length (takeRun letterAt nrows ncols r c d) = L /\
    (forall k, (k < L)%nat ->
               inRun letterAt nrows ncols
                 (fst (cellOf d r c (Z.of_nat k)))
                 (snd (cellOf d r c (Z.of_nat k))) = true) /\
    inRun letterAt nrows ncols (fst (cellOf d r c (Z.of_nat L)))
      (snd (cellOf d r c (Z.of_nat L))) = false.
Proof.
  destruct (run_length letterAt nrows ncols d _ r c eq_refl)
    as (L & Hin & Hout).
  exists L.
  pose proof (takeRun_exact letterAt nrows ncols d r c L Hin Hout) as E.
  split; [exact E|]. split; [|split; assumption].
  rewrite E. unfold cellsFrom. rewrite length_map, length_seq. reflexivity.
Qed.

(** ** The scan never fails, and numbers the starts in reading order *)

Lemma updateNth_some {A : Type} (f : A -> A) (l : list A) :
  forall n x, nth_error l n = Some x -> exists l', updateNth n f l = Some l'.
Proof.
  induction l as [|y l IH]; intros [|n] x H; simpl in *; try discriminate.
  - eauto.
  - destruct (IH n x H) as (l' & ->). eauto.
Qed.

Lemma setNumber_some (r c num : Z) (g : list (list Cell)) :
  0 <= r -> 0 <= c -> cell2 g (Z.to_nat r) (Z.to_nat c) <> None ->
  exists g', setNumber r c num g = Some g'.
Proof.
  intros Hr Hc H. unfold setNumber.
  replace (r <? 0) with false by (symmetry; apply Z.ltb_ge; lia).
  replace (c <? 0) with false by (symmetry; apply Z.ltb_ge; lia).
  simpl. unfold cell2 in H.
  destruct (nth_error g (Z.to_nat r)) as [rowArr|] eqn:Er; [|contradiction].
  destruct (nth_error rowArr (Z.to_nat c)) as [x|] eqn:Ec; [|contradiction].
  destruct (updateNth_some
              (fun x => mkCell (c_row x) (c_col x) (solution x) (isBlock x)
                          (Some num)) rowArr _ x Ec) as (rowArr' & ->).
  exact (updateNth_some _ g _ rowArr Er).
Qed.

Lemma setNumber_cell2 (r c num : Z) (g g' : list (list Cell)) (i j : nat) :
  setNumber r c num g = Some g' ->
  cell2 g' i j
  = if ((i =? Z.to_nat r) && (j =? Z.to_nat c))%nat
    then option_map (withNumber (Some num)) (cell2 g i j)
    else cell2 g i j.
Proof.
  unfold setNumber. destruct ((r <? 0) || (c <? 0)); [discriminate|].
  destruct (nth_error g (Z.to_nat r)) as [rowArr|] eqn:Er; [|discriminate].
  destruct (updateNth (Z.to_nat c) _ rowArr) as [rowArr'|] eqn:Ec;
    [|discriminate].
  intros Hg. unfold cell2.
  rewrite (updateNth_nth _ g (Z.to_nat r) g' i Hg).
  destruct (i =? Z.to_nat r)%nat eqn:Ei; simpl; [|reflexivity].
  apply Nat.eqb_eq in Ei. subst i. rewrite Er. simpl.
  rewrite (updateNth_nth _ rowArr (Z.to_nat c) rowArr' j Ec).
  destruct (j =? Z.to_nat c)%nat; reflexivity.
Qed.

Lemma get_set_cases (k k0 : Coord) (v : Z) (m : list (Coord * Z)) :
  JsMap.get Coord_eqb k (JsMap.set Coord_eqb k0 v m)
  = if Coord_eqb k k0 then Some v else JsMap.get Coord_eqb k m.
Proof.
  destruct (Coord_eqb k k0) eqn:E.
  - apply Coord_eqb_iff in E. subst. apply get_set_same. apply Coord_eqb_iff.
  - apply get_set_other; [apply Coord_eqb_iff|].
    intros ->. rewrite Coord_eqb_refl in E. discriminate.
Qed.

Lemma before_next (k : Coord) (r c : Z) :
  before k r (c + 1) -> before k r c \/ k = (r, c).
Proof.
  destruct k as [a b]. unfold before. simpl. intros [H|[H1 H2]].
  - left. lia.
  - destruct (Z.eq_dec b c) as [->|Hne].
    + right. subst. reflexivity.
    + left. right. lia.
Qed.

Lemma StronglySorted_snoc {A : Type} (R : A -> A -> Prop) (l : list A) (y : A) :
  StronglySorted R l -> Forall (fun x => R x y) l ->
  StronglySorted R (l ++ [y]).
Proof.
  induction 1 as [|x l Hs IH Hx]; intros Hall; simpl.
  - constructor; constructor.
  - inversion Hall; subst. constructor; auto.
    apply Forall_app. split; auto.
Qed.

Lemma forEachR_seq_total {St : Type} (f : Z -> St -> Result St)
    (P : Z -> St -> Prop) (k : nat) :
  forall (a : nat) (s : St),
    (forall i t, Z.of_nat a <= i < Z.of_nat (a + k) -> P i t ->
                 exists t', f i t = inr t' /\ P (i + 1) t') ->
    P (Z.of_nat a) s ->
    exists s', forEachR f (map Z.of_nat (seq a k)) s = inr s' /\
               P (Z.of_nat (a + k)) s'.
Proof.
  induction k as [|k IH]; intros a s Hstep Hs.
  - exists s. simpl. rewrite Nat.add_0_r. auto.
  - simpl. destruct (Hstep (Z.of_nat a) s) as (t' & Hf & Ht'); [lia|auto|].
    rewrite Hf.
    destruct (IH (S a) t') as (s' & Hrun & Hs').
    + intros i t Hi. apply Hstep. lia.
    + replace (Z.of_nat (S a)) with (Z.of_nat a + 1) by lia. exact Ht'.
    + exists s'. split; auto.
      replace (a + S k)%nat with (S a + k)%nat by lia. exact Hs'.
Qed.

Lemma forEachR_zrange_total {St : Type} (f : Z -> St -> Result St)
    (P : Z -> St -> Prop) (n : Z) (s : St) :
  (forall i t, 0 <= i < n -> P i t ->
               exists t', f i t = inr t' /\ P (i + 1) t') ->
  P 0 s ->
  exists s', forEachR f (zrange n) s = inr s' /\ P (Z.max 0 n) s'.
Proof.
  intros Hstep Hs. unfold zrange.
  destruct (forEachR_seq_total f P (Z.to_nat n) 0 s) as (s' & Hrun & Hs').
  - intros i t Hi. apply Hstep. lia.
  - exact Hs.
  - exists s'. split; auto.
    replace (Z.max 0 n) with (Z.of_nat (0 + Z.to_nat n)) by lia. exact Hs'.
Qed.

Section NumFacts.
Variable letterAt : list (Coord * ascii).
Variables nrows ncols : Z.
Variable ste : list (StartKey * Mapped).
Variable g0 : list (list Cell).
Hypothesis Hste :
  forall d r c,
    0 <= r < nrows -> 0 <= c < ncols ->
    hasLetter letterAt r c = true -> startsIn letterAt d r c = true ->
    exists mp e, JsMap.get StartKey_eqb (r, c, d) ste = Some mp /\
                 m_entry mp = Some e.
Hypothesis Hshape :
  forall i j, Z.of_nat i < nrows -> Z.of_nat j < ncols -> cell2 g0 i j <> None.

Lemma NumInv_weaken (r c r' c' : Z) (s : ScanState) :
  NumInv letterAt nrows ncols g0 r c s ->
  (forall k, before k r c -> before k r' c') ->
  (forall a b, 0 <= a < nrows -> 0 <= b < ncols ->
               before (a, b) r' c' -> before (a, b) r c) ->
  NumInv letterAt nrows ncols g0 r' c' s.
Proof.
  intros [H1 H2 H3 H4 H5 H6 H7 H8 H9] Hw Hb. constructor; auto.
  intros k n Hk. destruct (H2 k n Hk). auto.
Qed.

Lemma scanCell_skip (r c : Z) (s : ScanState) :
  hasLetter letterAt r c = false \/
  (startsAcross letterAt r c = false /\ startsDown letterAt r c = false) ->
  scanCell letterAt nrows ncols ste r c s = inr s.
Proof.
  unfold scanCell. intros [->|[-> ->]]; simpl; [reflexivity|].
  destruct (hasLetter letterAt r c); reflexivity.
Qed.

Lemma emitClue_some (r c : Z) (d : Direction) (num : Z) (s : ScanState)
    (mp : Mapped) (e : Entry) :
  JsMap.get StartKey_eqb (r, c, d) ste = Some mp -> m_entry mp = Some e ->
  emitClue letterAt nrows ncols ste r c d num s
  = inr (pushClue d (mkClue num (clue e) (takeRun letterAt nrows ncols r c d))
           (JsSet.add (m_index mp) (usedEntries s)) s).
Proof. intros H1 H2. unfold emitClue. rewrite H1, H2. reflexivity. Qed.

Lemma scanCell_start (r c : Z) (s : ScanState) :
  0 <= r < nrows -> 0 <= c < ncols ->
  NumInv letterAt nrows ncols g0 r c s ->
  hasLetter letterAt r c = true ->
  startsAcross letterAt r c || startsDown letterAt r c = true ->
  exists s',
    scanCell letterAt nrows ncols ste r c s = inr s' /\
    clueNumber s' = clueNumber s + 1 /\
    numbered s' = JsMap.set Coord_eqb (r, c) (clueNumber s) (numbered s) /\
    setNumber r c (clueNumber s) (gridJson s) = Some (gridJson s') /\
    forall d, exists txt,
      cluesOf d s'
      = cluesOf d s ++
        (if startsIn letterAt d r c
         then [mkClue (clueNumber s) txt (takeRun letterAt nrows ncols r c d)]
         else []).
Proof.
  intros Hr Hc Hinv El Hst.
  assert (Hfresh : JsMap.get Coord_eqb (r, c) (numbered s) = None).
  { destruct (JsMap.get Coord_eqb (r, c) (numbered s)) as [n|] eqn:E; auto.
    destruct (ni_range _ _ _ _ _ _ _ Hinv (r, c) n E) as [_ Hb].
    unfold before in Hb. simpl in Hb. lia. }
  destruct (setNumber_some r c (clueNumber s) (gridJson s)) as (g' & Hg');
    [lia | lia | |].
  { rewrite (ni_grid _ _ _ _ _ _ _ Hinv).
    pose proof (Hshape (Z.to_nat r) (Z.to_nat c)) as Hs.
    destruct (cell2 g0 (Z.to_nat r) (Z.to_nat c)); [discriminate|].
    exfalso. apply Hs; auto; lia. }
  unfold scanCell. rewrite El. simpl.
  unfold assignNumber. rewrite Hfresh, Hg'.
  destruct (startsAcross letterAt r c) eqn:Ea;
    destruct (startsDown letterAt r c) eqn:Ed; simpl in Hst;
    try discriminate; simpl.
  - destruct (Hste across r c Hr Hc El Ea) as (mpa & ea & Ha1 & Ha2).
    destruct (Hste down r c Hr Hc El Ed) as (mpd & ed & Hd1 & Hd2).
    rewrite (emitClue_some r c across _ _ mpa ea Ha1 Ha2). simpl.
    rewrite (emitClue_some r c down _ _ mpd ed Hd1 Hd2).
    eexists. split; [reflexivity|]. simpl. repeat split; auto.
    intros [|]; simpl; rewrite ?Ea, ?Ed; eexists; reflexivity.
  - destruct (Hste across r c Hr Hc El Ea) as (mpa & ea & Ha1 & Ha2).
    rewrite (emitClue_some r c across _ _ mpa ea Ha1 Ha2). simpl.
    eexists. split; [reflexivity|]. simpl. repeat split; auto.
    intros [|]; simpl; rewrite ?Ea, ?Ed; [eexists; reflexivity|].
    exists EmptyString. rewrite app_nil_r. reflexivity.
  - destruct (Hste down r c Hr Hc El Ed) as (mpd & ed & Hd1 & Hd2).
    rewrite (emitClue_some r c down _ _ mpd ed Hd1 Hd2).
    eexists. split; [reflexivity|]. simpl. repeat split; auto.
    intros [|]; simpl; rewrite ?Ea, ?Ed; [|eexists; reflexivity].
    exists EmptyString. rewrite app_nil_r. reflexivity.
Qed.

Lemma num_skip (r c : Z) (s : ScanState) :
  NumInv letterAt nrows ncols g0 r c s ->
  hasLetter letterAt r c = false \/
  (startsAcross letterAt r c = false /\ startsDown letterAt r c = false) ->
  NumInv letterAt nrows ncols g0 r (c + 1) s.
Proof.
  intros Hinv Hno.
  destruct Hinv as [H1 H2 H3 H4 H5 H6 H7 H8 H9]. constructor; auto.
  - intros k n Hk. destruct (H2 k n Hk) as [Hn Hb]. split; auto.
    unfold before in *. lia.
  - intros d a b Ha Hb Hbef Hl Hs.
    destruct (before_next _ _ _ Hbef) as [Hold|Heq]; [auto|].
    injection Heq as -> ->. exfalso.
    destruct Hno as [Hno|[Hna Hnd]]; [congruence|].
    destruct d; simpl in Hs; congruence.
Qed.

Lemma num_start (r c : Z) (s s' : ScanState) :
  0 <= r < nrows -> 0 <= c < ncols ->
  NumInv letterAt nrows ncols g0 r c s ->
  hasLetter letterAt r c = true ->
  startsAcross letterAt r c || startsDown letterAt r c = true ->
  clueNumber s' = clueNumber s + 1 ->
  numbered s' = JsMap.set Coord_eqb (r, c) (clueNumber s) (numbered s) ->
  setNumber r c (clueNumber s) (gridJson s) = Some (gridJson s') ->
  (forall d, exists txt,
      cluesOf d s'
      = cluesOf d s ++
        (if startsIn letterAt d r c
         then [mkClue (clueNumber s) txt (takeRun letterAt nrows ncols r c d)]
         else [])) ->
  NumInv letterAt nrows ncols g0 r (c + 1) s'.
Proof.
  intros Hr Hc [H1 H2 H3 H4 H5 H6 H7 H8 H9] El Hst Hn Hnum Hg Hcl.
  assert (Hget : forall k,
             numberAt s' k
             = if Coord_eqb k (r, c) then Some (clueNumber s)
               else numberAt s k).
  { intros k. unfold numberAt. rewrite Hnum. apply get_set_cases. }
  assert (Hfresh : numberAt s (r, c) = None).
  { destruct (numberAt s (r, c)) as [n|] eqn:E; auto.
    destruct (H2 (r, c) n E) as [_ Hb]. unfold before in Hb. simpl in Hb. lia. }
  assert (Hold : forall k n, numberAt s k = Some n ->
                             numberAt s' k = Some n).
  { intros k n Hk. rewrite Hget.
    destruct (Coord_eqb k (r, c)) eqn:E; auto.
    apply Coord_eqb_iff in E. subst k. congruence. }
  assert (Hnew : forall d cl,
             In cl (cluesOf d s') ->
             In cl (cluesOf d s) \/
             (startsIn letterAt d r c = true /\ cl_number cl = clueNumber s /\
              clueStart cl = (r, c))).
  { intros d cl Hin. destruct (Hcl d) as (txt & E). rewrite E in Hin.
    apply in_app_iff in Hin. destruct Hin as [Hin|Hin]; auto.
    destruct (startsIn letterAt d r c); [|destruct Hin].
    destruct Hin as [<-|[]]. right. repeat split.
    unfold clueStart. simpl. apply takeRun_start; auto. }
  constructor.
  - lia.
  - intros k n Hk. rewrite Hget in Hk.
    destruct (Coord_eqb k (r, c)) eqn:E.
    + apply Coord_eqb_iff in E. subst k. injection Hk as <-.
      split; [lia|]. unfold before. simpl. lia.
    + destruct (H2 k n Hk) as [Hr' Hb]. split; [lia|].
      unfold before in *. lia.
  - intros n Hn'. destruct (Z.eq_dec n (clueNumber s)) as [->|Hne].
    + exists (r, c). rewrite Hget, Coord_eqb_refl. reflexivity.
    + destruct (H3 n) as (k & Hk); [lia|]. exists k. auto.
  - intros k1 k2 n1 n2 Hk1 Hk2 Hb. rewrite Hget in Hk1, Hk2.
    destruct (Coord_eqb k1 (r, c)) eqn:E1; destruct (Coord_eqb k2 (r, c)) eqn:E2.
    + apply Coord_eqb_iff in E1, E2. subst. unfold before in Hb. simpl in Hb.
      lia.
    + apply Coord_eqb_iff in E1. subst k1.
      destruct (H2 k2 n2 Hk2) as [_ Hb2].
      unfold before in Hb, Hb2. simpl in Hb. lia.
    + injection Hk2 as <-. destruct (H2 k1 n1 Hk1). lia.
    + eapply H4; eauto.
  - intros d cl Hin. destruct (Hnew d cl Hin) as [Hin'|(_ & Hnum' & Hs)].
    + apply Hold. exact (H5 d cl Hin').
    + rewrite Hget, Hs, Coord_eqb_refl, Hnum'. reflexivity.
  - intros k n Hk. rewrite Hget in Hk.
    destruct (Coord_eqb k (r, c)) eqn:E.
    + apply Coord_eqb_iff in E. subst k.
      assert (Hd : exists d, startsIn letterAt d r c = true).
      { apply orb_true_iff in Hst. destruct Hst; [exists across|exists down];
          auto. }
      destruct Hd as (d & Hd). destruct (Hcl d) as (txt & E).
      rewrite Hd in E. exists d. eexists. split.
      * rewrite E. apply in_app_iff. right. left. reflexivity.
      * unfold clueStart. simpl. apply takeRun_start; auto.
    + destruct (H6 k n Hk) as (d & cl & Hin & Hs). exists d, cl. split; auto.
      destruct (Hcl d) as (txt & E'). rewrite E'. apply in_app_iff. auto.
  - intros d. destruct (Hcl d) as (txt & E). rewrite E.
    destruct (startsIn letterAt d r c); [|rewrite app_nil_r; auto].
    apply StronglySorted_snoc; auto.
    rewrite Forall_forall. intros cl Hin. unfold numLt. simpl.
    destruct (H2 _ _ (H5 d cl Hin)). lia.
  - intros i j. rewrite (setNumber_cell2 r c _ _ _ i j Hg), H8, Hget.
    destruct ((i =? Z.to_nat r) && (j =? Z.to_nat c))%nat eqn:E.
    + apply andb_true_iff in E. destruct E as [Ei Ej].
      apply Nat.eqb_eq in Ei, Ej. subst i j.
      replace (Z.of_nat (Z.to_nat r), Z.of_nat (Z.to_nat c)) with (r, c)
        by (f_equal; lia).
      rewrite Coord_eqb_refl, Hfresh.
      destruct (cell2 g0 (Z.to_nat r) (Z.to_nat c)); reflexivity.
    + destruct (Coord_eqb (Z.of_nat i, Z.of_nat j) (r, c)) eqn:E'; auto.
      exfalso. apply Coord_eqb_iff in E'. injection E' as <- <-.
      rewrite !Nat2Z.id, !Nat.eqb_refl in E. discriminate.
  - intros d a b Ha Hb Hbef Hl Hs.
    destruct (before_next _ _ _ Hbef) as [Hold'|Heq].
    + destruct (H9 d a b Ha Hb Hold' Hl Hs) as (cl & Hin & Hcs).
      exists cl. split; auto.
      destruct (Hcl d) as (txt & E'). rewrite E'. apply in_app_iff. auto.
    + injection Heq as -> ->. destruct (Hcl d) as (txt & E).
      rewrite Hs in E. eexists. split.
      * rewrite E. apply in_app_iff. right. left. reflexivity.
      * unfold clueStart. simpl. apply takeRun_start; auto.
Qed.

Lemma num_step (r c : Z) (s : ScanState) :
  0 <= r < nrows -> 0 <= c < ncols ->
  NumInv letterAt nrows ncols g0 r c s ->
  exists s',
    scanCell letterAt nrows ncols ste r c s = inr s' /\
    NumInv letterAt nrows ncols g0 r (c + 1) s'.
Proof.
  intros Hr Hc Hinv.
  destruct (hasLetter letterAt r c) eqn:El.
  - destruct (startsAcross letterAt r c || startsDown letterAt r c) eqn:Est.
    + destruct (scanCell_start r c s Hr Hc Hinv El Est)
        as (s' & Hrun & Hn & Hnum & Hg & Hcl).
      exists s'. split; auto. eapply num_start; eauto.
    + apply orb_false_iff in Est. exists s. split.
      * apply scanCell_skip. auto.
      * apply num_skip; auto.
  - exists s. split.
    + apply scanCell_skip. auto.
    + apply num_skip; auto.
Qed.

Lemma num_row (r : Z) (s : ScanState) :
  0 <= r < nrows ->
  NumInv letterAt nrows ncols g0 r 0 s ->
  exists s',
    forEachR (scanCell letterAt nrows ncols ste r) (zrange ncols) s = inr s' /\
    NumInv letterAt nrows ncols g0 (r + 1) 0 s'.
Proof.
  intros Hr Hinv.
  destruct (forEachR_zrange_total (scanCell letterAt nrows ncols ste r)
              (fun c t => NumInv letterAt nrows ncols g0 r c t) ncols s)
    as (s' & Hrun & Hs'); auto.
  - intros c t Hc Ht. apply num_step; auto.
  - exists s'. split; auto.
    apply (NumInv_weaken r (Z.max 0 ncols)); auto.
    + intros k. unfold before. lia.
    + intros a b Ha Hb. unfold before. simpl. lia.
Qed.

Lemma num_scan (s : ScanState) :
  NumInv letterAt nrows ncols g0 0 0 s ->
  exists s',
    scan letterAt nrows ncols ste s = inr s' /\
    NumInv letterAt nrows ncols g0 (Z.max 0 nrows) 0 s'.
Proof.
  intros Hinv. unfold scan.
  apply (forEachR_zrange_total
           (fun r => forEachR (scanCell letterAt nrows ncols ste r)
                       (zrange ncols))
           (fun r t => NumInv letterAt nrows ncols g0 r 0 t)); auto.
  intros r t Hr Ht. apply num_row; auto.
Qed.

End NumFacts.

Lemma num_start_inv (letterAt : list (Coord * ascii)) (nrows ncols : Z)
    (g0 : list (list Cell)) :
  NumInv letterAt nrows ncols g0 0 0 (mkScan 1 [] [] [] [] g0).
Proof.
  constructor; simpl; unfold numberAt; simpl.
  - lia.
  - intros k n H. discriminate.
  - intros n H. lia.
  - intros k1 k2 n1 n2 H. discriminate.
  - intros [|] cl [].
  - intros k n H. discriminate.
  - intros [|]; constructor.
  - intros i j. destruct (cell2 g0 i j); reflexivity.
  - intros d a b Ha Hb Hbef. unfold before in Hbef. simpl in Hbef. lia.
Qed.

(** ** The compiler on the grids [buildGrid] returns *)

Lemma denseGrid_cell2 (letterAt : list (Coord * ascii)) (nrows ncols : Z)
    (i j : nat) :
  cell2 (denseGrid letterAt nrows ncols) i j
  = if (Z.of_nat i <? nrows) && (Z.of_nat j <? ncols)
    then Some (denseCell letterAt (Z.of_nat i) (Z.of_nat j))
    else None.
Proof.
  unfold cell2, denseGrid. rewrite nth_error_map.
  destruct (Z.ltb_spec (Z.of_nat i) nrows) as [Hi|Hi]; simpl.
  - rewrite zrange_nth by lia. simpl. rewrite nth_error_map.
    destruct (Z.ltb_spec (Z.of_nat j) ncols) as [Hj|Hj].
    + rewrite zrange_nth by lia. reflexivity.
    + replace (nth_error (zrange ncols) j) with (@None Z); [reflexivity|].
      symmetry. apply nth_error_None. rewrite zrange_length. lia.
  - replace (nth_error (zrange nrows) i) with (@None Z); [reflexivity|].
    symmetry. apply nth_error_None. rewrite zrange_length. lia.
Qed.

Section Compiled.
Variable entries : list Entry.
Variable gi : GridState.
Hypothesis Hinv : GridInv entries gi.
Hypothesis Hinv2 : GridInv2 gi.

(** A cell where the scan sees a start is the first cell of a placed word
    of that direction, and the word has at least two letters. *)
Lemma start_has_placement (d : Direction) (r c : Z) :
  hasLetter (normalize (minRow gi) (minCol gi) (grid gi)) r c = true ->
  startsIn (normalize (minRow gi) (minCol gi) (grid gi)) d r c = true ->
  exists p, In p (placed gi) /\
            normKey (minRow gi) (minCol gi) p = (r, c, d) /\
            2 <= strlen (p_answer p).
Proof.
  intros Hl Hs.
  pose proof (inv_keys _ _ Hinv) as Hk.
  rewrite normalize_has in Hl by auto.
  assert (Hprev : ~ occupied (grid gi)
                    (cellOf d (r + minRow gi) (c + minCol gi) (-1)) /\
                  occupied (grid gi)
                    (stepCell d (r + minRow gi, c + minCol gi))).
  { unfold occupied. destruct d; simpl in *.
    - unfold startsAcross in Hs. apply andb_true_iff in Hs.
      destruct Hs as [H1 H2]. apply negb_true_iff in H1.
      rewrite normalize_has in H1, H2 by auto. split.
      + replace (c + minCol gi + -1) with (c - 1 + minCol gi) by lia.
        congruence.
      + replace (c + minCol gi + 1) with (c + 1 + minCol gi) by lia. exact H2.
    - unfold startsDown in Hs. apply andb_true_iff in Hs.
      destruct Hs as [H1 H2]. apply negb_true_iff in H1.
      rewrite normalize_has in H1, H2 by auto. split.
      + replace (r + minRow gi + -1) with (r - 1 + minRow gi) by lia.
        congruence.
      + replace (r + minRow gi + 1) with (r + 1 + minRow gi) by lia. exact H2. }
  destruct Hprev as [Hprev Hnext].
  destruct (inv_joined _ Hinv2 d (r + minRow gi, c + minCol gi) Hl Hnext)
    as (p & Hp & Hd & (k1 & Hk1 & Hw1) & (k2 & Hk2 & Hw2)).
  pose proof (inv_letters _ _ Hinv) as Hlet. rewrite Forall_forall in Hlet.
  assert (Hk0 : k1 = 0).
  { destruct (Z.eq_dec k1 0) as [|Hne]; auto. exfalso. apply Hprev.
    pose proof (lettersInGrid_occupied (grid gi) p (k1 - 1) (Hlet p Hp)
                  ltac:(lia)) as Ho.
    replace (cellOf d (r + minRow gi) (c + minCol gi) (-1))
      with (wordCell p (k1 - 1)); auto.
    unfold wordCell in *. rewrite Hd in *.
    destruct d; simpl in *; injection Hw1 as E1 E2; f_equal; lia. }
  subst k1. exists p. split; auto. unfold wordCell in *. rewrite Hd in *.
  unfold normKey. rewrite Hd.
  destruct d; simpl in *; injection Hw1 as E1 E2; injection Hw2 as E3 E4;
    (split; [f_equal; f_equal; lia | lia]).
Qed.

(** Conversely the first cell of a placed word of two letters or more is a
    start of its direction, inside the grid. *)
Lemma placement_is_start (p : Placed) :
  In p (placed gi) -> 2 <= strlen (p_answer p) ->
  0 <= row p - minRow gi < maxRow gi - minRow gi + 1 /\
  0 <= col p - minCol gi < maxCol gi - minCol gi + 1 /\
  hasLetter (normalize (minRow gi) (minCol gi) (grid gi))
    (row p - minRow gi) (col p - minCol gi) = true /\
  startsIn (normalize (minRow gi) (minCol gi) (grid gi)) (dir p)
    (row p - minRow gi) (col p - minCol gi) = true.
Proof.
  intros Hp Hlen.
  pose proof (inv_keys _ _ Hinv) as Hk.
  pose proof (inv_letters _ _ Hinv) as Hlet. rewrite Forall_forall in Hlet.
  pose proof (inv_ends _ _ Hinv) as He. rewrite Forall_forall in He.
  pose proof (lettersInGrid_occupied (grid gi) p 0 (Hlet p Hp) ltac:(lia))
    as H0.
  pose proof (lettersInGrid_occupied (grid gi) p 1 (Hlet p Hp) ltac:(lia))
    as H1.
  destruct (He p Hp ltac:(lia)) as [Hbefore _].
  unfold occupied, wordCell in *.
  assert (Hin : gridHas (grid gi) (row p) (col p) = true).
  { rewrite <- H0. destruct (dir p); simpl; f_equal; lia. }
  pose proof Hin as Hin'. apply gridHas_In in Hin'. destruct Hin' as (ch & Hin').
  destruct (inv_bounds _ _ Hinv) as (_ & _ & Hb). apply Hb in Hin'.
  simpl in Hin'.
  split; [lia|]. split; [lia|]. split.
  - rewrite normalize_has by auto. rewrite <- Hin. f_equal; lia.
  - destruct (dir p); simpl in *.
    + unfold startsAcross. rewrite !normalize_has by auto.
      apply andb_true_iff. split.
      * apply negb_true_iff.
        destruct (gridHas (grid gi) (row p - minRow gi + minRow gi)
                    (col p - minCol gi - 1 + minCol gi)) eqn:E; auto.
        exfalso. apply Hbefore. rewrite <- E. f_equal; lia.
      * rewrite <- H1. f_equal; lia.
    + unfold startsDown. rewrite !normalize_has by auto.
      apply andb_true_iff. split.
      * apply negb_true_iff.
        destruct (gridHas (grid gi) (row p - minRow gi - 1 + minRow gi)
                    (col p - minCol gi + minCol gi)) eqn:E; auto.
        exfalso. apply Hbefore. rewrite <- E. f_equal; lia.
      * rewrite <- H1. f_equal; lia.
Qed.

Variable ste : list (StartKey * Mapped).
Hypothesis Hix :
  indexPlacements entries (minRow gi) (minCol gi) (placed gi) [] = inr ste.

Lemma ste_lookup (p : Placed) :
  In p (placed gi) ->
  exists e,
    JsMap.get StartKey_eqb (normKey (minRow gi) (minCol gi) p) ste
    = Some (mkMapped (index p) (Some e)) /\
    nth_error entries (index p) = Some e /\ p_answer p = answer e.
Proof.
  intros Hp.
  destruct (indexPlacements_ok _ _ _ _ _ _ Hix) as (Hnd & _).
  destruct (indexPlacements_complete entries (minRow gi) (minCol gi)
              (placed gi) [] Hnd) as (m' & Hm' & Hget & _); [reflexivity|].
  rewrite Hix in Hm'. injection Hm' as <-.
  pose proof (inv_entries _ _ Hinv) as Hen. rewrite Forall_forall in Hen.
  destruct (Hen p Hp) as (e & He & Ha).
  exists e. rewrite (Hget p Hp). unfold mappedOf. rewrite He. auto.
Qed.

(** On a grid that [buildGrid] returned the scan runs to its end. *)
Lemma scan_total :
  exists s,
    scanOf gi ste = inr s /\
    NumInv (normalize (minRow gi) (minCol gi) (grid gi))
      (maxRow gi - minRow gi + 1) (maxCol gi - minCol gi + 1)
      (gridJson (scanStart gi))
      (Z.max 0 (maxRow gi - minRow gi + 1)) 0 s.
Proof.
  unfold scanOf. apply num_scan.
  - intros d r c Hr Hc Hl Hs.
    destruct (start_has_placement d r c Hl Hs) as (p & Hp & Hkey & _).
    destruct (ste_lookup p Hp) as (e & Hget & _).
    rewrite Hkey in Hget. eexists. exists e. split; [exact Hget | reflexivity].
  - intros i j Hi Hj. simpl. rewrite denseGrid_cell2.
    replace (Z.of_nat i <? maxRow gi - minRow gi + 1) with true
      by (symmetry; apply Z.ltb_lt; lia).
    replace (Z.of_nat j <? maxCol gi - minCol gi + 1) with true
      by (symmetry; apply Z.ltb_lt; lia).
    discriminate.
  - apply num_start_inv.
Qed.

End Compiled.

Section Built.
Variable entries : list Entry.
Variable gi : GridState.
Variable ste : list (StartKey * Mapped).
Variable s : ScanState.
Hypothesis Hgrid : buildGrid entries = inr gi.
Hypothesis Hix :
  indexPlacements entries (minRow gi) (minCol gi) (placed gi) [] = inr ste.
Hypothesis Hscan : scanOf gi ste = inr s.

Lemma bt_inv : GridInv entries gi.
Proof. apply (buildGrid_inv entries gi Hgrid). Qed.

Lemma bt_num :
  NumInv (normalize (minRow gi) (minCol gi) (grid gi))
    (maxRow gi - minRow gi + 1) (maxCol gi - minCol gi + 1)
    (gridJson (scanStart gi))
    (Z.max 0 (maxRow gi - minRow gi + 1)) 0 s.
Proof.
  destruct (scan_total entries gi bt_inv (buildGrid_inv2 entries gi Hgrid)
              ste Hix) as (s' & Hs' & Hn).
  rewrite Hscan in Hs'. injection Hs' as <-. exact Hn.
Qed.

Lemma bt_placement (i : nat) (e : Entry) :
  nth_error entries i = Some e ->
  exists p, In p (placed gi) /\ index p = i /\ p_answer p = answer e.
Proof.
  intros He.
  destruct (buildGrid_inv entries gi Hgrid) as (Hinv & Hperm).
  assert (Hi : In i (map index (placed gi))).
  { apply (Permutation_in _ (Permutation_sym Hperm)). apply in_seq.
    assert (i < List.length entries)%nat by (apply nth_error_Some; congruence).
    lia. }
  apply in_map_iff in Hi. destruct Hi as (p & Hpi & Hp).
  exists p. split; auto. split; auto.
  pose proof (inv_entries _ _ Hinv) as Hen. rewrite Forall_forall in Hen.
  destruct (Hen p Hp) as (e' & He' & Ha). congruence.
Qed.

(** A placed word of two letters or more has its clue. *)
Lemma bt_clue_of (p : Placed) :
  In p (placed gi) -> 2 <= strlen (p_answer p) ->
  exists cl,
    In cl (cluesOf (dir p) s) /\
    clueStart cl = (row p - minRow gi, col p - minCol gi) /\
    clueRef ste (dir p) cl = Some (index p) /\
    cells cl = placementCells (p_answer p)
                 (row p - minRow gi) (col p - minCol gi) (dir p).
Proof.
  intros Hp Hlen.
  destruct (placement_is_start entries gi bt_inv p Hp Hlen)
    as (Hr & Hc & Hl & Hs).
  destruct (ni_complete _ _ _ _ _ _ _ bt_num (dir p) _ _ Hr Hc) as (cl & Hin & Hst);
    auto.
  { unfold before. simpl. lia. }
  exists cl. split; auto. split; auto.
  destruct (ste_lookup entries gi bt_inv ste Hix p Hp) as (e & Hget & _).
  split.
  - unfold clueRef. rewrite Hst.
    exact (f_equal (option_map m_index) Hget).
  - destruct (sr_clue entries gi ste s Hgrid Hix Hscan (dir p) cl Hin)
      as (q & e' & Hq & Hdq & Hsq & _ & _ & _ & Haq & _ & _ & _ & Hcells).
    rewrite Hst in Hsq. injection Hsq as E1 E2.
    assert (Hrq : row q = row p) by lia.
    assert (Hcq : col q = col p) by lia.
    assert (Hsame : startOf q = startOf p)
      by (unfold startOf; rewrite Hrq, Hcq, Hdq; reflexivity).
    rewrite Hcells, <- Haq, (inv_starts _ _ bt_inv q p Hq Hp Hsame), Hrq, Hcq.
    reflexivity.
Qed.

Lemma bt_entry_matched (i : nat) (e : Entry) :
  nth_error entries i = Some e -> 2 <= strlen (answer e) -> matched ste s i.
Proof.
  intros He Hlen. destruct (bt_placement i e He) as (p & Hp & Hi & Ha).
  destruct (bt_clue_of p Hp) as (cl & Hin & _ & Href & _); [rewrite Ha; auto|].
  exists (dir p), cl. split; auto. congruence.
Qed.

Lemma bt_matched_long (i : nat) (e : Entry) :
  matched ste s i -> nth_error entries i = Some e -> 2 <= strlen (answer e).
Proof.
  intros (d & cl & Hin & Href) He.
  destruct (sr_clue entries gi ste s Hgrid Hix Hscan d cl Hin)
    as (p & e' & Hp & Hdp & _ & Hr & _ & He' & Ha & _ & Hpos & Hs & _).
  rewrite Href in Hr. injection Hr as ->.
  assert (e' = e) by congruence. subst e'.
  rewrite <- Hdp in Hs.
  pose proof (start_needs_two_letters entries gi p bt_inv Hp Hs) as Hne.
  rewrite Ha in Hne. unfold strlen in *. lia.
Qed.

Lemma bt_words_long (p : Placed) :
  List.length (usedEntries s) = List.length entries ->
  In p (placed gi) -> 2 <= strlen (p_answer p).
Proof.
  intros Hall Hp.
  pose proof (inv_entries _ _ bt_inv) as Hen. rewrite Forall_forall in Hen.
  destruct (Hen p Hp) as (e & He & Ha). rewrite Ha.
  apply (bt_matched_long (index p)); auto.
  apply (proj1 (sr_all_used entries gi ste s Hgrid Hix Hscan) Hall).
  apply nth_error_Some. congruence.
Qed.

End Built.

Lemma build_parts (entries : list Entry) (pz : Puzzle) :
  build entries = inr pz ->
  exists gi ste s,
    buildGrid entries = inr gi /\
    indexPlacements entries (minRow gi) (minCol gi) (placed gi) [] = inr ste /\
    scanOf gi ste = inr s /\
    List.length (usedEntries s) = List.length entries /\
    pz = mkPuzzle "Oscars Crossword"
           (maxRow gi - minRow gi + 1) (maxCol gi - minCol gi + 1)
           (gridJson s) (acrossClues s) (downClues s).
Proof.
  intros H. apply build_inv in H. destruct H as (gi & Hg & Hj).
  apply buildJson_inv in Hj. destruct Hj as (ste & s & Hix & Hs & Hlen & Hpz).
  exists gi, ste, s. auto.
Qed.

(** X15.  On a grid that [buildGrid] returned, [buildJson] returns a puzzle
    exactly when no two placements share a start cell and direction and
    every answer has at least two letters.  It fails in two ways only: with
    the duplicate-start error when two placements share a start, and otherwise
    with the coverage error, whose list is not empty, when some answer has
    fewer than two letters.  The scan itself never fails: every start it
    meets has its entry. *)
Theorem buildJson_outcome (entries : list Entry) (gi : GridState) :
  buildGrid entries = inr gi ->
  ((exists pz, buildJson entries gi = inr pz) <->
   NoDup (map startOf (placed gi)) /\
   forall e, In e entries -> 2 <= strlen (answer e)) /\
  (forall err,
      buildJson entries gi = inl err ->
      (exists k, err = DuplicateStart k /\
                 ~ NoDup (map startOf (placed gi))) \/
      (exists missing,
          err = NotAllUsed missing /\ missing <> [] /\
          NoDup (map startOf (placed gi)) /\
          exists e, In e entries /\ strlen (answer e) < 2)).
Proof.
  intros Hgrid.
  pose proof (bt_inv entries gi Hgrid) as Hinv.
  destruct (indexPlacements entries (minRow gi) (minCol gi) (placed gi) [])
    as [err0|ste] eqn:Hix.
  - assert (Hdup : ~ NoDup (map startOf (placed gi))).
    { intros Hnd. apply (NoDup_normKey (minRow gi) (minCol gi)) in Hnd.
      destruct (indexPlacements_complete entries (minRow gi) (minCol gi)
                  (placed gi) [] Hnd) as (m & Hm & _); [reflexivity|].
      congruence. }
    assert (Hj : buildJson entries gi = inl err0).
    { unfold buildJson, bindR. rewrite Hix. reflexivity. }
    split.
    + split; [intros (pz & Hpz); congruence | intros [Hnd _]; contradiction].
    + intros err Herr. left.
      destruct (indexPlacements_error _ _ _ _ _ _ Hix) as (k & ->).
      exists k. split; [congruence | exact Hdup].
  - assert (Hnd : NoDup (map startOf (placed gi))).
    { apply (NoDup_normKey (minRow gi) (minCol gi)).
      apply (indexPlacements_ok _ _ _ _ _ _ Hix). }
    destruct (scan_total entries gi Hinv (buildGrid_inv2 entries gi Hgrid)
                ste Hix) as (s & Hscan & _).
    pose proof (sr_buildJson entries gi ste s Hix Hscan) as Hj.
    pose proof (sr_all_used entries gi ste s Hgrid Hix Hscan) as Hall.
    assert (Hlong : (forall e, In e entries -> 2 <= strlen (answer e)) ->
                    List.length (usedEntries s) = List.length entries).
    { intros Hl. apply Hall. intros i Hi.
      destruct (nth_error entries i) as [e|] eqn:He;
        [|apply nth_error_None in He; lia].
      apply (bt_entry_matched entries gi ste s Hgrid Hix Hscan i e He).
      apply Hl. eapply nth_error_In; eauto. }
    destruct (List.length (usedEntries s) =? List.length entries)%nat eqn:El;
      simpl in Hj.
    + apply Nat.eqb_eq in El. split.
      * split; [|eauto]. intros _. split; auto.
        intros e Hin. apply In_nth_error in Hin. destruct Hin as (i & He).
        apply (bt_matched_long entries gi ste s Hgrid Hix Hscan i e); auto.
        apply (proj1 Hall El). apply nth_error_Some. congruence.
      * intros err Herr. congruence.
    + apply Nat.eqb_neq in El. split.
      * split; [intros (pz & Hpz); congruence|].
        intros [_ Hl]. exfalso. apply El. apply Hlong. exact Hl.
      * intros err Herr. right. rewrite Hj in Herr. injection Herr as <-.
        eexists. split; [reflexivity|].
        destruct (Forall_Exists_dec (fun e => 2 <= strlen (answer e))
                    (fun e => Z_le_dec 2 (strlen (answer e))) entries)
          as [Hf|Hex].
        { exfalso. apply El. apply Hlong. rewrite Forall_forall in Hf. auto. }
        apply Exists_exists in Hex. destruct Hex as (e & Hin & Hshort).
        split; [|split; [exact Hnd | exists e; split; [auto | lia]]].
        pose proof Hin as Hin'. apply In_nth_error in Hin'.
        destruct Hin' as (i & He).
        assert (Hmiss : In (rawOrAnswer e)
                          (missingFrom (usedEntries s) 0 entries)).
        { apply missingFrom_In. exists i, e. split; auto. split; auto.
          simpl. destruct (JsSet.has i (usedEntries s)) eqn:Eh; auto.
          exfalso. apply Hshort.
          apply (bt_matched_long entries gi ste s Hgrid Hix Hscan i e); auto.
          apply (sr_matched_used entries gi ste s Hgrid Hix Hscan).
          apply JsSet_has_In. exact Eh. }
        intros Hnil. rewrite Hnil in Hmiss. destruct Hmiss.
Qed.

Lemma buildJson_outcome_witness :
  (exists pz, buildJson catAce catAceGrid = inr pz) <->
  NoDup (map startOf (placed catAceGrid)) /\
  forall e, In e catAce -> 2 <= strlen (answer e).
Proof. exact (proj1 (buildJson_outcome catAce catAceGrid eq_refl)). Defined.

(** ** The numbers of the compiled puzzle *)

Lemma denseCell_number (letterAt : list (Coord * ascii)) (r c : Z) :
  number (denseCell letterAt r c) = None.
Proof.
  unfold denseCell. destruct (JsMap.get Coord_eqb (r, c) letterAt); reflexivity.
Qed.

Lemma before_total (k1 k2 : Coord) :
  before k1 (fst k2) (snd k2) \/ k1 = k2 \/ before k2 (fst k1) (snd k1).
Proof.
  destruct k1 as [a b], k2 as [a' b']. unfold before. simpl.
  destruct (Z.lt_trichotomy a a') as [H|[H|H]]; [left; lia | | right; right; lia].
  destruct (Z.lt_trichotomy b b') as [H'|[H'|H']];
    [left; lia | right; left; subst; reflexivity | right; right; lia].
Qed.

(** X16.  In the puzzle a build returns the clues are numbered as a crossword
    is: within each list the numbers strictly increase; the numbers in use
    are [1], [2], ... without a gap; over both lists, a clue has a smaller
    number exactly when its first cell comes earlier in reading order, so two
    clues share a number exactly when they share their first cell; the first
    cell of a clue shows the clue's number in the grid, and a cell of the grid
    that shows a number is the first cell of a clue with that number. *)
Theorem clue_numbers (entries : list Entry) (pz : Puzzle) :
  build entries = inr pz ->
  (forall d, StronglySorted numLt (puzzleClues d pz)) /\
  (forall d cl, In cl (puzzleClues d pz) ->
                1 <= cl_number cl /\
                forall n, 1 <= n <= cl_number cl ->
                          exists d' cl', In cl' (puzzleClues d' pz) /\
                                         cl_number cl' = n) /\
  (forall d1 d2 cl1 cl2,
      In cl1 (puzzleClues d1 pz) -> In cl2 (puzzleClues d2 pz) ->
      (cl_number cl1 < cl_number cl2 <->
       before (clueStart cl1) (fst (clueStart cl2)) (snd (clueStart cl2))) /\
      (cl_number cl1 = cl_number cl2 <-> clueStart cl1 = clueStart cl2)) /\
  (forall d cl, In cl (puzzleClues d pz) ->
                exists cell,
                  cell2 (pgrid pz) (Z.to_nat (fst (clueStart cl)))
                    (Z.to_nat (snd (clueStart cl))) = Some cell /\
                  number cell = Some (cl_number cl)) /\
  (forall i j cell n,
      cell2 (pgrid pz) i j = Some cell -> number cell = Some n ->
      exists d cl, In cl (puzzleClues d pz) /\
                   clueStart cl = (Z.of_nat i, Z.of_nat j) /\
                   cl_number cl = n).
Proof.
  intros H. apply build_parts in H.
  destruct H as (gi & ste & s & Hgrid & Hix & Hscan & Hlen & ->).
  pose proof (bt_num entries gi ste s Hgrid Hix Hscan) as Hn.
  assert (Hpc : forall d, puzzleClues d
                   (mkPuzzle "Oscars Crossword" (maxRow gi - minRow gi + 1)
                      (maxCol gi - minCol gi + 1) (gridJson s)
                      (acrossClues s) (downClues s)) = cluesOf d s)
    by (intros [|]; reflexivity).
  assert (Hord : forall d1 d2 cl1 cl2,
             In cl1 (cluesOf d1 s) -> In cl2 (cluesOf d2 s) ->
             before (clueStart cl1) (fst (clueStart cl2)) (snd (clueStart cl2)) ->
             cl_number cl1 < cl_number cl2).
  { intros d1 d2 cl1 cl2 H1 H2.
    apply (ni_mono _ _ _ _ _ _ _ Hn);
      eapply (ni_clue _ _ _ _ _ _ _ Hn); eauto. }
  assert (Hsame : forall d1 d2 cl1 cl2,
             In cl1 (cluesOf d1 s) -> In cl2 (cluesOf d2 s) ->
             clueStart cl1 = clueStart cl2 -> cl_number cl1 = cl_number cl2).
  { intros d1 d2 cl1 cl2 H1 H2 E.
    pose proof (ni_clue _ _ _ _ _ _ _ Hn d1 cl1 H1) as E1.
    pose proof (ni_clue _ _ _ _ _ _ _ Hn d2 cl2 H2) as E2.
    rewrite E in E1. congruence. }
  split; [|split; [|split; [|split]]].
  - intros d. rewrite Hpc. apply (ni_asc _ _ _ _ _ _ _ Hn).
  - intros d cl Hin. rewrite Hpc in Hin.
    pose proof (ni_clue _ _ _ _ _ _ _ Hn d cl Hin) as Hc.
    destruct (ni_range _ _ _ _ _ _ _ Hn _ _ Hc) as [Hr _].
    split; [lia|]. intros n Hn'.
    destruct (ni_onto _ _ _ _ _ _ _ Hn n) as (k & Hk); [lia|].
    destruct (ni_start _ _ _ _ _ _ _ Hn k n Hk) as (d' & cl' & Hin' & Hs').
    exists d', cl'. rewrite Hpc. split; auto.
    pose proof (ni_clue _ _ _ _ _ _ _ Hn d' cl' Hin') as Hc'.
    rewrite Hs' in Hc'. congruence.
  - intros d1 d2 cl1 cl2 H1 H2. rewrite Hpc in H1, H2.
    destruct (before_total (clueStart cl1) (clueStart cl2)) as [Hb|[He|Hb]].
    + pose proof (Hord d1 d2 cl1 cl2 H1 H2 Hb) as Hlt.
      split; [tauto|]. split; [lia|].
      intros E. rewrite E in Hb. unfold before in Hb. lia.
    + pose proof (Hsame d1 d2 cl1 cl2 H1 H2 He) as Heq.
      split; [|tauto]. split; [lia|].
      intros Hb. rewrite He in Hb. unfold before in Hb. lia.
    + pose proof (Hord d2 d1 cl2 cl1 H2 H1 Hb) as Hlt.
      split; split; try lia.
      * intros Hb'. unfold before in Hb, Hb'. lia.
      * intros E. rewrite E in Hb. unfold before in Hb. lia.
  - intros d cl Hin. rewrite Hpc in Hin. simpl.
    destruct (sr_scan gi ste s Hscan) as ([Hok _ _ _] & _).
    specialize (Hok d). rewrite Forall_forall in Hok.
    destruct (Hok cl Hin) as (mp & e & Hr & Hc & _).
    rewrite (ni_grid _ _ _ _ _ _ _ Hn). simpl.
    rewrite denseGrid_cell2, !Z2Nat.id by lia.
    replace (fst (clueStart cl) <? maxRow gi - minRow gi + 1) with true
      by (symmetry; apply Z.ltb_lt; lia).
    replace (snd (clueStart cl) <? maxCol gi - minCol gi + 1) with true
      by (symmetry; apply Z.ltb_lt; lia).
    rewrite <- surjective_pairing.
    rewrite (ni_clue _ _ _ _ _ _ _ Hn d cl Hin). simpl.
    eexists. split; reflexivity.
  - intros i j cell n Hcell Hnum. simpl in Hcell.
    rewrite (ni_grid _ _ _ _ _ _ _ Hn) in Hcell. simpl in Hcell.
    rewrite denseGrid_cell2 in Hcell.
    destruct ((Z.of_nat i <? maxRow gi - minRow gi + 1) &&
              (Z.of_nat j <? maxCol gi - minCol gi + 1)); [|discriminate].
    simpl in Hcell. injection Hcell as <-.
    destruct (numberAt s (Z.of_nat i, Z.of_nat j)) as [m|] eqn:Em.
    + simpl in Hnum. injection Hnum as ->.
      destruct (ni_start _ _ _ _ _ _ _ Hn _ _ Em) as (d & cl & Hin & Hs).
      exists d, cl. rewrite Hpc. repeat split; auto.
      pose proof (ni_clue _ _ _ _ _ _ _ Hn d cl Hin) as Hc.
      rewrite Hs in Hc. congruence.
    + simpl in Hnum. rewrite denseCell_number in Hnum. discriminate.
Qed.

Lemma clue_numbers_witness :
  StronglySorted numLt (puzzleClues across catAcePuzzle) /\
  StronglySorted numLt (puzzleClues down catAcePuzzle).
Proof.
  split; exact (proj1 (clue_numbers catAce catAcePuzzle eq_refl) _).
Defined.

(** X17.  The grid of the puzzle [buildJson] returns is the bounding box of
    the placed letters, at least one cell each way: it has a cell exactly at
    the rows and columns inside the box, each cell records its own row and
    column, its solution is the letter [buildGrid] put at that place of the
    box, and it is a block exactly when there is no such letter. *)
Theorem compiled_grid (entries : list Entry) (gi : GridState) (pz : Puzzle)
    (i j : nat) :
  buildGrid entries = inr gi -> buildJson entries gi = inr pz ->
  rows pz = maxRow gi - minRow gi + 1 /\
  cols pz = maxCol gi - minCol gi + 1 /\
  1 <= rows pz /\ 1 <= cols pz /\
  match cell2 (pgrid pz) i j with
  | Some cell =>
      Z.of_nat i < rows pz /\ Z.of_nat j < cols pz /\
      c_row cell = Z.of_nat i /\ c_col cell = Z.of_nat j /\
      solution cell
      = letterAtCoord (grid gi)
          (Z.of_nat i + minRow gi, Z.of_nat j + minCol gi) /\
      isBlock cell
      = negb (gridHas (grid gi) (Z.of_nat i + minRow gi)
                (Z.of_nat j + minCol gi))
  | None => rows pz <= Z.of_nat i \/ cols pz <= Z.of_nat j
  end.
Proof.
  intros Hgrid Hj.
  pose proof (bt_inv entries gi Hgrid) as Hinv.
  apply buildJson_inv in Hj.
  destruct Hj as (ste & s & Hix & Hscan & Hlen & ->).
  pose proof (bt_num entries gi ste s Hgrid Hix Hscan) as Hn.
  destruct (inv_bounds _ _ Hinv) as (Hb1 & Hb2 & _).
  simpl. split; [reflexivity|]. split; [reflexivity|].
  split; [lia|]. split; [lia|].
  rewrite (ni_grid _ _ _ _ _ _ _ Hn). simpl. rewrite denseGrid_cell2.
  destruct (Z.ltb_spec (Z.of_nat i) (maxRow gi - minRow gi + 1)) as [Hi|Hi];
    [|left; exact Hi].
  destruct (Z.ltb_spec (Z.of_nat j) (maxCol gi - minCol gi + 1)) as [Hj|Hj];
    [|right; exact Hj].
  simpl.
  assert (Hcell : forall n x, c_row (withNumber n x) = c_row x /\
                              c_col (withNumber n x) = c_col x /\
                              solution (withNumber n x) = solution x /\
                              isBlock (withNumber n x) = isBlock x)
    by (intros [n|] x; simpl; auto).
  destruct (Hcell (numberAt s (Z.of_nat i, Z.of_nat j))
              (denseCell (normalize (minRow gi) (minCol gi) (grid gi))
                 (Z.of_nat i) (Z.of_nat j))) as (E1 & E2 & E3 & E4).
  rewrite E1, E2, E3, E4. clear E1 E2 E3 E4.
  unfold denseCell, letterAtCoord, gridHas, JsMap.has. simpl.
  rewrite (normalize_get _ _ _ _ _ (inv_keys _ _ Hinv)). unfold gridGet.
  destruct (JsMap.get Coord_eqb
              (Z.of_nat i + minRow gi, Z.of_nat j + minCol gi) (grid gi));
    simpl; repeat split; auto.
Qed.

Lemma compiled_grid_witness :
  match cell2 (pgrid catAcePuzzle) 1 1 with
  | Some cell =>
      Z.of_nat 1 < rows catAcePuzzle /\ Z.of_nat 1 < cols catAcePuzzle /\
      c_row cell = Z.of_nat 1 /\ c_col cell = Z.of_nat 1 /\
      solution cell
      = letterAtCoord (grid catAceGrid)
          (Z.of_nat 1 + minRow catAceGrid, Z.of_nat 1 + minCol catAceGrid) /\
      isBlock cell
      = negb (gridHas (grid catAceGrid) (Z.of_nat 1 + minRow catAceGrid)
                (Z.of_nat 1 + minCol catAceGrid))
  | None => rows catAcePuzzle <= Z.of_nat 1 \/ cols catAcePuzzle <= Z.of_nat 1
  end.
Proof.
  exact (proj2 (proj2 (proj2 (proj2
           (compiled_grid catAce catAceGrid catAcePuzzle 1 1
              eq_refl eq_refl))))).
Defined.

(** ** Letters and clues *)

Lemma bt_letter_clue (entries : list Entry) (gi : GridState)
    (ste : list (StartKey * Mapped)) (s : ScanState) (i j : nat)
    (cell : Cell) :
  buildGrid entries = inr gi ->
  indexPlacements entries (minRow gi) (minCol gi) (placed gi) [] = inr ste ->
  scanOf gi ste = inr s ->
  List.length (usedEntries s) = List.length entries ->
  cell2 (gridJson s) i j = Some cell -> isBlock cell = false ->
  exists d cl, In cl (cluesOf d s) /\
               In (Z.of_nat i, Z.of_nat j) (cells cl).
Proof.
  intros Hgrid Hix Hscan Hlen.
  pose proof (bt_inv entries gi Hgrid) as Hinv.
  pose proof (bt_num entries gi ste s Hgrid Hix Hscan) as Hn.
  rewrite (ni_grid _ _ _ _ _ _ _ Hn). simpl. rewrite denseGrid_cell2.
  destruct ((Z.of_nat i <? maxRow gi - minRow gi + 1) &&
            (Z.of_nat j <? maxCol gi - minCol gi + 1)); [|discriminate].
  simpl. intros Hcell Hblock. injection Hcell as <-.
  assert (Hb : isBlock (denseCell (normalize (minRow gi) (minCol gi) (grid gi))
                          (Z.of_nat i) (Z.of_nat j)) = false).
  { destruct (numberAt s (Z.of_nat i, Z.of_nat j)); exact Hblock. }
  unfold denseCell in Hb.
  rewrite (normalize_get _ _ _ _ _ (inv_keys _ _ Hinv)) in Hb.
  destruct (gridGet (grid gi) (Z.of_nat i + minRow gi)
              (Z.of_nat j + minCol gi)) as [ch|] eqn:Eg; [|discriminate].
  destruct (inv_covered _ (buildGrid_inv2 entries gi Hgrid)
              (Z.of_nat i + minRow gi, Z.of_nat j + minCol gi) ch Eg)
    as (p & Hp & jj & Hjj & Hw).
  pose proof (bt_words_long entries gi ste s Hgrid Hix Hscan p Hlen Hp) as Hlong.
  destruct (bt_clue_of entries gi ste s Hgrid Hix Hscan p Hp Hlong)
    as (cl & Hin & _ & _ & Hcells).
  exists (dir p), cl. split; [exact Hin|].
  rewrite Hcells. apply placementCells_index. exists (Z.of_nat jj). split.
  - assert (jj < List.length (letters (p_answer p)))%nat
      by (apply nth_error_Some; congruence).
    rewrite letters_length in *. unfold strlen. lia.
  - unfold wordCell in Hw.
    destruct (dir p); simpl in *; injection Hw as E1 E2; f_equal; lia.
Qed.

Lemma puzzleClues_scan (d : Direction) (t : string) (nr nc : Z)
    (s : ScanState) :
  puzzleClues d (mkPuzzle t nr nc (gridJson s) (acrossClues s) (downClues s))
  = cluesOf d s.
Proof. destruct d; reflexivity. Qed.

(** X18.  In the puzzle a build returns, every cell that is not a block lies
    in the cells of some clue. *)
Theorem every_letter_in_a_clue (entries : list Entry) (pz : Puzzle)
    (i j : nat) (cell : Cell) :
  build entries = inr pz ->
  cell2 (pgrid pz) i j = Some cell -> isBlock cell = false ->
  exists d cl, In cl (puzzleClues d pz) /\
               In (Z.of_nat i, Z.of_nat j) (cells cl).
Proof.
  intros H Hcell Hblock. apply build_parts in H.
  destruct H as (gi & ste & s & Hgrid & Hix & Hscan & Hlen & ->).
  simpl in Hcell.
  destruct (bt_letter_clue entries gi ste s i j cell Hgrid Hix Hscan Hlen
              Hcell Hblock) as (d & cl & Hin & Hc).
  exists d, cl. rewrite puzzleClues_scan. auto.
Qed.

Lemma every_letter_in_a_clue_witness :
  exists d cl, In cl (puzzleClues d catAcePuzzle) /\
               In (Z.of_nat 2, Z.of_nat 1) (cells cl).
Proof.
  exact (every_letter_in_a_clue catAce catAcePuzzle 2 1
           (letterCell 2 1 "E" None) eq_refl eq_refl eq_refl).
Defined.

Lemma map_nth_seq {A B : Type} (g : A -> B) (dflt : B) (l : list A) :
  map (fun i => match nth_error l i with Some x => g x | None => dflt end)
      (seq 0 (List.length l))
  = map g l.
Proof.
  induction l as [|x l IH]; simpl; [reflexivity|].
  f_equal. rewrite <- seq_shift, map_map. exact IH.
Qed.

(** X19.  The clues of the puzzle a build returns are the clues of the
    input: the clue texts, across then down, are a rearrangement of the clue
    texts of the entries, so the puzzle has exactly one clue for each entry. *)
Theorem clues_are_the_entries (entries : list Entry) (pz : Puzzle) :
  build entries = inr pz ->
  Permutation (map text (cluesAcross pz ++ cluesDown pz)) (map clue entries) /\
  (List.length (cluesAcross pz) + List.length (cluesDown pz))%nat
  = List.length entries.
Proof.
  intros H. apply build_parts in H.
  destruct H as (gi & ste & s & Hgrid & Hix & Hscan & Hlen & ->). simpl.
  set (f := fun o : option nat =>
              match o with
              | Some i => match nth_error entries i with
                          | Some e => clue e
                          | None => EmptyString
                          end
              | None => EmptyString
              end).
  assert (Htext : forall d cl, In cl (cluesOf d s) ->
                               f (clueRef ste d cl) = text cl).
  { intros d cl Hin.
    destruct (sr_clue entries gi ste s Hgrid Hix Hscan d cl Hin)
      as (p & e & _ & _ & _ & Hr & _ & He & _ & Ht & _).
    rewrite Hr. unfold f. rewrite He. auto. }
  assert (Hperm : Permutation (clueRefs ste (acrossClues s) (downClues s))
                    (map Some (seq 0 (List.length entries)))).
  { apply NoDup_Permutation.
    - apply (sr_refs_nodup entries gi ste s Hgrid Hix Hscan).
    - apply (NoDup_map_compose (fun i : nat => i) Some).
      + rewrite map_id. apply seq_NoDup.
      + intros x y _ _ E. congruence.
    - intros o. split.
      + intros Hin. unfold clueRefs in Hin. apply in_app_iff in Hin.
        assert (Hd : exists d cl, In cl (cluesOf d s) /\ clueRef ste d cl = o).
        { destruct Hin as [Hin|Hin]; apply in_map_iff in Hin;
            destruct Hin as (cl & Hr & Hcl);
            [exists across | exists down]; exists cl; auto. }
        destruct Hd as (d & cl & Hcl & <-).
        destruct (sr_clue entries gi ste s Hgrid Hix Hscan d cl Hcl)
          as (p & e & _ & _ & _ & Hr & Hu & _).
        rewrite Hr. apply in_map. apply in_seq.
        pose proof (sr_used_lt entries gi ste s Hgrid Hix Hscan _ Hu). lia.
      + intros Hin. apply in_map_iff in Hin. destruct Hin as (i & <- & Hi).
        apply in_seq in Hi.
        destruct (proj1 (sr_all_used entries gi ste s Hgrid Hix Hscan) Hlen i)
          as (d & cl & Hcl & Hr); [lia|].
        unfold clueRefs. apply in_app_iff. rewrite <- Hr.
        destruct d; [left | right]; apply in_map; exact Hcl. }
  assert (Hmap : map f (clueRefs ste (acrossClues s) (downClues s))
                 = map text (acrossClues s ++ downClues s)).
  { unfold clueRefs. rewrite !map_app, !map_map. f_equal.
    - apply map_ext_in. intros cl Hin. apply (Htext across cl Hin).
    - apply map_ext_in. intros cl Hin. apply (Htext down cl Hin). }
  split.
  - rewrite <- Hmap.
    rewrite <- (map_nth_seq clue EmptyString entries).
    change (map (fun i => match nth_error entries i with
                          | Some x => clue x
                          | None => EmptyString
                          end) (seq 0 (List.length entries)))
      with (map (fun i => f (Some i)) (seq 0 (List.length entries))).
    rewrite <- (map_map Some f). apply Permutation_map. exact Hperm.
  - apply Permutation_length in Hperm.
    unfold clueRefs in Hperm.
    rewrite length_app, !length_map, length_seq in Hperm. exact Hperm.
Qed.

Lemma clues_are_the_entries_witness :
  Permutation (map text (cluesAcross catAcePuzzle ++ cluesDown catAcePuzzle))
    (map clue catAce) /\
  (List.length (cluesAcross catAcePuzzle)
   + List.length (cluesDown catAcePuzzle))%nat
  = List.length catAce.
Proof. exact (clues_are_the_entries catAce catAcePuzzle eq_refl). Defined.

(** ** Clues of one direction never overlap *)

Lemma overlap_order (entries : list Entry) (gi : GridState) (p q : Placed)
    (k1 k2 : Z) :
  GridInv entries gi -> In p (placed gi) -> In q (placed gi) ->
  dir p = dir q ->
  0 <= k1 < strlen (p_answer p) -> 0 <= k2 < strlen (p_answer q) ->
  wordCell p k1 = wordCell q k2 -> k1 <= k2.
Proof.
  intros Hinv Hp Hq Hd Hk1 Hk2 Hw.
  destruct (Z_le_gt_dec k1 k2) as [|Hgt]; auto. exfalso.
  pose proof (inv_letters _ _ Hinv) as Hlet. rewrite Forall_forall in Hlet.
  pose proof (inv_ends _ _ Hinv) as He. rewrite Forall_forall in He.
  destruct (He q Hq ltac:(lia)) as [Hfree _]. apply Hfree.
  replace (wordCell q (-1)) with (wordCell p (k1 - k2 - 1)).
  - apply lettersInGrid_occupied; [auto | lia].
  - unfold wordCell in *. rewrite Hd in *.
    destruct (dir q); simpl in *; injection Hw as E1 E2; f_equal; lia.
Qed.

Lemma overlap_same_start (entries : list Entry) (gi : GridState)
    (p q : Placed) (k1 k2 : Z) :
  GridInv entries gi -> In p (placed gi) -> In q (placed gi) ->
  dir p = dir q ->
  0 <= k1 < strlen (p_answer p) -> 0 <= k2 < strlen (p_answer q) ->
  wordCell p k1 = wordCell q k2 -> startOf p = startOf q.
Proof.
  intros Hinv Hp Hq Hd Hk1 Hk2 Hw.
  pose proof (overlap_order entries gi p q k1 k2 Hinv Hp Hq Hd Hk1 Hk2 Hw).
  pose proof (overlap_order entries gi q p k2 k1 Hinv Hq Hp (eq_sym Hd)
                Hk2 Hk1 (eq_sym Hw)).
  assert (k1 = k2) by lia. subst k2.
  unfold startOf, wordCell in *. rewrite Hd in *.
  destruct (dir q); simpl in *; injection Hw as E1 E2;
    (replace (row p) with (row q) by lia);
    (replace (col p) with (col q) by lia); reflexivity.
Qed.

Lemma bt_disjoint (entries : list Entry) (gi : GridState)
    (ste : list (StartKey * Mapped)) (s : ScanState) (d : Direction)
    (cl1 cl2 : Clue) (rc : Coord) :
  buildGrid entries = inr gi ->
  indexPlacements entries (minRow gi) (minCol gi) (placed gi) [] = inr ste ->
  scanOf gi ste = inr s ->
  In cl1 (cluesOf d s) -> In cl2 (cluesOf d s) ->
  In rc (cells cl1) -> In rc (cells cl2) -> cl1 = cl2.
Proof.
  intros Hgrid Hix Hscan H1 H2 Hc1 Hc2.
  pose proof (bt_inv entries gi Hgrid) as Hinv.
  destruct (sr_clue entries gi ste s Hgrid Hix Hscan d cl1 H1)
    as (p & e & Hp & Hdp & Hsp & _ & _ & _ & Hap & _ & _ & _ & Hcp).
  destruct (sr_clue entries gi ste s Hgrid Hix Hscan d cl2 H2)
    as (q & e' & Hq & Hdq & Hsq & _ & _ & _ & Haq & _ & _ & _ & Hcq).
  rewrite Hcp in Hc1. rewrite Hcq in Hc2.
  apply placementCells_index in Hc1. destruct Hc1 as (k1 & Hk1 & E1).
  apply placementCells_index in Hc2. destruct Hc2 as (k2 & Hk2 & E2).
  rewrite <- Hap in Hk1. rewrite <- Haq in Hk2.
  assert (Hw : wordCell p k1 = wordCell q k2).
  { unfold wordCell. rewrite Hdp, Hdq. rewrite E1 in E2.
    destruct d; simpl in *; injection E2 as A B; f_equal; lia. }
  pose proof (overlap_same_start entries gi p q k1 k2 Hinv Hp Hq
                ltac:(congruence) Hk1 Hk2 Hw) as Hst.
  destruct (sr_scan gi ste s Hscan) as (_ & Hnd).
  apply (NoDup_map_inj clueStart (cluesOf d s)); auto.
  rewrite Hsp, Hsq. unfold startOf in Hst. injection Hst as A B _.
  rewrite A, B. reflexivity.
Qed.

(** X20.  In the puzzle a build returns, two clues of the same direction never
    share a cell: a cell lies in at most one across clue and at most one down
    clue. *)
Theorem clues_never_overlap (entries : list Entry) (pz : Puzzle)
    (d : Direction) (cl1 cl2 : Clue) (rc : Coord) :
  build entries = inr pz ->
  In cl1 (puzzleClues d pz) -> In cl2 (puzzleClues d pz) ->
  In rc (cells cl1) -> In rc (cells cl2) -> cl1 = cl2.
Proof.
  intros H. apply build_parts in H.
  destruct H as (gi & ste & s & Hgrid & Hix & Hscan & Hlen & ->).
  rewrite puzzleClues_scan.
  apply (bt_disjoint entries gi ste s d cl1 cl2 rc Hgrid Hix Hscan).
Qed.

Lemma clues_never_overlap_witness :
  mkClue 2 "Top card" [(0, 1); (1, 1); (2, 1)]
  = mkClue 2 "Top card" [(0, 1); (1, 1); (2, 1)].
Proof.
  apply (clues_never_overlap catAce catAcePuzzle down _ _ (1, 1) eq_refl).
  - left. reflexivity.
  - left. reflexivity.
  - right. left. reflexivity.
  - right. left. reflexivity.
Defined.

(** ** Finding the clue of a cell *)

Lemma cell_test (cl : Clue) (r c : Z) :
  existsb (fun p => (fst p =? r) && (snd p =? c)) (cells cl) = true <->
  In (r, c) (cells cl).
Proof.
  rewrite existsb_exists. split.
  - intros ([a b] & Hin & Ht). simpl in Ht. apply andb_true_iff in Ht.
    destruct Ht as [Ha Hb]. apply Z.eqb_eq in Ha, Hb. subst. exact Hin.
  - intros Hin. exists (r, c). split; auto. simpl. rewrite !Z.eqb_refl.
    reflexivity.
Qed.

(** X21.  On the puzzle a build returns, [findClueForCell] finds, for a cell
    and a direction, the one clue of that direction whose cells contain the
    cell, and nothing when there is none; and for every cell that is not a
    block it finds a clue in at least one of the two directions.  Before a
    puzzle is loaded it finds nothing. *)
Theorem findClueForCell_built (entries : list Entry) (pz : Puzzle) :
  build entries = inr pz ->
  (forall r c d cl,
      findClueForCell (Some pz) r c d = Some cl <->
      In cl (puzzleClues d pz) /\ In (r, c) (cells cl)) /\
  (forall r c d,
      findClueForCell (Some pz) r c d = None <->
      forall cl, In cl (puzzleClues d pz) -> ~ In (r, c) (cells cl)) /\
  (forall i j cell,
      cell2 (pgrid pz) i j = Some cell -> isBlock cell = false ->
      exists d cl,
        findClueForCell (Some pz) (Z.of_nat i) (Z.of_nat j) d = Some cl) /\
  (forall r c d, findClueForCell None r c d = None).
Proof.
  intros Hb. apply build_parts in Hb.
  destruct Hb as (gi & ste & s & Hgrid & Hix & Hscan & Hlen & ->).
  set (pz := mkPuzzle "Oscars Crossword" (maxRow gi - minRow gi + 1)
               (maxCol gi - minCol gi + 1) (gridJson s) (acrossClues s)
               (downClues s)).
  assert (Hfind : forall r c d,
             findClueForCell (Some pz) r c d
             = find (fun clue =>
                       existsb (fun p => (fst p =? r) && (snd p =? c))
                         (cells clue)) (cluesOf d s))
    by (intros r c [|]; reflexivity).
  assert (Hpc : forall d, puzzleClues d pz = cluesOf d s)
    by (intros d; apply puzzleClues_scan).
  assert (H1 : forall r c d cl,
             findClueForCell (Some pz) r c d = Some cl <->
             In cl (puzzleClues d pz) /\ In (r, c) (cells cl)).
  { intros r c d cl. rewrite Hfind, Hpc. split.
    - intros Hf. apply find_some in Hf. destruct Hf as [Hin Ht].
      apply cell_test in Ht. auto.
    - intros [Hin Hc].
      destruct (find _ (cluesOf d s)) as [cl'|] eqn:Ef.
      + apply find_some in Ef. destruct Ef as [Hin' Ht'].
        apply cell_test in Ht'. f_equal.
        apply (bt_disjoint entries gi ste s d cl' cl (r, c)); auto.
      + exfalso. pose proof (find_none _ _ Ef cl Hin) as Hn. simpl in Hn.
        apply cell_test in Hc. congruence. }
  split; [exact H1|]. split; [|split].
  - intros r c d. split.
    + intros Hn cl Hin Hc.
      assert (Hs : findClueForCell (Some pz) r c d = Some cl)
        by (apply H1; auto).
      congruence.
    + intros Hall.
      destruct (findClueForCell (Some pz) r c d) as [cl|] eqn:E; auto.
      apply H1 in E. destruct E as [Hin Hc]. exfalso. exact (Hall cl Hin Hc).
  - intros i j cell Hcell Hblock.
    destruct (bt_letter_clue entries gi ste s i j cell Hgrid Hix Hscan Hlen
                Hcell Hblock) as (d & cl & Hin & Hc).
    exists d, cl. apply H1. rewrite Hpc. auto.
  - reflexivity.
Qed.

Lemma findClueForCell_built_witness :
  findClueForCell (Some catAcePuzzle) 1 1 down
  = Some (mkClue 2 "Top card" [(0, 1); (1, 1); (2, 1)]) <->
  In (mkClue 2 "Top card" [(0, 1); (1, 1); (2, 1)])
    (puzzleClues down catAcePuzzle) /\
  In (1, 1) (cells (mkClue 2 "Top card" [(0, 1); (1, 1); (2, 1)])).
Proof.
  exact (proj1 (findClueForCell_built catAce catAcePuzzle eq_refl) 1 1 down
           (mkClue 2 "Top card" [(0, 1); (1, 1); (2, 1)])).
Defined.

(** ** String keys *)

Lemma uint_commaFree (d : uint) : commaFree (NilEmpty.string_of_uint d).
Proof.
  unfold commaFree, letters.
  induction d; simpl; intros H; try destruct H as [H|H];
    try discriminate; auto.
Qed.

Lemma numberToString_commaFree (z : Z) : commaFree (numberToString z).
Proof.
  unfold numberToString, NilZero.string_of_int.
  destruct (Z.to_int z) as [d|d]; unfold NilZero.string_of_uint.
  - destruct d; try apply (uint_commaFree (_ _)).
    unfold commaFree, letters. simpl. intros [H|[]]. discriminate.
  - assert (H : commaFree (match d with
                           | Nil => "0"%string
                           | _ => NilEmpty.string_of_uint d
                           end)).
    { destruct d; try apply (uint_commaFree (_ _)).
      unfold commaFree, letters. simpl. intros [H|[]]. discriminate. }
    unfold commaFree, letters in *. simpl. intros [E|E]; [discriminate|auto].
Qed.

Lemma numberToString_inj (a b : Z) :
  numberToString a = numberToString b -> a = b.
Proof.
  unfold numberToString. intros H.
  assert (Hok : forall z, Z.to_int z <> Pos Nil /\ Z.to_int z <> Neg Nil).
  { intros [|p|p]; simpl; split; try discriminate;
      intros E; injection E as E; exact (Unsigned.to_uint_nonnil p E). }
  apply (f_equal NilZero.int_of_string) in H.
  rewrite !NilZero.isi in H by apply Hok.
  injection H as H. rewrite <- (DecimalZ.of_to a), <- (DecimalZ.of_to b), H.
  reflexivity.
Qed.

Lemma app_assoc_string (s1 s2 s3 : string) :
  ((s1 ++ s2) ++ s3 = s1 ++ (s2 ++ s3))%string.
Proof. induction s1 as [|a s1 IH]; simpl; [reflexivity | f_equal; exact IH]. Qed.

Lemma app_nil_string (s : string) : (s ++ EmptyString)%string = s.
Proof. induction s as [|a s IH]; simpl; [reflexivity | f_equal; exact IH]. Qed.

Lemma split_comma (s1 : string) :
  forall s2 t1 t2,
    commaFree s1 -> commaFree s2 ->
    (s1 ++ String "," t1 = s2 ++ String "," t2)%string ->
    s1 = s2 /\ t1 = t2.
Proof.
  unfold commaFree, letters.
  induction s1 as [|a s1 IH]; intros [|b s2] t1 t2 H1 H2 E; simpl in *.
  - injection E as E. auto.
  - injection E as Eb E. exfalso. apply H2. left. auto.
  - injection E as Ea E. exfalso. apply H1. left. auto.
  - injection E as Ea E. subst b.
    destruct (IH s2 t1 t2) as [-> ->]; auto.
Qed.

Lemma key_shape (r c : Z) (t : string) :
  (key r c ++ t = numberToString r ++ String "," (numberToString c ++ t))%string.
Proof. unfold key. rewrite !app_assoc_string. reflexivity. Qed.

Lemma key_split (r c r' c' : Z) (t t' : string) :
  (key r c ++ t = key r' c' ++ t')%string ->
  r = r' /\ (numberToString c ++ t = numberToString c' ++ t')%string.
Proof.
  rewrite !key_shape. intros E.
  apply split_comma in E; try apply numberToString_commaFree.
  destruct E as [E1 E2]. split; auto. apply numberToString_inj. exact E1.
Qed.

(** X22.  The string keys are faithful: [key] gives two cells the same string
    only if they are the same cell, and [startKey] gives two starts the same
    string only if they are the same cell and direction.  So the maps keyed
    by these strings are maps on cells and on starts. *)
Theorem keys_are_injective :
  (forall r c r' c', key r c = key r' c' -> r = r' /\ c = c') /\
  (forall r c d r' c' d',
      startKey r c d = startKey r' c' d' -> r = r' /\ c = c' /\ d = d').
Proof.
  split.
  - intros r c r' c' E.
    destruct (key_split r c r' c' EmptyString EmptyString) as [Hr Hc].
    + rewrite !app_nil_string. exact E.
    + split; auto. rewrite !app_nil_string in Hc.
      apply numberToString_inj. exact Hc.
  - intros r c d r' c' d' E. unfold startKey in E.
    fold (key r c) in E. fold (key r' c') in E.
    rewrite !app_assoc_string in E.
    apply key_split in E. destruct E as [Hr E]. split; auto.
    simpl in E.
    apply split_comma in E; try apply numberToString_commaFree.
    destruct E as [E3 E4]. split; [apply numberToString_inj; exact E3|].
    destruct d, d'; simpl in E4; try reflexivity; discriminate.
Qed.

(** ** The earlier builder never throws *)

Lemma conflict_free (g : list (Coord * ascii)) (d : Direction) (row col : Z)
    (chars : list ascii) :
  forall i,
    AppJs.conflictLoop g d row col chars i = false <->
    forall k ch e,
      nth_error chars k = Some ch ->
      letterAtCoord g (cellOf d row col (i + Z.of_nat k)) = Some e -> e = ch.
Proof.
  induction chars as [|c0 rest IH]; intros i; simpl.
  - split; auto. intros _ [|k] ch e H; discriminate.
  - assert (Hshift : forall k, i + 1 + Z.of_nat k = i + Z.of_nat (S k))
      by (intros; lia).
    change (gridGet g (fst (cellOf d row col i)) (snd (cellOf d row col i)))
      with (letterAtCoord g (cellOf d row col i)).
    destruct (letterAtCoord g (cellOf d row col i)) as [x|] eqn:Eg.
    + destruct (Ascii.eqb_spec x c0) as [->|Hne]; simpl.
      * rewrite IH. split.
        -- intros H [|k] ch e Hk He.
           ++ simpl in Hk. injection Hk as <-.
              rewrite Z.add_0_r, Eg in He. congruence.
           ++ simpl in Hk. apply (H k ch e Hk). rewrite Hshift. exact He.
        -- intros H k ch e Hk He. apply (H (S k) ch e Hk).
           rewrite <- Hshift. exact He.
      * split; [discriminate|]. intros H. exfalso. apply Hne.
        apply (H 0%nat c0 x eq_refl). rewrite Z.add_0_r. exact Eg.
    + rewrite IH. split.
      * intros H [|k] ch e Hk He.
        -- rewrite Z.add_0_r, Eg in He. discriminate.
        -- simpl in Hk. apply (H k ch e Hk). rewrite Hshift. exact He.
      * intros H k ch e Hk He. apply (H (S k) ch e Hk).
        rewrite <- Hshift. exact He.
Qed.

Lemma touch_no_conflict (g : list (Coord * ascii)) (d : Direction)
    (row col : Z) (chars : list ascii) :
  forall j t t',
    AppJs.touchLoop g d row col chars j t = Some t' ->
    AppJs.conflictLoop g d row col chars j = false.
Proof.
  induction chars as [|c0 rest IH]; intros j t t'; simpl; auto.
  destruct (gridGet g (fst (cellOf d row col j)) (snd (cellOf d row col j)));
    [destruct (negb (Ascii.eqb a c0)); [discriminate|]|]; apply IH.
Qed.

Lemma tryDir_kept (s : GridState) (a : string) (i gr gc : Z)
    (best : option Best) (d : Direction) :
  kept s a best -> kept s a (AppJs.tryDir s a i gr gc best d).
Proof.
  intros Hk. unfold AppJs.tryDir.
  destruct (AppJs.touchLoop (grid s) d _ _ (letters a) 0 0) as [t|] eqn:Et;
    auto.
  apply touch_no_conflict in Et.
  destruct (t =? 0); auto.
  destruct best as [b0|].
  - destruct (_ >? b_score b0); auto.
    intros b Hb. injection Hb as <-. exact Et.
  - intros b Hb. injection Hb as <-. exact Et.
Qed.

Lemma findPlacement_kept (s : GridState) (a : string) (preferDir : Direction) :
  kept s a (AppJs.findPlacement s a preferDir).
Proof.
  unfold AppJs.findPlacement.
  destruct (List.length (grid s) =? 0)%nat; [intros b H; discriminate|].
  assert (Hdirs : forall i gr gc ds best,
             kept s a best ->
             kept s a (fold_left (AppJs.tryDir s a i gr gc) ds best)).
  { intros i gr gc ds. induction ds as [|d ds IH]; intros best Hk; simpl; auto.
    apply IH. apply tryDir_kept. exact Hk. }
  assert (Hcells : forall i ch cells best,
             kept s a best ->
             kept s a (AppJs.cellsLoop s a preferDir i ch cells best)).
  { intros i ch cells.
    induction cells as [|[[gr gc] cellCh] cells IH]; intros best Hk; simpl;
      auto.
    destruct (negb (Ascii.eqb cellCh ch)); apply IH; auto. }
  assert (Hchars : forall chars i best,
             kept s a best ->
             kept s a (AppJs.charsLoop s a preferDir chars i best)).
  { induction chars as [|ch chars IH]; intros i best Hk; simpl; auto. }
  apply Hchars. intros b H. discriminate.
Qed.

Lemma writeLoop_grid (d : Direction) (row col : Z) (chars : list ascii) :
  forall i s,
    grid (AppJs.writeLoop d row col chars i s)
    = writeCells d row col chars i (grid s) /\
    placed (AppJs.writeLoop d row col chars i s) = placed s /\
    (rowsBelowMax s -> rowsBelowMax (AppJs.writeLoop d row col chars i s)).
Proof.
  induction chars as [|ch rest IH]; intros i s; simpl; auto.
  destruct (IH (i + 1)
              (AppJs.setCell (fst (cellOf d row col i))
                 (snd (cellOf d row col i)) ch s)) as (Hg & Hp & Hr).
  split; [rewrite Hg; simpl; rewrite <- surjective_pairing; reflexivity|].
  split; [exact Hp|].
  intros Hrows. apply Hr. intros rc c0 Hin. simpl in *.
  apply In_set in Hin; [|apply Coord_eqb_iff].
  destruct Hin as [Heq|Hin].
  - injection Heq as -> _. simpl.
    destruct (Z.gtb_spec (fst (cellOf d row col i)) (maxRow s)); lia.
  - specialize (Hrows rc c0 Hin).
    destruct (Z.gtb_spec (fst (cellOf d row col i)) (maxRow s)); lia.
Qed.

Lemma free_keeps_letter (g : list (Coord * ascii)) (d : Direction)
    (row col : Z) (chars : list ascii) (rc : Coord) (ch : ascii) :
  AppJs.conflictLoop g d row col chars 0 = false ->
  letterAtCoord g rc = Some ch ->
  letterAtCoord (writeCells d row col chars 0 g) rc = Some ch.
Proof.
  intros Hfree Hl.
  destruct (cellsFrom_dec d row col 0 (List.length chars) rc)
    as [(k & Hk & ->)|Hout].
  - destruct (nth_error chars k) as [c|] eqn:Ec;
      [| apply nth_error_None in Ec; lia].
    rewrite (writeCells_get_in d row col chars 0 g k c Ec). f_equal.
    symmetry. apply (proj1 (conflict_free g d row col chars 0) Hfree k c ch Ec Hl).
  - rewrite writeCells_get_out; auto.
Qed.

Lemma old_placeWordAt (k : nat) (a : string) (row col : Z) (d : Direction)
    (s : GridState) :
  oldInv k s ->
  AppJs.conflictLoop (grid s) d row col (letters a) 0 = false ->
  exists s',
    AppJs.placeWordAt k a row col d s = inr s' /\
    placed s' = placed s ++ [mkPlaced k row col d a] /\
    oldInv (S k) s'.
Proof.
  intros (Hrows & Hlet & Hidx & _) Hfree.
  unfold AppJs.placeWordAt. rewrite Hfree.
  destruct (writeLoop_grid d row col (letters a) 0 s) as (Hg & Hp & Hr).
  eexists. split; [reflexivity|]. simpl. split; [rewrite Hp; reflexivity|].
  split; [|split; [|split]].
  - intros rc ch Hin. simpl in *. apply (Hr Hrows rc ch Hin).
  - simpl. rewrite Hp, Hg. apply Forall_app. split.
    + rewrite Forall_forall in *. intros p Hin j ch Hj.
      apply free_keeps_letter; auto. apply (Hlet p Hin j ch Hj).
    + constructor; [|constructor]. apply commit_letters_new.
  - cbn [placed]. rewrite Hp, map_app, Hidx, seq_S. reflexivity.
  - discriminate.
Qed.

Lemma old_fallback_free (s : GridState) (col : Z) (chars : list ascii) :
  rowsBelowMax s ->
  AppJs.conflictLoop (grid s) across (maxRow s + 2) col chars 0 = false.
Proof.
  intros Hrows. apply conflict_free. intros k ch e _ He. exfalso.
  unfold letterAtCoord in He. simpl in He.
  assert (Hh : gridHas (grid s) (maxRow s + 2) (col + (0 + Z.of_nat k)) = true)
    by (apply gridHas_get; eauto).
  apply gridHas_In in Hh. destruct Hh as (c0 & Hin).
  specialize (Hrows _ _ Hin). simpl in Hrows. lia.
Qed.

Lemma old_placeEntry (k : nat) (e : Entry) (s : GridState) :
  oldInv k s ->
  exists s' row col d,
    AppJs.placeEntry k e s = inr s' /\
    placed s' = placed s ++ [mkPlaced k row col d (answer e)] /\
    oldInv (S k) s'.
Proof.
  intros Hinv. unfold AppJs.placeEntry.
  destruct (k =? 0)%nat eqn:Ek.
  - apply Nat.eqb_eq in Ek.
    destruct (old_placeWordAt k (answer e) 0 0 across s Hinv)
      as (s' & Hp & Hpl & Hinv').
    { apply conflict_free. intros j ch x _ Hx.
      destruct Hinv as (_ & _ & _ & Hg). rewrite (Hg Ek) in Hx. discriminate. }
    exists s', 0, 0, across. auto.
  - destruct (AppJs.findPlacement s (answer e) _) as [b|] eqn:Ef.
    + destruct (old_placeWordAt k (answer e) (b_row b) (b_col b) (b_dir b) s Hinv)
        as (s' & Hp & Hpl & Hinv').
      { apply (findPlacement_kept s (answer e) _ b Ef). }
      exists s', (b_row b), (b_col b), (b_dir b). auto.
    + destruct (old_placeWordAt k (answer e) (maxRow s + 2) 0 across s Hinv)
        as (s' & Hp & Hpl & Hinv').
      { apply old_fallback_free. apply Hinv. }
      exists s', (maxRow s + 2), 0, across. auto.
Qed.

Lemma old_forEach (entries : list Entry) :
  forall k s,
    oldInv k s ->
    exists s',
      AppJs.forEachFrom k entries s = inr s' /\
      oldInv (k + List.length entries) s' /\
      map p_answer (placed s') = map p_answer (placed s) ++ map answer entries.
Proof.
  induction entries as [|e rest IH]; intros k s Hinv; simpl.
  - exists s. rewrite Nat.add_0_r, app_nil_r. auto.
  - destruct (old_placeEntry k e s Hinv) as (s1 & row & col & d & -> & Hpl & H1).
    destruct (IH (S k) s1 H1) as (s' & Hrun & Hinv' & Hans).
    exists s'. split; [exact Hrun|]. split.
    + replace (k + S (List.length rest))%nat
        with (S k + List.length rest)%nat by lia. exact Hinv'.
    + rewrite Hans, Hpl, map_app, <- app_assoc. reflexivity.
Qed.

(** X23.  The earlier builder kept in [app.js] never throws: for every list
    of entries its [buildGrid] returns a grid where the entries are placed in
    input order, each with its own answer, and every placed word can be read
    in the grid, letter by letter, at its cells.  Its fallback, unlike that of
    the build script, always places the word. *)
Theorem earlier_buildGrid_total (entries : list Entry) :
  exists s,
    AppJs.buildGrid entries = inr s /\
    map index (placed s) = seq 0 (List.length entries) /\
    map p_answer (placed s) = map answer entries /\
    forall p j ch,
      In p (placed s) -> nth_error (letters (p_answer p)) j = Some ch ->
      letterAtCoord (grid s) (wordCell p (Z.of_nat j)) = Some ch.
Proof.
  destruct (old_forEach entries 0 initState) as (s & Hrun & Hinv & Hans).
  { split; [intros rc ch []|]. split; [constructor|]. split; reflexivity. }
  exists s. split; [exact Hrun|].
  destruct Hinv as (_ & Hlet & Hidx & _). split; [exact Hidx|].
  split; [exact Hans|].
  intros p j ch Hp. rewrite Forall_forall in Hlet. apply (Hlet p Hp).
Qed.

(** ** Properties of the grid kept by every placement *)

Lemma forEach_grid_invariant (P : list (Coord * ascii) -> Prop)
    (entries : list Entry) :
  (forall g a row col d,
      Accepted g a row col d -> P g ->
      P (writeCells d row col (letters a) 0 g)) ->
  forall rest s s' u,
    forEach (placeItem entries) rest s = inr (u, s') ->
    P (grid s) -> P (grid s').
Proof.
  intros Hstep. induction rest as [|it rest IH]; intros s s' u Hrun HP.
  - simpl in Hrun. injection Hrun as _ <-. exact HP.
  - simpl in Hrun. unfold bind in Hrun.
    destruct (placeItem entries it s) as [err|[u1 s1]] eqn:E1; [discriminate|].
    apply placeItem_inv in E1. destruct E1 as (e & row & col & d & _ & Hp).
    apply placeWordAt_inv in Hp. destruct Hp as (Hok & Hg & _).
    apply (IH s1 s' u Hrun). rewrite Hg. apply Hstep; auto.
    apply accepted_of_ok. exact Hok.
Qed.

Lemma buildGrid_grid_invariant (P : list (Coord * ascii) -> Prop)
    (entries : list Entry) (gi : GridState) :
  P [] ->
  (forall g a row col d,
      Accepted g a row col d -> P g ->
      P (writeCells d row col (letters a) 0 g)) ->
  buildGrid entries = inr gi -> P (grid gi).
Proof.
  intros H0 Hstep. unfold buildGrid, buildGridFrom.
  destruct (sortOrder (indexed 0 entries)) as [|first rest]; [discriminate|].
  unfold bind, answerAt.
  destruct (nth_error entries (idx first)) as [e|]; [|discriminate].
  unfold ret.
  destruct (placeWordAt (idx first) (answer e) 0 0 across initState)
    as [err|[u1 s1]] eqn:E1; [discriminate|].
  destruct (forEach (placeItem entries) rest s1) as [err|[u2 s2]] eqn:E2;
    [discriminate|].
  intros H. injection H as <-.
  apply (forEach_grid_invariant P entries Hstep rest s1 s2 u2 E2).
  apply placeWordAt_inv in E1. destruct E1 as (Hok & Hg & _).
  rewrite Hg. apply Hstep; [apply accepted_of_ok; exact Hok | exact H0].
Qed.

(** A cell a word has just filled has no letter beside it. *)
Lemma new_cell_alone (g : list (Coord * ascii)) (a : string) (row col : Z)
    (d : Direction) (X Y : Coord) :
  Accepted g a row col d ->
  ~ occupied g X ->
  occupied (writeCells d row col (letters a) 0 g) X ->
  Y = fst (sideCells d X) \/ Y = snd (sideCells d X) ->
  ~ occupied (writeCells d row col (letters a) 0 g) Y.
Proof.
  intros Hacc Hnew HX HY HoY.
  apply written_iff in HX. destruct HX as [HX|(k & Hk & ->)]; [contradiction|].
  destruct (accepted_sides g a row col d k Hacc Hk Hnew) as [H1 H2].
  apply written_iff in HoY. destruct HoY as [HoY|(k' & Hk' & EY)].
  - destruct HY as [->| ->]; contradiction.
  - rewrite EY in HY.
    destruct d; simpl in HY; destruct HY as [E|E]; injection E as E1 E2; lia.
Qed.

Lemma commit_noSquare (g : list (Coord * ascii)) (a : string) (row col : Z)
    (d : Direction) :
  Accepted g a row col d -> noSquare g ->
  noSquare (writeCells d row col (letters a) 0 g).
Proof.
  intros Hacc Hold r c (H1 & H2 & H3 & H4).
  assert (Hside : forall X Y,
             ~ occupied g X ->
             occupied (writeCells d row col (letters a) 0 g) X ->
             occupied (writeCells d row col (letters a) 0 g) Y ->
             Y = fst (sideCells d X) \/ Y = snd (sideCells d X) -> False).
  { intros X Y Hn HX HoY HY.
    exact (new_cell_alone g a row col d X Y Hacc Hn HX HY HoY). }
  assert (Hdec : forall X, occupied g X \/ ~ occupied g X).
  { intros X. unfold occupied.
    destruct (gridHas g (fst X) (snd X)); [left|right]; congruence. }
  destruct (Hdec (r, c)) as [O1|N1].
  - destruct (Hdec (r, c + 1)) as [O2|N2].
    + destruct (Hdec (r + 1, c)) as [O3|N3].
      * destruct (Hdec (r + 1, c + 1)) as [O4|N4].
        -- apply (Hold r c). auto.
        -- destruct d.
           ++ apply (Hside (r + 1, c + 1) (r, c + 1) N4 H4 H2).
              left. simpl. f_equal. lia.
           ++ apply (Hside (r + 1, c + 1) (r + 1, c) N4 H4 H3).
              left. simpl. f_equal. lia.
      * destruct d.
        -- apply (Hside (r + 1, c) (r, c) N3 H3 H1).
           left. simpl. f_equal. lia.
        -- apply (Hside (r + 1, c) (r + 1, c + 1) N3 H3 H4).
           right. reflexivity.
    + destruct d.
      * apply (Hside (r, c + 1) (r + 1, c + 1) N2 H2 H4). right. reflexivity.
      * apply (Hside (r, c + 1) (r, c) N2 H2 H1). left. simpl. f_equal. lia.
  - destruct d.
    + apply (Hside (r, c) (r + 1, c) N1 H1 H3). right. reflexivity.
    + apply (Hside (r, c) (r, c + 1) N1 H1 H2). right. reflexivity.
Qed.

(** X24.  When [buildGrid] returns, no four letters fill a square of two by
    two cells: the grid never holds a block of letters, only words that
    cross. *)
Theorem no_square_of_letters (entries : list Entry) (gi : GridState)
    (r c : Z) :
  buildGrid entries = inr gi ->
  ~ (occupied (grid gi) (r, c) /\ occupied (grid gi) (r, c + 1) /\
     occupied (grid gi) (r + 1, c) /\ occupied (grid gi) (r + 1, c + 1)).
Proof.
  intros H.
  apply (buildGrid_grid_invariant noSquare entries gi); auto.
  - intros r' c' (H1 & _). discriminate.
  - apply commit_noSquare.
Qed.

Lemma no_square_of_letters_witness :
  ~ (occupied (grid catAceGrid) (0, 0) /\ occupied (grid catAceGrid) (0, 0 + 1) /\
     occupied (grid catAceGrid) (0 + 1, 0) /\
     occupied (grid catAceGrid) (0 + 1, 0 + 1)).
Proof. exact (no_square_of_letters catAce catAceGrid 0 0 eq_refl). Defined.

(** ** The outcomes of a run *)

Lemma buildJson_error_kind (entries : list Entry) (gi : GridState)
    (err : BuildError) :
  buildGrid entries = inr gi -> buildJson entries gi = inl err ->
  (exists k, err = DuplicateStart k) \/
  (exists missing, err = NotAllUsed missing /\ missing <> []).
Proof.
  intros Hgrid Herr.
  destruct (indexPlacements entries (minRow gi) (minCol gi) (placed gi) [])
    as [err0|ste] eqn:Hix.
  - left. destruct (indexPlacements_error _ _ _ _ _ _ Hix) as (k & ->).
    exists k. unfold buildJson, bindR in Herr. rewrite Hix in Herr. congruence.
  - right.
    destruct (scan_total entries gi (bt_inv entries gi Hgrid)
                (buildGrid_inv2 entries gi Hgrid) ste Hix) as (s & Hscan & _).
    rewrite (sr_buildJson entries gi ste s Hix Hscan) in Herr.
    destruct (List.length (usedEntries s) =? List.length entries)%nat eqn:El;
      simpl in Herr; [discriminate|].
    injection Herr as <-. eexists. split; [reflexivity|].
    intros Hnil. apply Nat.eqb_neq in El. apply El.
    apply (used_all_iff _ _ (sr_used_nodup gi ste s Hscan)
             (sr_used_lt entries gi ste s Hgrid Hix Hscan)).
    intros i Hi.
    destruct (nth_error entries i) as [e|] eqn:He;
      [|apply nth_error_None in He; lia].
    apply JsSet_has_In.
    destruct (JsSet.has i (usedEntries s)) eqn:Eh; auto.
    exfalso.
    assert (Hin : In (rawOrAnswer e) (missingFrom (usedEntries s) 0 entries))
      by (apply missingFrom_In; exists i, e; auto).
    rewrite Hnil in Hin. destruct Hin.
Qed.

(** X25.  A run of the script, once the entries are read, ends in one of
    four ways.  It exits with status 1 exactly when there is no entry.  It
    reaches the write exactly when the two stages both return, with their
    puzzle; the run then writes the puzzle if [fs.writeFileSync] returns and
    dies of its error if it throws.  Otherwise the run dies of an uncaught
    error of the two stages, which is an invalid placement that names the
    answer of an entry, a duplicate start, or the coverage error with a
    non-empty list: the two stages never throw a type error or a missing-entry
    error. *)
Theorem main_outcomes (writeFileSync : Puzzle -> bool) (entries : list Entry) :
  (main writeFileSync entries = Exit1 <-> entries = []) /\
  (forall pz, main writeFileSync entries = Wrote pz <->
              entries <> [] /\ build entries = inr pz /\
              writeFileSync pz = true) /\
  (forall pz, main writeFileSync entries = WriteThrew pz <->
              entries <> [] /\ build entries = inr pz /\
              writeFileSync pz = false) /\
  (forall err,
      main writeFileSync entries = Thrown err ->
      (exists e, In e entries /\ err = InvalidPlacement (answer e)) \/
      (exists k, err = DuplicateStart k) \/
      (exists missing, err = NotAllUsed missing /\ missing <> [])).
Proof.
  unfold main, build, bindR.
  destruct entries as [|e0 rest]; simpl List.length; simpl Nat.eqb.
  - split; [tauto|]. split; [|split].
    + intros pz. split; [discriminate | intros [H _]; contradiction].
    + intros pz. split; [discriminate | intros [H _]; contradiction].
    + discriminate.
  - remember (e0 :: rest) as entries eqn:Hes.
    assert (Hne : entries <> []) by (subst; discriminate).
    assert (Hreach : forall pz (wrote : bool),
               match buildGrid entries with
               | inl e => Thrown e
               | inr gridInfo =>
                   match buildJson entries gridInfo with
                   | inl e => Thrown e
                   | inr puzzle =>
                       if writeFileSync puzzle then Wrote puzzle
                       else WriteThrew puzzle
                   end
               end = (if wrote then Wrote pz else WriteThrew pz) <->
               entries <> [] /\
               match buildGrid entries with
               | inl e => inl e
               | inr a => buildJson entries a
               end = inr pz /\ writeFileSync pz = wrote).
    { intros pz wrote.
      destruct (buildGrid entries) as [err|gi].
      - split; [destruct wrote; discriminate | intros (_ & H & _); discriminate].
      - destruct (buildJson entries gi) as [err|pz'].
        + split; [destruct wrote; discriminate
                 | intros (_ & H & _); discriminate].
        + split.
          * destruct (writeFileSync pz') eqn:Ew; destruct wrote; intros H;
              try discriminate; injection H as ->; auto.
          * intros (_ & H & Hw). injection H as ->. rewrite Hw.
            destruct wrote; reflexivity. }
    split; [|split; [|split]].
    + destruct (buildGrid entries) as [err|gi];
        [|destruct (buildJson entries gi) as [err|pz];
          [|destruct (writeFileSync pz)]]; split; intros H;
        try discriminate; contradiction.
    + intros pz. apply (Hreach pz true).
    + intros pz. apply (Hreach pz false).
    + intros err.
      destruct (buildGrid entries) as [err0|gi] eqn:Hg.
      * intros H. injection H as ->. left.
        unfold buildGrid in Hg.
        destruct (sortOrder_ok entries) as (Hok & _ & Hperm).
        pose proof (Permutation_length Hperm) as Hlen.
        rewrite length_map, length_seq in Hlen.
        destruct (sortOrder (indexed 0 entries)) as [|first more].
        -- subst entries. discriminate.
        -- destruct (buildGridFrom_error entries first more err Hok Hg)
             as (it & e & _ & He & ->).
           exists e. split; auto. eapply nth_error_In; eauto.
      * destruct (buildJson entries gi) as [err1|pz] eqn:Hj;
          [|destruct (writeFileSync pz); discriminate].
        intros H. injection H as ->. right.
        apply (buildJson_error_kind entries gi err Hg Hj).
Qed.

(** ** The layout depends on the answers only *)

Lemma indexed_answers (es1 : list Entry) :
  forall es2 n,
    map answer es1 = map answer es2 -> indexed n es1 = indexed n es2.
Proof.
  induction es1 as [|e1 es1 IH]; intros [|e2 es2] n H; simpl in *;
    try discriminate; auto.
  injection H as Ha Hrest. rewrite Ha. f_equal. apply IH. exact Hrest.
Qed.

Lemma answerAt_answers (es1 es2 : list Entry) (i : nat) (s : GridState) :
  map answer es1 = map answer es2 -> answerAt es1 i s = answerAt es2 i s.
Proof.
  intros H. unfold answerAt.
  pose proof (f_equal (fun l => nth_error l i) H) as Hn. simpl in Hn.
  rewrite !nth_error_map in Hn.
  destruct (nth_error es1 i), (nth_error es2 i); simpl in Hn;
    try discriminate; auto.
  injection Hn as ->. reflexivity.
Qed.

Lemma forEach_answers (es1 es2 : list Entry) (rest : list OrderItem) :
  map answer es1 = map answer es2 ->
  forall s, forEach (placeItem es1) rest s = forEach (placeItem es2) rest s.
Proof.
  intros H. induction rest as [|it rest IH]; intros s; simpl; auto.
  unfold bind.
  assert (Hit : placeItem es1 it s = placeItem es2 it s).
  { unfold placeItem, bind. rewrite (answerAt_answers es1 es2 _ s H).
    reflexivity. }
  rewrite Hit. destruct (placeItem es2 it s) as [err|[u s1]]; auto.
Qed.

(** X26.  The layout depends on the answers only: two entry lists with the
    same answers in the same order, whatever their clues and raw answers, get
    the same result from [buildGrid], be it the grid or the error. *)
Theorem buildGrid_reads_answers_only (es1 es2 : list Entry) :
  map answer es1 = map answer es2 -> buildGrid es1 = buildGrid es2.
Proof.
  intros H. unfold buildGrid. rewrite (indexed_answers es1 es2 0 H).
  unfold buildGridFrom.
  destruct (sortOrder (indexed 0 es2)) as [|first rest]; auto.
  unfold bind. rewrite (answerAt_answers es1 es2 _ initState H).
  destruct (answerAt es2 (idx first) initState) as [err|[a s0]]; auto.
  destruct (placeWordAt (idx first) a 0 0 across s0) as [err|[u s1]]; auto.
  rewrite (forEach_answers es1 es2 rest H s1). reflexivity.
Qed.

Lemma buildGrid_reads_answers_only_witness :
  buildGrid catAce
  = buildGrid [mkEntry "CAT" "Pet" (Some "cat"%string);
               mkEntry "ACE" "Card" (Some "ace"%string)].
Proof. exact (buildGrid_reads_answers_only catAce _ eq_refl). Defined.

(** ** The earlier builder, to the puzzle *)

Lemma old_setCell_bounds (r c : Z) (ch : ascii) (s : GridState) :
  inBounds s /\ NoDup (map fst (grid s)) ->
  inBounds (AppJs.setCell r c ch s) /\
  NoDup (map fst (grid (AppJs.setCell r c ch s))).
Proof.
  intros [(Hr & Hc & Hb) Hnd]. split.
  - unfold inBounds, AppJs.setCell. simpl.
    destruct (Z.ltb_spec r (minRow s)), (Z.gtb_spec r (maxRow s)),
      (Z.ltb_spec c (minCol s)), (Z.gtb_spec c (maxCol s));
      (split; [lia|]); (split; [lia|]); intros rc c0 Hin;
      (apply In_set in Hin; [|apply Coord_eqb_iff]);
      (destruct Hin as [Heq|Hin];
       [injection Heq as -> _; simpl; lia | specialize (Hb rc c0 Hin); lia]).
  - simpl. apply set_keys_NoDup; [apply Coord_eqb_iff | exact Hnd].
Qed.

Lemma old_writeLoop_bounds (d : Direction) (row col : Z) (chars : list ascii) :
  forall i s,
    inBounds s /\ NoDup (map fst (grid s)) ->
    inBounds (AppJs.writeLoop d row col chars i s) /\
    NoDup (map fst (grid (AppJs.writeLoop d row col chars i s))).
Proof.
  induction chars as [|ch rest IH]; intros i s H; simpl; auto.
  apply IH. apply old_setCell_bounds. exact H.
Qed.

Lemma old_placeWordAt_bounds (k : nat) (a : string) (row col : Z)
    (d : Direction) (s s' : GridState) :
  AppJs.placeWordAt k a row col d s = inr s' ->
  inBounds s /\ NoDup (map fst (grid s)) ->
  inBounds s' /\ NoDup (map fst (grid s')).
Proof.
  unfold AppJs.placeWordAt.
  destruct (AppJs.conflictLoop (grid s) d row col (letters a) 0);
    [discriminate|].
  intros H Hinv. injection H as <-.
  destruct (old_writeLoop_bounds d row col (letters a) 0 s Hinv) as [Hb Hnd].
  split; [exact Hb | exact Hnd].
Qed.

Lemma old_placeEntry_bounds (k : nat) (e : Entry) (s s' : GridState) :
  AppJs.placeEntry k e s = inr s' ->
  inBounds s /\ NoDup (map fst (grid s)) ->
  inBounds s' /\ NoDup (map fst (grid s')).
Proof.
  unfold AppJs.placeEntry. destruct (k =? 0)%nat.
  - apply old_placeWordAt_bounds.
  - destruct (AppJs.findPlacement s (answer e) _);
      apply old_placeWordAt_bounds.
Qed.

Lemma old_forEach_grid (rest : list Entry) :
  forall k s pre,
    List.length pre = k ->
    oldInv k s -> oldGrid (pre ++ rest) s ->
    exists s',
      AppJs.forEachFrom k rest s = inr s' /\ oldGrid (pre ++ rest) s'.
Proof.
  induction rest as [|e rest IH]; intros k s pre Hlen Hinv Hg; simpl.
  - exists s. auto.
  - destruct (old_placeEntry k e s Hinv) as (s1 & row & col & d & Hp & Hpl & H1).
    rewrite Hp.
    destruct Hg as (Hb & Hnd & _ & Hen).
    destruct (old_placeEntry_bounds k e s s1 Hp (conj Hb Hnd)) as [Hb1 Hnd1].
    assert (Hg1 : oldGrid ((pre ++ [e]) ++ rest) s1).
    { rewrite <- app_assoc. simpl. split; [exact Hb1|]. split; [exact Hnd1|].
      split; [apply H1|].
      rewrite Hpl. apply Forall_app. split; [exact Hen|].
      constructor; [|constructor]. exists e. simpl. split; [|reflexivity].
      rewrite nth_error_app2 by lia.
      replace (k - List.length pre)%nat with 0%nat by lia. reflexivity. }
    destruct (IH (S k) s1 (pre ++ [e])) as (s' & Hrun & Hg'); auto.
    { rewrite length_app. simpl. lia. }
    exists s'. split; [exact Hrun|]. rewrite <- app_assoc in Hg'. exact Hg'.
Qed.

Lemma old_buildGrid_grid (entries : list Entry) :
  exists gi, AppJs.buildGrid entries = inr gi /\ oldGrid entries gi.
Proof.
  apply (old_forEach_grid entries 0 initState []); auto.
  - split; [intros rc ch []|]. split; [constructor|]. split; reflexivity.
  - split; [|split; [|split]]; simpl.
    + unfold inBounds. simpl. repeat split; try lia; destruct H.
    + constructor.
    + constructor.
    + constructor.
Qed.

Section OldCompile.
Variable entries : list Entry.
Variable gi : GridState.
Hypothesis Hg : oldGrid entries gi.
Hypothesis Hwords : forall p, In p (placed gi) -> 0 < strlen (p_answer p).

Lemma old_start_in_range (p : Placed) :
  In p (placed gi) ->
  0 <= row p - minRow gi < maxRow gi - minRow gi + 1 /\
  0 <= col p - minCol gi < maxCol gi - minCol gi + 1.
Proof.
  intros Hp. destruct Hg as ((_ & _ & Hb) & _ & Hlet & _).
  rewrite Forall_forall in Hlet.
  pose proof (lettersInGrid_occupied (grid gi) p 0 (Hlet p Hp)
                ltac:(specialize (Hwords p Hp); lia)) as Ho.
  unfold occupied, wordCell in Ho. apply gridHas_In in Ho.
  destruct Ho as (ch & Hin). rewrite <- surjective_pairing in Hin.
  apply Hb in Hin. destruct (dir p); simpl in Hin; lia.
Qed.

Lemma old_solution (p : Placed) (k : nat) (ch : ascii) :
  In p (placed gi) ->
  nth_error (letters (p_answer p)) k = Some ch ->
  solutionAt
    (denseGrid (normalize (minRow gi) (minCol gi) (grid gi))
       (maxRow gi - minRow gi + 1) (maxCol gi - minCol gi + 1))
    (cellOf (dir p) (row p - minRow gi) (col p - minCol gi) (Z.of_nat k))
  = Some ch.
Proof.
  intros Hp Hk. destruct Hg as ((_ & _ & Hb) & Hnd & Hlet & _).
  rewrite Forall_forall in Hlet. pose proof (Hlet p Hp k ch Hk) as Hl.
  assert (Ho : gridHas (grid gi) (fst (wordCell p (Z.of_nat k)))
                 (snd (wordCell p (Z.of_nat k))) = true)
    by (apply gridHas_get; eauto).
  apply gridHas_In in Ho. destruct Ho as (c0 & Hin).
  rewrite <- surjective_pairing in Hin. apply Hb in Hin.
  replace (cellOf (dir p) (row p - minRow gi) (col p - minCol gi) (Z.of_nat k))
    with (fst (wordCell p (Z.of_nat k)) - minRow gi,
          snd (wordCell p (Z.of_nat k)) - minCol gi)
    by (unfold wordCell; destruct (dir p); simpl; f_equal; lia).
  rewrite denseGrid_solution by lia.
  rewrite normalize_get by exact Hnd.
  replace (fst (wordCell p (Z.of_nat k)) - minRow gi + minRow gi)
    with (fst (wordCell p (Z.of_nat k))) by lia.
  replace (snd (wordCell p (Z.of_nat k)) - minCol gi + minCol gi)
    with (snd (wordCell p (Z.of_nat k))) by lia.
  exact Hl.
Qed.

Lemma old_clueOf_step (p : Placed) (s : AppJs.Scan) :
  In p (placed gi) ->
  oldScanInv entries gi
    (denseGrid (normalize (minRow gi) (minCol gi) (grid gi))
       (maxRow gi - minRow gi + 1) (maxCol gi - minCol gi + 1)) s ->
  exists s',
    AppJs.clueOf entries (normalize (minRow gi) (minCol gi) (grid gi))
      (minRow gi) (minCol gi) p s = inr s' /\
    oldScanInv entries gi
      (denseGrid (normalize (minRow gi) (minCol gi) (grid gi))
         (maxRow gi - minRow gi + 1) (maxCol gi - minCol gi + 1)) s'.
Proof.
  intros Hp (Hshape & Hsol & Hcl). unfold AppJs.clueOf.
  destruct (AppJs.notAStart _ (dir p) _ _).
  { exists s. split; [reflexivity|]. split; [|split]; auto. }
  destruct (old_start_in_range p Hp) as [Hr Hc].
  destruct Hg as (_ & _ & _ & Hen). rewrite Forall_forall in Hen.
  destruct (Hen p Hp) as (e & He & Ha). rewrite He.
  assert (Hpush : forall num s1,
             (forall i j, cell2 (AppJs.gridJson s1) i j = None <->
                          cell2 (AppJs.gridJson s) i j = None) ->
             (forall rc, solutionAt (AppJs.gridJson s1) rc
                         = solutionAt (AppJs.gridJson s) rc) ->
             (forall d, oldCluesOf d s1 = oldCluesOf d s) ->
             oldScanInv entries gi
               (denseGrid (normalize (minRow gi) (minCol gi) (grid gi))
                  (maxRow gi - minRow gi + 1) (maxCol gi - minCol gi + 1))
               (AppJs.pushClue (dir p)
                  (mkClue num (clue e)
                     (map (cellOf (dir p) (row p - minRow gi)
                             (col p - minCol gi))
                        (zrange (strlen (p_answer p))))) s1)).
  { intros num s1 H1 H2 H3. split; [|split].
    - intros i j. rewrite <- Hshape, <- H1. destruct (dir p); reflexivity.
    - intros rc. rewrite <- Hsol, <- H2. destruct (dir p); reflexivity.
    - intros d cl Hin.
      assert (Hcase : In cl (oldCluesOf d s) \/
                      (d = dir p /\
                       cl = mkClue num (clue e)
                              (map (cellOf (dir p) (row p - minRow gi)
                                      (col p - minCol gi))
                                 (zrange (strlen (p_answer p)))))).
      { specialize (H3 d).
        destruct (dir p), d; simpl in *; rewrite <- ?H3;
          try (apply in_app_iff in Hin; destruct Hin as [Hin|[<-|[]]]);
          auto. }
      destruct Hcase as [Hold|[-> ->]]; [auto|].
      exists p, e. simpl. rewrite Ha. repeat split; auto. }
  unfold AppJs.assignNumber.
  destruct (JsMap.get Coord_eqb (row p - minRow gi, col p - minCol gi)
              (AppJs.cellNumber s)) as [n|].
  - eexists. split; [reflexivity|]. apply Hpush; intros; reflexivity.
  - destruct (setNumber_some (row p - minRow gi) (col p - minCol gi)
                (AppJs.clueNumber s) (AppJs.gridJson s)) as (g' & Hg');
      [lia | lia | |].
    { intros Hnone. apply Hshape in Hnone. rewrite denseGrid_cell2 in Hnone.
      rewrite !Z2Nat.id in Hnone by lia.
      replace (row p - minRow gi <? maxRow gi - minRow gi + 1) with true
        in Hnone by (symmetry; apply Z.ltb_lt; lia).
      replace (col p - minCol gi <? maxCol gi - minCol gi + 1) with true
        in Hnone by (symmetry; apply Z.ltb_lt; lia).
      discriminate. }
    rewrite Hg'. eexists. split; [reflexivity|]. apply Hpush; simpl.
    + intros i j. rewrite (setNumber_cell2 _ _ _ _ _ i j Hg').
      destruct ((i =? _) && (j =? _))%nat; [|reflexivity].
      destruct (cell2 (AppJs.gridJson s) i j); simpl; split; intros H;
        try discriminate; reflexivity.
    + intros rc. apply (setNumber_solution _ _ _ _ _ rc Hg').
    + intros [|]; reflexivity.
Qed.

Lemma old_cluesLoop_total (ps : list Placed) :
  forall s,
    (forall p, In p ps -> In p (placed gi)) ->
    oldScanInv entries gi
      (denseGrid (normalize (minRow gi) (minCol gi) (grid gi))
         (maxRow gi - minRow gi + 1) (maxCol gi - minCol gi + 1)) s ->
    exists s',
      AppJs.cluesLoop entries (normalize (minRow gi) (minCol gi) (grid gi))
        (minRow gi) (minCol gi) ps s = inr s' /\
      oldScanInv entries gi
        (denseGrid (normalize (minRow gi) (minCol gi) (grid gi))
           (maxRow gi - minRow gi + 1) (maxCol gi - minCol gi + 1)) s'.
Proof.
  induction ps as [|p ps IH]; intros s Hin Hinv; simpl.
  - exists s. auto.
  - destruct (old_clueOf_step p s (Hin p (or_introl eq_refl)) Hinv)
      as (s1 & -> & H1).
    apply IH; auto. intros q Hq. apply Hin. right. exact Hq.
Qed.

End OldCompile.

(** X27.  When no answer is empty, the earlier build kept in [app.js] always
    returns a puzzle, and each of its clues was made for a placed word of the
    clue's direction: it has the text of the word's entry, its cells are the
    cells of the word in order, and the solutions of the grid at these cells
    spell the answer. *)
Theorem earlier_build_total (entries : list Entry) :
  (forall e, In e entries -> answer e <> EmptyString) ->
  exists gi pz,
    AppJs.buildGrid entries = inr gi /\
    AppJs.build entries = inr pz /\
    forall d cl,
      In cl (puzzleClues d pz) ->
      exists p e,
        In p (placed gi) /\ dir p = d /\
        nth_error entries (index p) = Some e /\
        text cl = clue e /\
        cells cl = placementCells (answer e)
                     (row p - minRow gi) (col p - minCol gi) d /\
        map (solutionAt (pgrid pz)) (cells cl) = map Some (letters (answer e)).
Proof.
  intros Hne.
  destruct (old_buildGrid_grid entries) as (gi & Hrun & Hg).
  assert (Hwords : forall p, In p (placed gi) -> 0 < strlen (p_answer p)).
  { intros p Hp. destruct Hg as (_ & _ & _ & Hen).
    rewrite Forall_forall in Hen. destruct (Hen p Hp) as (e & He & ->).
    apply nth_error_In in He. specialize (Hne e He).
    unfold strlen. destruct (answer e); [contradiction | simpl; lia]. }
  destruct (old_cluesLoop_total entries gi Hg Hwords (placed gi)
              (AppJs.mkScan 1 [] [] []
                 (denseGrid (normalize (minRow gi) (minCol gi) (grid gi))
                    (maxRow gi - minRow gi + 1) (maxCol gi - minCol gi + 1))))
    as (s & Hloop & Hshape & Hsol & Hcl).
  { auto. }
  { split; [|split]; simpl; try reflexivity. intros [|] cl []. }
  exists gi. eexists. split; [exact Hrun|]. split.
  { unfold AppJs.build. rewrite Hrun. unfold AppJs.buildJson.
    rewrite Hloop. reflexivity. }
  intros d cl Hin.
  assert (Hin' : In cl (oldCluesOf d s)) by (destruct d; exact Hin).
  destruct (Hcl d cl Hin') as (p & e & Hp & Hd & He & Ha & Ht & Hcells).
  exists p, e. repeat split; auto. simpl.
  rewrite Hcells, placementCells_cellsFrom.
  apply nth_error_ext. intros k. rewrite !nth_error_map.
  destruct (nth_error (letters (answer e)) k) as [ch|] eqn:Ek.
  - assert (Hk : (k < List.length (letters (answer e)))%nat)
      by (apply nth_error_Some; congruence).
    rewrite cellsFrom_nth by auto. simpl. f_equal.
    rewrite Hsol, <- Hd. rewrite <- Ha in Ek.
    apply (old_solution entries gi Hg p k ch Hp Ek).
  - apply nth_error_None in Ek.
    assert (E : nth_error (cellsFrom d (row p - minRow gi) (col p - minCol gi)
                             0 (List.length (letters (answer e)))) k = None).
    { apply nth_error_None. rewrite cellsFrom_length. exact Ek. }
    rewrite E. reflexivity.
Qed.

Lemma earlier_build_total_witness :
  exists gi pz,
    AppJs.buildGrid catDog = inr gi /\
    AppJs.build catDog = inr pz /\
    forall d cl,
      In cl (puzzleClues d pz) ->
      exists p e,
        In p (placed gi) /\ dir p = d /\
        nth_error catDog (index p) = Some e /\
        text cl = clue e /\
        cells cl = placementCells (answer e)
                     (row p - minRow gi) (col p - minCol gi) d /\
        map (solutionAt (pgrid pz)) (cells cl) = map Some (letters (answer e)).
Proof.
  apply (earlier_build_total catDog).
  intros e [<-|[<-|[]]]; discriminate.
Defined.

(** ** A condition on the input alone *)

Lemma crossing_shares_letter (entries : list Entry) (gi : GridState)
    (p q : Placed) :
  GridInv entries gi -> In p (placed gi) -> In q (placed gi) ->
  sharesCell p q ->
  exists ch, In ch (letters (p_answer p)) /\ In ch (letters (p_answer q)).
Proof.
  intros Hinv Hp Hq (rc & (k1 & Hk1 & Hw1) & (k2 & Hk2 & Hw2)).
  pose proof (inv_letters _ _ Hinv) as Hlet. rewrite Forall_forall in Hlet.
  destruct (nth_letter _ _ Hk1) as (c1 & Hc1).
  destruct (nth_letter _ _ Hk2) as (c2 & Hc2).
  pose proof (Hlet p Hp _ _ Hc1) as L1.
  pose proof (Hlet q Hq _ _ Hc2) as L2.
  rewrite Z2Nat.id in L1, L2 by lia. rewrite Hw1 in L1. rewrite Hw2 in L2.
  assert (c1 = c2) by congruence. subst c2.
  exists c1. split; eapply nth_error_In; eauto.
Qed.

(** X28.  A condition on the input alone: when [buildGrid] returns for at
    least two entries whose answers are not all empty, the answer of every
    entry has a letter in common with the answer of another entry.  So an
    answer that shares no letter with any other answer makes [buildGrid]
    throw. *)
Theorem answers_share_letters (entries : list Entry) (gi : GridState)
    (i : nat) (e : Entry) :
  buildGrid entries = inr gi ->
  (2 <= List.length entries)%nat ->
  (exists e0, In e0 entries /\ answer e0 <> EmptyString) ->
  nth_error entries i = Some e ->
  exists j e' ch,
    j <> i /\ nth_error entries j = Some e' /\
    In ch (letters (answer e)) /\ In ch (letters (answer e')).
Proof.
  intros Hgrid Hn (e0 & Hin0 & Hne0) He.
  destruct (buildGrid_inv entries gi Hgrid) as (Hinv & Hperm).
  pose proof (buildGrid_inv2 entries gi Hgrid) as Hinv2.
  pose proof (inv_letters _ _ Hinv) as Hlet. rewrite Forall_forall in Hlet.
  pose proof (inv_entries _ _ Hinv) as Hen. rewrite Forall_forall in Hen.
  assert (Hnd : NoDup (map index (placed gi))).
  { apply (Permutation_NoDup (Permutation_sym Hperm)). apply seq_NoDup. }
  assert (Hlen : List.length (placed gi) = List.length entries).
  { apply Permutation_length in Hperm.
    rewrite length_map, length_seq in Hperm. exact Hperm. }
  assert (Hnonempty : grid gi <> []).
  { apply In_nth_error in Hin0. destruct Hin0 as (i0 & Hi0).
    destruct (bt_placement entries gi Hgrid i0 e0 Hi0) as (p0 & Hp0 & _ & Ha0).
    destruct (letters (p_answer p0)) as [|c0 rest] eqn:El.
    - exfalso. apply Hne0. rewrite <- Ha0. apply letters_nil. exact El.
    - intros Hnil. specialize (Hlet p0 Hp0 0%nat c0).
      rewrite El, Hnil in Hlet. specialize (Hlet eq_refl). discriminate. }
  assert (Hpair : forall a b p q,
             (a < b)%nat -> nth_error (placed gi) a = Some p ->
             nth_error (placed gi) b = Some q -> sharesCell q p ->
             index p <> index q /\
             exists ch, In ch (letters (p_answer p)) /\
                        In ch (letters (p_answer q))).
  { intros a b p q Hab Hpa Hqb Hsh. split.
    - intros Heq. rewrite NoDup_nth_error in Hnd.
      assert (a = b); [|lia]. apply Hnd.
      + rewrite length_map. apply nth_error_Some. congruence.
      + rewrite !nth_error_map, Hpa, Hqb. simpl. congruence.
    - destruct (crossing_shares_letter entries gi q p Hinv) as (ch & H1 & H2);
        eauto using nth_error_In. }
  destruct (bt_placement entries gi Hgrid i e He) as (p & Hp & Hi & Ha).
  apply In_nth_error in Hp. destruct Hp as (pos & Hpos).
  assert (Hother : exists q, In q (placed gi) /\ index q <> index p /\
                     exists ch, In ch (letters (p_answer p)) /\
                                In ch (letters (p_answer q))).
  { destruct pos as [|pos].
    - destruct (nth_error (placed gi) 1) as [q|] eqn:Hq;
        [|apply nth_error_None in Hq; lia].
      destruct (inv_crossing _ Hinv2 Hnonempty 1%nat q Hq ltac:(lia))
        as (j & q' & Hj & Hq' & Hsh).
      assert (j = 0%nat) by lia. subst j.
      assert (q' = p) by congruence. subst q'.
      destruct (Hpair 0%nat 1%nat p q ltac:(lia) Hpos Hq Hsh)
        as (Hidx & ch & H1 & H2).
      exists q. split; [eapply nth_error_In; eauto|]. split; [congruence|].
      exists ch. auto.
    - destruct (inv_crossing _ Hinv2 Hnonempty (S pos) p Hpos ltac:(lia))
        as (j & q & Hj & Hq & Hsh).
      destruct (Hpair j (S pos) q p Hj Hq Hpos Hsh) as (Hidx & ch & H1 & H2).
      exists q. split; [eapply nth_error_In; eauto|]. split; [exact Hidx|].
      exists ch. auto. }
  destruct Hother as (q & Hq & Hidx & ch & H1 & H2).
  destruct (Hen q Hq) as (e' & He' & Ha').
  exists (index q), e', ch. rewrite <- Ha, <- Ha'.
  split; [congruence|]. auto.
Qed.

Lemma answers_share_letters_witness :
  exists j e' ch,
    j <> 1%nat /\ nth_error catAce j = Some e' /\
    In ch (letters (answer (mkEntry "ACE" "Top card" None))) /\
    In ch (letters (answer e')).
Proof.
  refine (answers_share_letters catAce catAceGrid 1
            (mkEntry "ACE" "Top card" None) eq_refl _ _ eq_refl).
  - simpl. lia.
  - exists (mkEntry "CAT" "Feline pet" None). split.
    + left. reflexivity.
    + discriminate.
Defined.
